(** * jalloc: a shallow embedding of [jalloc.hpp] and its specification

    The development follows the layout of the header file: constants, the
    size-class table, the thread cache, the bitmap, the block header, the
    pools, the pool manager, the large-block cache and finally the public
    entry points of [Jallocator].

    Modelling conventions.
    - [size_t], [uintptr_t] and [uint64_t] values are integers in [Z]; where
      the source relies on unsigned wrap-around the reduction modulo [2^64]
      is written out with [wrap64].  Narrowing casts ([uint16_t], [uint8_t])
      are written out with [Z.modulo].
    - Pointers are addresses in [Z]; the null pointer is [0].
    - Only the scalar code paths are embedded (the SIMD blocks guarded by
      [__AVX512F__], [__AVX2__] and the NEON blocks are performance
      specialisations and are not part of the model).  The two places where
      the scalar code itself differs between targets, [get_bucket_index] and
      the search for the eviction candidate in [cache_block], are embedded
      for both scalar variants and selected by a [target].
    - Memory is split in two typed views: [hdrs] holds the [block_header]
      objects by address, [bytes] holds the payload bytes.  Headers are only
      accessed through [block_header*] and payload only through [char*].
      The entry points that take a pointer from the caller, [deallocate]
      and [reallocate], are defined only where the header they read is an
      object of [hdrs]; inside the allocator [hdr_at] reads an address
      without an object as an all-zero header, and the properties of
      [try_coalesce] are stated on chains whose headers are objects.
    - A function that can leave the well-defined behaviour of the source
      (division by zero, an out-of-bounds bitmap word, [std::terminate], a
      walk over a cyclic physical chain, a read of a header where none
      lives, [free] of a block that [malloc] did not return, a refused
      [mmap]) returns [None]. *)

From Stdlib Require Import ZArith Lia Bool List.
From stdpp Require Import base option list gmap.

Local Open Scope Z_scope.

(** ** Machine arithmetic *)

Definition wrap64 (z : Z) : Z := z mod 2 ^ 64.

Definition SIZE_MAX : Z := 2 ^ 64 - 1.

(** [__builtin_ctzll]; the source never calls it on [0]. *)
Fixpoint ctz_pos (p : positive) : Z :=
  match p with
  | xO q => Z.succ (ctz_pos q)
  | _ => 0
  end.

Definition count_trailing_zeros (x : Z) : Z :=
  match x with
  | Zpos p => ctz_pos p
  | _ => 64
  end.

(** [__builtin_clzll] and [__builtin_clz] on a non-zero argument. *)
Definition clzll (x : Z) : Z := 63 - Z.log2 x.
Definition clz (x : Z) : Z := 31 - Z.log2 (x mod 2 ^ 32).

(** [x & ~(a - 1)] for a power of two [a]. *)
Definition align_down (x a : Z) : Z := Z.land x (Z.lnot (a - 1)).

(** Array access with an index of type [size_t]. *)
Definition nth_def {A} (d : A) (l : list A) (i : Z) : A :=
  default d (l !! Z.to_nat i).

Definition set_nth {A} (l : list A) (i : Z) (x : A) : list A :=
  <[Z.to_nat i := x]> l.

(** ** Allocator constants *)

Definition CACHE_LINE_SIZE : Z := 64.
Definition PG_SIZE : Z := 4096.

Definition TINY_LARGE_THRESHOLD : Z := 64.
Definition SMALL_LARGE_THRESHOLD : Z := 256.
Definition ALIGNMENT : Z := CACHE_LINE_SIZE.
Definition LARGE_THRESHOLD : Z := 1024 * 1024.
Definition MAX_CACHED_BLOCKS : Z := 32.
Definition MAX_CACHE_SIZE : Z := 64 * 1024 * 1024.
Definition MIN_CACHE_BLOCK : Z := 4 * 1024.
Definition MAX_CACHE_BLOCK : Z := 16 * 1024 * 1024.

Definition CACHE_SIZE : Z := 32.
Definition SIZE_CLASSES : Z := 32.
Definition TINY_CLASSES : Z := 8.
Definition MAX_POOLS : Z := 8.

Definition SIZE_MASK : Z := 0x0000FFFFFFFFFFFF.
Definition CLASS_MASK : Z := 0x00FF000000000000.
Definition MMAP_FLAG : Z := Z.shiftl 1 62.
Definition COALESCED_FLAG : Z := Z.shiftl 1 61.
Definition HEADER_MAGIC : Z := 0xDEADBEEF12345678.
Definition MAGIC_MASK : Z := 0xF000000000000000.
Definition MAGIC_VALUE : Z := 0xA000000000000000.
Definition THREAD_OWNER_MASK : Z := 0xFFFF000000000000.

(** [sizeof(block_header)]: four 8-byte fields, [alignas(ALIGNMENT)].
    [sizeof(bitmap)]: [PG_SIZE / (CACHE_LINE_SIZE * 8)] = 8 words. *)
Definition sizeof_block_header : Z := 64.
Definition words_per_bitmap : Z := PG_SIZE / (CACHE_LINE_SIZE * 8).
Definition sizeof_bitmap : Z := 8 * words_per_bitmap.
Definition bits_per_word : Z := 64.

(** ** Size classes *)

Record size_class := {
  sc_size : Z;
  sc_slot_size : Z;
  sc_blocks : Z;
  sc_slack : Z
}.

Definition get_alignment_for_size (size : Z) : Z :=
  if size <=? CACHE_LINE_SIZE then CACHE_LINE_SIZE
  else if size >=? PG_SIZE then PG_SIZE
  else Z.shiftl 1 (64 - clzll (size - 1)).

Definition uint16 (z : Z) : Z := z mod 2 ^ 16.
Definition uint8 (z : Z) : Z := z mod 2 ^ 8.

(** Entry [i] of the [constexpr] table [size_classes]. *)
Definition size_classes (i : Z) : size_class :=
  let size := Z.shiftl 1 (i + 3) in
  let alignment := get_alignment_for_size size in
  let slot := align_down (size + alignment - 1) alignment in
  {| sc_size := uint16 size;
     sc_slot_size := uint16 slot;
     sc_blocks := uint16 (PG_SIZE / slot);
     sc_slack := uint16 (slot - size) |}.

(** ** Thread cache *)

Record cached_block := {
  cb_ptr : Z;
  cb_size_class : Z
}.

Record size_class_cache := {
  scc_blocks : list cached_block;
  scc_count : Z
}.

Record thread_cache_t := {
  caches : list size_class_cache
}.

Definition null_cached_block : cached_block := {| cb_ptr := 0; cb_size_class := 0 |}.
Definition empty_size_class_cache : size_class_cache :=
  {| scc_blocks := replicate 32 null_cached_block; scc_count := 0 |}.

Module thread_cache.

Definition get (tc : thread_cache_t) (size_class : Z) : thread_cache_t * Z :=
  let c := nth_def empty_size_class_cache (caches tc) size_class in
  if 0 <? scc_count c then
    let count := scc_count c - 1 in
    ({| caches := set_nth (caches tc) size_class
                    {| scc_blocks := scc_blocks c; scc_count := count |} |},
     cb_ptr (nth_def null_cached_block (scc_blocks c) count))
  else (tc, 0).

Definition put (tc : thread_cache_t) (ptr size_class : Z) : thread_cache_t * bool :=
  let c := nth_def empty_size_class_cache (caches tc) size_class in
  if scc_count c <? CACHE_SIZE then
    ({| caches := set_nth (caches tc) size_class
                    {| scc_blocks := set_nth (scc_blocks c) (scc_count c)
                                       {| cb_ptr := ptr; cb_size_class := size_class |};
                       scc_count := scc_count c + 1 |} |},
     true)
  else (tc, false).

Definition clear (tc : thread_cache_t) : thread_cache_t :=
  {| caches := map (fun c => {| scc_blocks := scc_blocks c; scc_count := 0 |}) (caches tc) |}.

End thread_cache.

Definition is_base_aligned (ptr : Z) : bool :=
  Z.land ptr (ALIGNMENT - 1) =? 0.

(** ** Bitmap *)

Definition SENTINEL : Z := SIZE_MAX.

Definition fresh_bitmap : list Z := replicate 8 SIZE_MAX.

Module bitmap.

(** The scalar loop of [find_free_block].  Single-threaded, the
    compare-exchange on the word just loaded succeeds, so the first
    non-zero eligible word loses its lowest set bit. *)
Fixpoint find_free_from (words : list Z) (align_mask : Z) (idxs : list nat)
  : list Z * Z :=
  match idxs with
  | [] => (words, SENTINEL)
  | i :: rest =>
      if negb (Z.land (Z.of_nat i) align_mask =? 0)
      then find_free_from words align_mask rest
      else
        let expected := default 0 (words !! i) in
        if expected =? 0 then find_free_from words align_mask rest
        else
          let bit := count_trailing_zeros expected in
          let block_offset := Z.of_nat i * bits_per_word + bit in
          let desired := Z.land expected (Z.lnot (Z.shiftl 1 bit)) in
          (<[i := desired]> words, block_offset)
  end.

Definition find_free_block (words : list Z) (size : Z) : list Z * Z :=
  let alignment := get_alignment_for_size size in
  let align_mask := wrap64 (alignment / bits_per_word - 1) in
  find_free_from words align_mask (seq 0 (Z.to_nat words_per_bitmap)).

(** [words[word_idx].fetch_or(1 << bit_idx)]; a word index outside the
    array is undefined behaviour. *)
Definition mark_free (words : list Z) (index : Z) : option (list Z) :=
  let word_idx := index / bits_per_word in
  let bit_idx := index mod bits_per_word in
  match words !! Z.to_nat word_idx with
  | Some w => Some (<[Z.to_nat word_idx := Z.lor w (Z.shiftl 1 bit_idx)]> words)
  | None => None
  end.

Definition is_completely_free (words : list Z) : bool :=
  forallb (fun w => w =? SIZE_MAX) words.

End bitmap.

(** ** Block header *)

Record block_header := {
  data : Z;
  magic : Z;
  prev_physical : Z;
  next_physical : Z
}.

(** [block_header()]: value-initialisation zeroes every field. *)
Definition zero_header : block_header :=
  {| data := 0; magic := 0; prev_physical := 0; next_physical := 0 |}.

Definition set_data (d : Z) (h : block_header) : block_header :=
  {| data := d; magic := magic h;
     prev_physical := prev_physical h; next_physical := next_physical h |}.

Definition set_prev_physical (a : Z) (h : block_header) : block_header :=
  {| data := data h; magic := magic h;
     prev_physical := a; next_physical := next_physical h |}.

Definition set_next_physical (a : Z) (h : block_header) : block_header :=
  {| data := data h; magic := magic h;
     prev_physical := prev_physical h; next_physical := a |}.

Module header.

Definition encode (size size_class : Z) (is_free : bool) (h : block_header)
  : block_header :=
  set_data
    (Z.lor (Z.lor (Z.lor (Z.land size SIZE_MASK)
                         (Z.shiftl (uint8 size_class) 48))
                  (Z.shiftl (Z.b2z is_free) 63))
           MAGIC_VALUE) h.

Definition init (sz size_class : Z) (is_free : bool) (prev next : Z)
                (h : block_header) : block_header :=
  if sz >? 2 ^ 47 then zero_header
  else
    let h1 := {| data := data h; magic := HEADER_MAGIC;
                 prev_physical := prev_physical h;
                 next_physical := next_physical h |} in
    let h2 := encode sz size_class is_free h1 in
    set_next_physical next (set_prev_physical prev h2).

Definition size (h : block_header) : Z := Z.land (data h) SIZE_MASK.

Definition size_class (h : block_header) : Z :=
  uint8 (Z.shiftr (Z.land (data h) CLASS_MASK) 48).

Definition is_free (h : block_header) : bool :=
  negb (Z.land (data h) (Z.shiftl 1 63) =? 0).

Definition is_memory_mapped (h : block_header) : bool :=
  negb (Z.land (data h) MMAP_FLAG =? 0).

Definition is_coalesced (h : block_header) : bool :=
  negb (Z.land (data h) COALESCED_FLAG =? 0).

Definition is_valid (h : block_header) : bool :=
  if (magic h =? HEADER_MAGIC) && (Z.land (data h) MAGIC_MASK =? MAGIC_VALUE)
  then (size h <=? 2 ^ 47) &&
       ((size_class h <? SIZE_CLASSES) || (size_class h =? 255))
  else false.

Definition set_free (is_free : bool) (h : block_header) : block_header :=
  set_data (Z.lor (Z.land (data h) (Z.lnot (Z.shiftl 1 63)))
                  (Z.shiftl (Z.b2z is_free) 63)) h.

Definition set_memory_mapped (is_mmap : bool) (h : block_header) : block_header :=
  set_data (Z.lor (Z.land (data h) (Z.lnot MMAP_FLAG))
                  (Z.shiftl (Z.b2z is_mmap) 62)) h.

Definition set_coalesced (is_coalesced : bool) (h : block_header) : block_header :=
  set_data (Z.lor (Z.land (data h) (Z.lnot COALESCED_FLAG))
                  (Z.shiftl (Z.b2z is_coalesced) 61)) h.

End header.

(** *** Header objects in memory *)

Definition hdr_at (m : gmap Z block_header) (a : Z) : block_header :=
  default zero_header (m !! a).

(** Read-modify-write of the header object at address [a]. *)
Definition hdr_upd (a : Z) (f : block_header -> block_header)
                   (m : gmap Z block_header) : gmap Z block_header :=
  <[a := f (hdr_at m a)]> m.

(** [ptr - sizeof(block_header)] on [char*]. *)
Definition header_of (ptr : Z) : Z := wrap64 (ptr - sizeof_block_header).

Definition is_aligned (m : gmap Z block_header) (ptr : Z) : bool :=
  if negb (is_base_aligned ptr) then false
  else
    let hdr := header_of ptr in
    if negb (is_base_aligned hdr) then false
    else if negb (magic (hdr_at m hdr) =? HEADER_MAGIC) then false
    else
      let size_alignment := get_alignment_for_size (header.size (hdr_at m hdr)) in
      Z.land ptr (size_alignment - 1) =? 0.

(** [is_aligned(ptr)] dereferences [header->magic] once its two address
    tests have passed.  The read is defined where a [block_header] object
    lives; anywhere else the program reads memory that holds no header, or
    no memory at all. *)
Definition header_readable (m : gmap Z block_header) (ptr : Z) : bool :=
  negb (is_base_aligned ptr && is_base_aligned (header_of ptr))
  || bool_decide (is_Some (m !! header_of ptr)).

(** [block_header::try_coalesce], called on the header at address [this].
    Every [next_physical] / [prev_physical] below is a member read of
    [*this] at that point of the execution, as in the source. *)
Definition coalesce_next (m : gmap Z block_header) (this : Z)
  : gmap Z block_header * bool :=
  let nxt := next_physical (hdr_at m this) in
  if negb (nxt =? 0) && header.is_free (hdr_at m nxt) then
    let combined_size :=
      wrap64 (header.size (hdr_at m this) + header.size (hdr_at m nxt)
              + sizeof_block_header) in
    let m1 := hdr_upd this (set_next_physical (next_physical (hdr_at m nxt))) m in
    let nn := next_physical (hdr_at m1 this) in
    let m2 := if negb (nn =? 0) then hdr_upd nn (set_prev_physical this) m1 else m1 in
    let m3 := hdr_upd this
                (fun h => header.encode combined_size (header.size_class h) true h) m2 in
    let m4 := hdr_upd this (header.set_coalesced true) m3 in
    (m4, true)
  else (m, false).

Definition coalesce_prev (m : gmap Z block_header) (this : Z)
  : gmap Z block_header * bool :=
  let prv := prev_physical (hdr_at m this) in
  if negb (prv =? 0) && header.is_free (hdr_at m prv) then
    let combined_size :=
      wrap64 (header.size (hdr_at m this) + header.size (hdr_at m prv)
              + sizeof_block_header) in
    let m1 := hdr_upd prv (set_next_physical (next_physical (hdr_at m this))) m in
    let nn := next_physical (hdr_at m1 this) in
    let m2 := if negb (nn =? 0)
              then hdr_upd nn (set_prev_physical (prev_physical (hdr_at m1 this))) m1
              else m1 in
    let prv2 := prev_physical (hdr_at m2 this) in
    let m3 := hdr_upd prv2
                (fun h => header.encode combined_size (header.size_class h) true h) m2 in
    let prv3 := prev_physical (hdr_at m3 this) in
    let m4 := hdr_upd prv3 (header.set_coalesced true) m3 in
    (m4, true)
  else (m, false).

Definition try_coalesce (m : gmap Z block_header) (this : Z)
  : gmap Z block_header * bool :=
  let self := hdr_at m this in
  if header.is_memory_mapped self || (header.size_class self <? TINY_CLASSES)
  then (m, false)
  else
    let '(m1, c1) := coalesce_next m this in
    let '(m2, c2) := coalesce_prev m1 this in
    (m2, c1 || c2).

(** ** The operating system and the C++ heap

    [MAP_MEMORY], [UNMAP_MEMORY], aligned [operator new] / [delete] and
    [free] are external.  The model keeps the list of answers the
    environment will give to the next requests ([Some base] for a fresh
    region, [None] for a refusal; an exhausted list refuses), the results of
    the next [madvise] calls ([true] for success), the regions currently
    handed out, and the cycle counter read by [get_timestamp]. *)

Record os_state := {
  os_answers : list (option Z);
  os_advice : list bool;
  os_live : list (Z * Z);
  os_clock : Z
}.

Definition os_acquire (len : Z) (o : os_state) : option Z * os_state :=
  match os_answers o with
  | [] => (None, o)
  | None :: rest =>
      (None, {| os_answers := rest; os_advice := os_advice o;
                os_live := os_live o; os_clock := os_clock o |})
  | Some base :: rest =>
      (Some base, {| os_answers := rest; os_advice := os_advice o;
                     os_live := (base, len) :: os_live o;
                     os_clock := os_clock o |})
  end.

Definition os_release (base : Z) (o : os_state) : os_state :=
  {| os_answers := os_answers o; os_advice := os_advice o;
     os_live := filter (fun r => r.1 ≠ base) (os_live o);
     os_clock := os_clock o |}.

Definition os_madvise (o : os_state) : bool * os_state :=
  match os_advice o with
  | [] => (false, o)
  | r :: rest =>
      (r, {| os_answers := os_answers o; os_advice := rest;
             os_live := os_live o; os_clock := os_clock o |})
  end.

Definition get_timestamp (o : os_state) : Z * os_state :=
  (os_clock o,
   {| os_answers := os_answers o; os_advice := os_advice o;
      os_live := os_live o; os_clock := wrap64 (os_clock o + 1) |}).

(** *** Raw memory operations on the two views *)

Definition in_range (addr len a : Z) : bool := (addr <=? a) && (a <? addr + len).

(** [memset(addr, 0, len)] on the payload bytes. *)
Definition memset0 (addr len : Z) (b : Z -> Z) : Z -> Z :=
  fun a => if in_range addr len a then 0 else b a.

(** [memcpy(dst, src, len)]. *)
Definition memcpy (dst src len : Z) (b : Z -> Z) : Z -> Z :=
  fun a => if in_range dst len a then b (a - dst + src) else b a.

(** Header objects inside a range that is zero-filled cease to exist. *)
Definition drop_headers (addr len : Z) (m : gmap Z block_header)
  : gmap Z block_header :=
  filter (fun kv => ¬ (addr ≤ kv.1 ∧ kv.1 < addr + len)) m.

(** ** Large-block cache *)

Record cache_entry := {
  ce_ptr : Z;
  ce_size : Z;
  last_use : Z
}.

Record size_bucket := {
  sb_count : Z;
  entries : list cache_entry
}.

Record large_block_cache_t := {
  buckets : list size_bucket;
  total_cached : Z
}.

Definition BUCKET_SIZE : Z := 4.
Definition NUM_BUCKETS : Z := 8.
Definition UINT64_MAX : Z := 2 ^ 64 - 1.

Definition empty_entry : cache_entry := {| ce_ptr := 0; ce_size := 0; last_use := 0 |}.
Definition empty_bucket : size_bucket :=
  {| sb_count := 0; entries := replicate 4 empty_entry |}.
Definition empty_large_cache : large_block_cache_t :=
  {| buckets := replicate 8 empty_bucket; total_cached := 0 |}.

(** The scalar builds: [x86_64] is the [__x86_64__] branch without AVX2
    (the index is computed with [__builtin_clzll] and no search for the
    oldest entry is compiled, so the candidate is entry 0); [portable] is
    the [#else] fallback.  The [#else] loop of [cache_block] is embedded as
    the source text reads: it names the bucket [bucket] and its capacity
    [BUCKET_SIZE], although the function binds the bucket's fields to
    [count2] and [entries] and the constant is [size_bucket::BUCKET_SIZE];
    the loop is taken to range over these [entries].  As released that
    loop does not compile, so the properties of a cache whose buckets fill
    up are stated on [x86_64] only. *)
Inductive target := x86_64 | portable.

(** [entry.size <= size * MAX_SIZE_RATIO] with [MAX_SIZE_RATIO = 1.25]: for
    sizes below [2^51], as all sizes the cache accepts are, the conversion
    and the product are exact in [double] and the comparison is
    [4 * a <= 5 * b]. *)
Definition within_ratio (a b : Z) : bool := 4 * a <=? 5 * b.

Module large_block_cache.

Fixpoint bucket_loop (fuel : nat) (size threshold index : Z) : Z :=
  match fuel with
  | O => index
  | S f =>
      if (threshold <? size) && (index <? NUM_BUCKETS - 1)
      then bucket_loop f size (wrap64 (Z.shiftl threshold 1)) (index + 1)
      else index
  end.

Definition get_bucket_index (t : target) (size : Z) : Z :=
  match t with
  | x86_64 =>
      wrap64 ((63 - clzll (if size >? MIN_CACHE_BLOCK then size - 1
                           else MIN_CACHE_BLOCK)) - 11)
  | portable => bucket_loop 8 size MIN_CACHE_BLOCK 0
  end.

Definition put_bucket (c : large_block_cache_t) (idx : Z) (b : size_bucket)
                      (total : Z) : large_block_cache_t :=
  {| buckets := set_nth (buckets c) idx b; total_cached := total |}.

(** The scan of [get_cached_block] from entry [i] on, [n] entries left. *)
Fixpoint scan_entries (n : nat) (i : Z) (b : size_bucket) (size : Z)
  : option (Z * cache_entry) :=
  match n with
  | O => None
  | S n' =>
      let entry := nth_def empty_entry (entries b) i in
      if negb (ce_ptr entry =? 0) && (size <=? ce_size entry)
         && within_ratio (ce_size entry) size
      then Some (i, entry)
      else scan_entries n' (i + 1) b size
  end.

Definition get_cached_block (t : target) (c : large_block_cache_t) (size : Z)
  : large_block_cache_t * Z :=
  if (size <? MIN_CACHE_BLOCK) || (size >? MAX_CACHE_BLOCK) then (c, 0)
  else
    let bucket_idx := get_bucket_index t size in
    if bucket_idx >=? NUM_BUCKETS then (c, 0)
    else
      let bucket := nth_def empty_bucket (buckets c) bucket_idx in
      match scan_entries (Z.to_nat (sb_count bucket)) 0 bucket size with
      | Some (i, entry) =>
          let entry' := {| ce_ptr := 0; ce_size := ce_size entry;
                           last_use := last_use entry |} in
          let bucket' := {| sb_count := wrap64 (sb_count bucket - 1);
                            entries := set_nth (entries bucket) i entry' |} in
          (put_bucket c bucket_idx bucket'
             (wrap64 (total_cached c - ce_size entry)),
           ce_ptr entry)
      | None => (c, 0)
      end.

(** The [#else] loop looking for the smallest [last_use]. *)
Fixpoint oldest_scan (es : list cache_entry) (i oldest_time oldest_idx : Z) : Z :=
  match es with
  | [] => oldest_idx
  | e :: rest =>
      if last_use e <? oldest_time
      then oldest_scan rest (i + 1) (last_use e) i
      else oldest_scan rest (i + 1) oldest_time oldest_idx
  end.

Definition oldest_index (t : target) (b : size_bucket) : Z :=
  match t with
  | x86_64 => 0
  | portable => oldest_scan (take 4 (entries b)) 0 UINT64_MAX 0
  end.

Definition cache_block (t : target) (c : large_block_cache_t)
                       (ptr size now : Z) : large_block_cache_t * bool :=
  if (size <? MIN_CACHE_BLOCK) || (size >? MAX_CACHE_BLOCK) then (c, false)
  else
    let bucket_idx := get_bucket_index t size in
    if bucket_idx >=? NUM_BUCKETS then (c, false)
    else if wrap64 (total_cached c + size) >? MAX_CACHE_SIZE then (c, false)
    else
      let bucket := nth_def empty_bucket (buckets c) bucket_idx in
      let count := sb_count bucket in
      if (count <? BUCKET_SIZE)
         && (ce_ptr (nth_def empty_entry (entries bucket) count) =? 0)
      then
        let entry' := {| ce_ptr := ptr; ce_size := size; last_use := now |} in
        let bucket' := {| sb_count := wrap64 (count + 1);
                          entries := set_nth (entries bucket) count entry' |} in
        (put_bucket c bucket_idx bucket' (wrap64 (total_cached c + size)), true)
      else
        let oldest_idx := oldest_index t bucket in
        let oldest2 := nth_def empty_entry (entries bucket) oldest_idx in
        if negb (ce_ptr oldest2 =? 0) && within_ratio size (ce_size oldest2)
        then
          let entry' := {| ce_ptr := ptr; ce_size := size; last_use := now |} in
          let bucket' := {| sb_count := count;
                            entries := set_nth (entries bucket) oldest_idx entry' |} in
          (put_bucket c bucket_idx bucket'
             (wrap64 (wrap64 (total_cached c - ce_size oldest2) + size)),
           true)
        else (c, false).

(** One bucket of [clear]: the first [count] entries are emptied and
    the region behind each pointer found there ([ptr - sizeof(block_header)],
    rounded up to whole pages) is unmapped. *)
Fixpoint clear_entries (n : nat) (i : Z) (es : list cache_entry) (o : os_state)
  : list cache_entry * os_state :=
  match n with
  | O => (es, o)
  | S n' =>
      let e := nth_def empty_entry es i in
      let es' := set_nth es i {| ce_ptr := 0; ce_size := ce_size e;
                                 last_use := last_use e |} in
      let o' := if negb (ce_ptr e =? 0)
                then os_release (header_of (ce_ptr e)) o else o in
      clear_entries n' (i + 1) es' o'
  end.

Fixpoint clear_buckets (bs : list size_bucket) (o : os_state)
  : list size_bucket * os_state :=
  match bs with
  | [] => ([], o)
  | b :: rest =>
      let '(es, o1) := clear_entries (Z.to_nat (sb_count b)) 0 (entries b) o in
      let '(rest', o2) := clear_buckets rest o1 in
      ({| sb_count := 0; entries := es |} :: rest', o2)
  end.

Definition clear (c : large_block_cache_t) (o : os_state)
  : large_block_cache_t * os_state :=
  let '(bs, o') := clear_buckets (buckets c) o in
  ({| buckets := bs; total_cached := 0 |}, o').

End large_block_cache.

(** ** Pools *)

(** A [pool] (and a [tiny_pool]) is a page: the bitmap at offset 0 and the
    slot memory at offset [sizeof(bitmap)]. *)
Record pool := {
  pool_base : Z;
  pool_bitmap : list Z
}.

Record tiny_pool := {
  tp_base : Z;
  tp_bitmap : list Z
}.

Definition pool_memory (base : Z) : Z := base + sizeof_bitmap.

Module pool_ops.

Definition allocate (p : pool) (sc : size_class) : pool * Z :=
  let '(words, index) := bitmap.find_free_block (pool_bitmap p) (sc_size sc) in
  if negb (index =? SENTINEL)
  then ({| pool_base := pool_base p; pool_bitmap := words |},
        wrap64 (pool_memory (pool_base p) + index * sc_slot_size sc))
  else (p, 0).

(** [offset / sc.slot_size] divides by zero for the classes whose slot
    size was truncated to 0. *)
Definition deallocate (p : pool) (ptr : Z) (sc : size_class) : option pool :=
  let offset := wrap64 (ptr - pool_memory (pool_base p)) in
  if sc_slot_size sc =? 0 then None
  else
    words ← bitmap.mark_free (pool_bitmap p) (offset / sc_slot_size sc);
    Some {| pool_base := pool_base p; pool_bitmap := words |}.

Definition is_completely_free (p : pool) : bool :=
  bitmap.is_completely_free (pool_bitmap p).

End pool_ops.

Module tiny_pool_ops.

Definition slot_size_of (size_class : Z) : Z * Z :=
  let size := Z.shiftl (size_class + 1) 3 in
  (size, align_down (size + sizeof_block_header + ALIGNMENT - 1) ALIGNMENT).

Definition allocate_tiny (p : tiny_pool) (size_class : Z) : tiny_pool * Z :=
  let '(size, slot_size) := slot_size_of size_class in
  let max_blocks := (PG_SIZE - sizeof_bitmap) / slot_size in
  let '(words, index) := bitmap.find_free_block (tp_bitmap p) size in
  let p' := {| tp_base := tp_base p; tp_bitmap := words |} in
  if negb (index =? SENTINEL) && (index <? max_blocks) then
    let block := pool_memory (tp_base p) + index * slot_size in
    if block + slot_size <=? pool_memory (tp_base p) + (PG_SIZE - sizeof_bitmap)
    then (p', block)
    else (p', 0)
  else (p', 0).

Definition deallocate_tiny (p : tiny_pool) (ptr size_class : Z) : option tiny_pool :=
  let '(size, slot_size) := slot_size_of size_class in
  let offset := wrap64 (ptr - pool_memory (tp_base p)) in
  let index := offset / slot_size in
  if wrap64 (index * slot_size) <? PG_SIZE - sizeof_bitmap then
    words ← bitmap.mark_free (tp_bitmap p) index;
    Some {| tp_base := tp_base p; tp_bitmap := words |}
  else Some p.

End tiny_pool_ops.

(** ** Pool manager *)

Record pool_entry := {
  pe_p : option pool;
  used_blocks : Z
}.

Record pool_manager := {
  pools : list (list pool_entry);
  pool_count : list Z
}.

Definition null_pool_entry : pool_entry := {| pe_p := None; used_blocks := 0 |}.

Definition empty_pool_manager : pool_manager :=
  {| pools := replicate 32 (replicate 8 null_pool_entry);
     pool_count := replicate 32 0 |}.

(** ** Allocator state (the [thread_local] members of [Jallocator]) *)

Record state := {
  hdrs : gmap Z block_header;
  bytes : Z -> Z;
  thread_cache_ : thread_cache_t;
  pool_manager_ : pool_manager;
  large_block_cache_ : large_block_cache_t;
  tiny_pools_ : list (option tiny_pool);
  os : os_state
}.

Definition with_hdrs (m : gmap Z block_header) (s : state) : state :=
  {| hdrs := m; bytes := bytes s; thread_cache_ := thread_cache_ s;
     pool_manager_ := pool_manager_ s; large_block_cache_ := large_block_cache_ s;
     tiny_pools_ := tiny_pools_ s; os := os s |}.

Definition with_bytes (b : Z -> Z) (s : state) : state :=
  {| hdrs := hdrs s; bytes := b; thread_cache_ := thread_cache_ s;
     pool_manager_ := pool_manager_ s; large_block_cache_ := large_block_cache_ s;
     tiny_pools_ := tiny_pools_ s; os := os s |}.

Definition with_thread_cache (tc : thread_cache_t) (s : state) : state :=
  {| hdrs := hdrs s; bytes := bytes s; thread_cache_ := tc;
     pool_manager_ := pool_manager_ s; large_block_cache_ := large_block_cache_ s;
     tiny_pools_ := tiny_pools_ s; os := os s |}.

Definition with_pool_manager (pm : pool_manager) (s : state) : state :=
  {| hdrs := hdrs s; bytes := bytes s; thread_cache_ := thread_cache_ s;
     pool_manager_ := pm; large_block_cache_ := large_block_cache_ s;
     tiny_pools_ := tiny_pools_ s; os := os s |}.

Definition with_large_cache (c : large_block_cache_t) (s : state) : state :=
  {| hdrs := hdrs s; bytes := bytes s; thread_cache_ := thread_cache_ s;
     pool_manager_ := pool_manager_ s; large_block_cache_ := c;
     tiny_pools_ := tiny_pools_ s; os := os s |}.

Definition with_tiny_pools (tp : list (option tiny_pool)) (s : state) : state :=
  {| hdrs := hdrs s; bytes := bytes s; thread_cache_ := thread_cache_ s;
     pool_manager_ := pool_manager_ s; large_block_cache_ := large_block_cache_ s;
     tiny_pools_ := tp; os := os s |}.

Definition with_os (o : os_state) (s : state) : state :=
  {| hdrs := hdrs s; bytes := bytes s; thread_cache_ := thread_cache_ s;
     pool_manager_ := pool_manager_ s; large_block_cache_ := large_block_cache_ s;
     tiny_pools_ := tiny_pools_ s; os := o |}.

(** The state of a thread before its first call: empty caches, no pools,
    no header objects; the memory contents and the environment are given. *)
Definition initial_state (b : Z -> Z) (o : os_state) : state :=
  {| hdrs := ∅; bytes := b;
     thread_cache_ := {| caches := replicate 32 empty_size_class_cache |};
     pool_manager_ := empty_pool_manager;
     large_block_cache_ := empty_large_cache;
     tiny_pools_ := replicate 8 None;
     os := o |}.

(** Fresh zero-filled memory of [len] bytes at [base] (anonymous mapping, or
    the zero-initialised [memory] array of a new pool). *)
Definition zero_fill (base len : Z) (s : state) : state :=
  with_bytes (memset0 base len (bytes s))
    (with_hdrs (drop_headers base len (hdrs s)) s).

(** [madvise(addr, len, MADV_DONTNEED)]: on success the pages read as zero
    afterwards. *)
Definition madvise_dontneed (addr len : Z) (s : state) : bool * state :=
  let '(ok, o) := os_madvise (os s) in
  if ok then (true, zero_fill addr len (with_os o s))
  else (false, with_os o s).

(** *** [pool::return_memory] (scalar branch) *)

Definition MIN_RETURN_SIZE : Z := 64 * 1024.

(** First loop: the sum of the sizes of the free blocks on the physical
    chain that starts at [memory].  The walk does not end on a cyclic chain;
    a chain that ends visits at most one header more than there are header
    objects, which bounds the fuel. *)
Fixpoint free_space_from (fuel : nat) (m : gmap Z block_header)
                         (current acc : Z) : option Z :=
  if current =? 0 then Some acc
  else match fuel with
       | O => None
       | S f =>
           let h := hdr_at m current in
           free_space_from f m (next_physical h)
             (if header.is_free h then wrap64 (acc + header.size h) else acc)
       end.

(** Second loop: the whole pages inside each free coalesced block are
    advised away. *)
Fixpoint advise_from (fuel : nat) (s : state) (current : Z) : option state :=
  if current =? 0 then Some s
  else match fuel with
       | O => None
       | S f =>
           let h := hdr_at (hdrs s) current in
           let s1 :=
             if header.is_free h && header.is_coalesced h then
               let block_start := wrap64 (current + sizeof_block_header) in
               let page_start := align_down (wrap64 (block_start + PG_SIZE - 1)) PG_SIZE in
               let page_end := align_down (wrap64 (block_start + header.size h)) PG_SIZE in
               if page_end >? page_start
               then (madvise_dontneed page_start (page_end - page_start) s).2
               else s
             else s in
           advise_from f s1 (next_physical (hdr_at (hdrs s1) current))
       end.

(** [free_space >= MIN_RETURN_SIZE && free_space / PG_SIZE >= 1.0 - 0.2];
    the first conjunct implies the second. *)
Definition return_memory (base : Z) (s : state) : option state :=
  let fuel := S (size (hdrs s)) in
  free_space ← free_space_from fuel (hdrs s) (pool_memory base) 0;
  if (MIN_RETURN_SIZE <=? free_space) && (4 * PG_SIZE <=? 5 * free_space)
  then advise_from fuel s (pool_memory base)
  else Some s.

(** *** [pool_manager::allocate] and [pool_manager::deallocate] *)

Module pool_manager_ops.

Definition put_entries (pm : pool_manager) (size_class : Z)
                       (es : list pool_entry) (count : Z) : pool_manager :=
  {| pools := set_nth (pools pm) size_class es;
     pool_count := set_nth (pool_count pm) size_class count |}.

(** The loop over the existing pools of the class; the result pointer is
    null on a miss.  Dereferencing an entry without a pool is undefined. *)
Fixpoint try_pools (n : nat) (i : Z) (es : list pool_entry) (sc : size_class)
  : option (list pool_entry * Z) :=
  match n with
  | O => Some (es, 0)
  | S n' =>
      let e := nth_def null_pool_entry es i in
      p ← pe_p e;
      let '(p', ptr) := pool_ops.allocate p sc in
      if negb (ptr =? 0)
      then Some (set_nth es i {| pe_p := Some p';
                                 used_blocks := wrap64 (used_blocks e + 1) |}, ptr)
      else try_pools n' (i + 1) es sc
  end.

(** [new (std::align_val_t{PG_SIZE}) pool()] throws on failure inside a
    [noexcept] function, which ends the program. *)
Definition allocate (s : state) (size_class : Z) : option (state * Z) :=
  let sc := size_classes size_class in
  let pm := pool_manager_ s in
  let es := nth_def [] (pools pm) size_class in
  let count := nth_def 0 (pool_count pm) size_class in
  '(es', ptr) ← try_pools (Z.to_nat count) 0 es sc;
  if negb (ptr =? 0)
  then Some (with_pool_manager (put_entries pm size_class es' count) s, ptr)
  else if count <? MAX_POOLS then
    match os_acquire PG_SIZE (os s) with
    | (None, _) => None
    | (Some base, o) =>
        let s1 := zero_fill (pool_memory base) (PG_SIZE - sizeof_bitmap)
                    (with_os o s) in
        let '(np, ptr) :=
          pool_ops.allocate {| pool_base := base; pool_bitmap := fresh_bitmap |} sc in
        let es1 := set_nth es count {| pe_p := Some np; used_blocks := 1 |} in
        if negb (ptr =? 0)
        then Some (with_pool_manager
                     (put_entries pm size_class es1 (wrap64 (count + 1))) s1, ptr)
        else Some (with_os (os_release base (os s1))
                     (with_pool_manager (put_entries pm size_class es1 count) s1), 0)
    end
  else Some (s, 0).

(** Index of the first pool, among the first [n], whose page holds [ptr]. *)
Fixpoint find_owner (n : nat) (i : Z) (es : list pool_entry) (ptr : Z)
  : option Z :=
  match n with
  | O => None
  | S n' =>
      let pool_start :=
        match pe_p (nth_def null_pool_entry es i) with
        | Some p => pool_base p
        | None => 0
        end in
      if (pool_start <=? ptr) && (ptr <? pool_start + PG_SIZE) then Some i
      else find_owner n' (i + 1) es ptr
  end.

Definition deallocate (s : state) (ptr size_class : Z) : option state :=
  if align_down ptr PG_SIZE =? 0 then Some s
  else if size_class >=? SIZE_CLASSES then Some s
  else
    let sc := size_classes size_class in
    let pm := pool_manager_ s in
    let es := nth_def [] (pools pm) size_class in
    let count := nth_def 0 (pool_count pm) size_class in
    match find_owner (Z.to_nat count) 0 es ptr with
    | None => Some s
    | Some i =>
        let e := nth_def null_pool_entry es i in
        p ← pe_p e;
        p' ← pool_ops.deallocate p ptr sc;
        let used := wrap64 (used_blocks e - 1) in
        if used =? 0 then
          let count' := wrap64 (count - 1) in
          let es1 := set_nth es i {| pe_p := Some p'; used_blocks := used |} in
          let es2 := set_nth es1 i (nth_def null_pool_entry es1 count') in
          Some (with_os (os_release (pool_base p) (os s))
                  (with_pool_manager (put_entries pm size_class es2 count') s))
        else
          Some (with_pool_manager
                  (put_entries pm size_class
                     (set_nth es i {| pe_p := Some p'; used_blocks := used |})
                     count) s)
    end.

(** [~pool_manager]: every pool of every class is deleted. *)
Definition release_class (es : list pool_entry) (count : Z) (o : os_state)
  : os_state :=
  fold_left (fun o e => match pe_p e with
                        | Some p => os_release (pool_base p) o
                        | None => o
                        end)
            (take (Z.to_nat count) es) o.

Definition destroy (pm : pool_manager) (o : os_state) : os_state :=
  fold_left (fun o sc => release_class (nth_def [] (pools pm) sc)
                           (nth_def 0 (pool_count pm) sc) o)
            (map Z.of_nat (seq 0 32)) o.

End pool_manager_ops.

(** ** The coordinator: public entry points of [Jallocator] *)

Section Jallocator.

Variable t : target.

Definition user_ptr (block : Z) : Z := wrap64 (block + sizeof_block_header).

(** A hit in the thread cache as handled in [allocate]: the header's free
    flag is cleared and the cached pointer returned. *)
Definition take_cached (s : state) (tc : thread_cache_t) (cached : Z) : state :=
  with_hdrs (hdr_upd (header_of cached) (header.set_free false) (hdrs s))
    (with_thread_cache tc s).

(** [new (ptr) block_header()] followed by [encode].  The header goes to
    the address the pool computed, [memory + index * slot_size], which the
    source does not compare with the end of the pool's memory: for a slot
    size that, times the index, passes the 4032 bytes of [memory] the
    address is outside the pool and the write is out of bounds.  The
    write is recorded here wherever it lands. *)
Definition place_encoded (ptr size size_class : Z) (s : state) : state :=
  with_hdrs (<[ptr := header.encode size size_class false zero_header]> (hdrs s)) s.

(** [new (ptr) block_header()] followed by [init]. *)
Definition place_init (ptr size size_class : Z) (s : state) : state :=
  with_hdrs (<[ptr := header.init size size_class false 0 0 zero_header]> (hdrs s)) s.

(** The private [Jallocator::allocate_tiny].  No function of the file calls
    it; it differs from the tiny branch of [allocate] by two alignment tests
    and by the missing upper bound on the size. *)
Fixpoint allocate_tiny_rec (fuel : nat) (s : state) (size : Z) : option (state * Z) :=
  match fuel with
  | O => None
  | S fuel' =>
      if size =? 0 then Some (s, 0)
      else
        let size_class := uint8 (Z.shiftr (size - 1) 3) in
        if size_class >=? TINY_CLASSES then Some (s, 0)
        else
          match nth_def None (tiny_pools_ s) size_class with
          | Some tiny_pool =>
              let '(tp, ptr) := tiny_pool_ops.allocate_tiny tiny_pool size_class in
              let s1 := with_tiny_pools
                          (set_nth (tiny_pools_ s) size_class (Some tp)) s in
              if negb (ptr =? 0) then
                if negb (is_base_aligned ptr) then Some (s1, 0)
                else
                  let s2 := place_init ptr size size_class s1 in
                  if negb (is_base_aligned (user_ptr ptr)) then Some (s2, 0)
                  else Some (s2, user_ptr ptr)
              else Some (s1, 0)
          | None =>
              match os_acquire PG_SIZE (os s) with
              | (None, o) => Some (with_os o s, 0)
              | (Some base, o) =>
                  let s1 := zero_fill (pool_memory base) (PG_SIZE - sizeof_bitmap)
                              (with_os o s) in
                  let fresh := {| tp_base := base; tp_bitmap := fresh_bitmap |} in
                  allocate_tiny_rec fuel'
                    (with_tiny_pools
                       (set_nth (tiny_pools_ s1) size_class (Some fresh)) s1)
                    size
              end
          end
  end.

Definition allocate_tiny (s : state) (size : Z) : option (state * Z) :=
  allocate_tiny_rec 2 s size.

Definition allocate_small (s : state) (size : Z) : option (state * Z) :=
  let size_class := uint8 (Z.shiftr (size - 1) 3) in
  let '(tc, cached) := thread_cache.get (thread_cache_ s) size_class in
  if negb (cached =? 0) then
    if header.is_valid (hdr_at (hdrs s) (header_of cached))
    then Some (take_cached s tc cached, cached)
    else Some (with_thread_cache tc s, 0)
  else
    '(s1, ptr) ← pool_manager_ops.allocate (with_thread_cache tc s) size_class;
    if negb (ptr =? 0)
    then Some (place_encoded ptr size size_class s1, user_ptr ptr)
    else Some (s1, 0).

Definition allocate_medium (s : state) (size size_class : Z)
  : option (state * Z) :=
  let '(tc, cached) := thread_cache.get (thread_cache_ s) size_class in
  if negb (cached =? 0) then Some (take_cached s tc cached, cached)
  else
    '(s1, ptr) ← pool_manager_ops.allocate (with_thread_cache tc s) size_class;
    if negb (ptr =? 0)
    then Some (place_encoded ptr size size_class s1, user_ptr ptr)
    else Some (s1, 0).

(** [MAP_MEMORY(len)] followed by the construction of the class-255
    header at the start of the region.  [mmap] reports a refusal as
    [MAP_FAILED], the all-ones pointer: the null tests of [allocate_large]
    let it through and the header is constructed at an address that is not
    mapped. *)
Definition map_large (s : state) (size len : Z) : option (state * Z) :=
  match os_acquire len (os s) with
  | (None, o) => None
  | (Some ptr, o) =>
      if ptr =? 0 then Some (with_os o s, 0)
      else
        let s1 := zero_fill ptr len (with_os o s) in
        let hdr := header.set_memory_mapped true
                     (header.init size 255 false 0 0 zero_header) in
        Some (with_hdrs (<[ptr := hdr]> (hdrs s1)) s1, user_ptr ptr)
  end.

Definition allocate_large (s : state) (size : Z) : option (state * Z) :=
  let '(c, cached) :=
    large_block_cache.get_cached_block t (large_block_cache_ s) size in
  if negb (cached =? 0) then
    Some (with_hdrs (hdr_upd (header_of cached) (header.set_free false) (hdrs s))
            (with_large_cache c s), cached)
  else
    let header_size :=
      align_down (sizeof_block_header + CACHE_LINE_SIZE - 1) CACHE_LINE_SIZE in
    if size <=? PG_SIZE - header_size then map_large s size PG_SIZE
    else
      let total_pages := Z.shiftr (wrap64 (size + header_size + PG_SIZE - 1)) 12 in
      let allocation_size := wrap64 (Z.shiftl total_pages 12) in
      map_large s size allocation_size.

(** [allocate] calls itself once, after it has created the tiny pool of
    the class; [fuel] bounds that recursion. *)
Fixpoint allocate_rec (fuel : nat) (s : state) (size : Z) : option (state * Z) :=
  match fuel with
  | O => None
  | S fuel' =>
      if (size =? 0) || (size >? 2 ^ 47) then Some (s, 0)
      else if size <=? TINY_LARGE_THRESHOLD then
        let size_class := uint8 (Z.shiftr (size - 1) 3) in
        if size_class >=? TINY_CLASSES then Some (s, 0)
        else
          match nth_def None (tiny_pools_ s) size_class with
          | Some tiny_pool =>
              let '(tp, ptr) := tiny_pool_ops.allocate_tiny tiny_pool size_class in
              let s1 := with_tiny_pools
                          (set_nth (tiny_pools_ s) size_class (Some tp)) s in
              if negb (ptr =? 0)
              then Some (place_init ptr size size_class s1, user_ptr ptr)
              else Some (s1, 0)
          | None =>
              match os_acquire PG_SIZE (os s) with
              | (None, o) => Some (with_os o s, 0)
              | (Some base, o) =>
                  let s1 := zero_fill (pool_memory base) (PG_SIZE - sizeof_bitmap)
                              (with_os o s) in
                  let fresh := {| tp_base := base; tp_bitmap := fresh_bitmap |} in
                  allocate_rec fuel'
                    (with_tiny_pools
                       (set_nth (tiny_pools_ s1) size_class (Some fresh)) s1)
                    size
              end
          end
      else if size >=? PG_SIZE then allocate_large s size
      else if size <=? SMALL_LARGE_THRESHOLD then
        let size_class := uint8 (Z.shiftr (size - 1) 3) in
        let '(tc, cached) := thread_cache.get (thread_cache_ s) size_class in
        if negb (cached =? 0) then Some (take_cached s tc cached, cached)
        else allocate_small (with_thread_cache tc s) size
      else
        let size_class := uint8 (31 - clz (size - 1)) in
        allocate_medium s size size_class
  end.

Definition allocate (s : state) (size : Z) : option (state * Z) :=
  allocate_rec 2 s size.

(** In the class-255 branch a block that the cache refuses is unmapped when
    its header carries the memory-mapped flag and handed to [free]
    otherwise; no block of this allocator comes from [malloc]. *)
Definition deallocate (s : state) (ptr : Z) : option state :=
  if ptr =? 0 then Some s
  else if negb (header_readable (hdrs s) ptr) then None
  else if negb (is_aligned (hdrs s) ptr) then Some s
  else
    let hd := header_of ptr in
    let h := hdr_at (hdrs s) hd in
    if negb (header.is_valid h) then Some s
    else if align_down ptr PG_SIZE =? 0 then Some s
    else
      let size_class := header.size_class h in
      if (size_class >=? SIZE_CLASSES) && negb (size_class =? 255) then Some s
      else if size_class <? TINY_CLASSES then
        if header.is_free h then Some s
        else
          match nth_def None (tiny_pools_ s) size_class with
          | Some tiny_pool =>
              let s1 := with_hdrs (hdr_upd hd (header.set_free true) (hdrs s)) s in
              tp ← tiny_pool_ops.deallocate_tiny tiny_pool hd size_class;
              Some (with_tiny_pools
                      (set_nth (tiny_pools_ s1) size_class (Some tp)) s1)
          | None => Some s
          end
      else if size_class =? 255 then
        let '(c, accepted) :=
          large_block_cache.cache_block t (large_block_cache_ s) ptr
            (header.size h) (os_clock (os s)) in
        if accepted
        then Some (with_os (get_timestamp (os s)).2 (with_large_cache c s))
        else if header.is_memory_mapped h
        then Some (with_os (os_release hd (os s)) s)
        else None
      else if header.is_free h then Some s
      else
        let '(tc, cached) := thread_cache.put (thread_cache_ s) ptr size_class in
        if cached
        then Some (with_hdrs (hdr_upd hd (header.set_free true) (hdrs s))
                     (with_thread_cache tc s))
        else
          let m1 := hdr_upd hd (header.set_free true) (hdrs s) in
          let '(m2, coalesced) := try_coalesce m1 hd in
          let s2 := with_hdrs m2 s in
          s3 ← (if coalesced then return_memory (align_down hd PG_SIZE) s2
                else Some s2);
          pool_manager_ops.deallocate s3 hd size_class.

(** The copy loops of [reallocate] (scalar build). *)
Definition copy_block (new_ptr ptr copy_size : Z) (b : Z -> Z) : Z -> Z :=
  if copy_size <=? 32 then memcpy new_ptr ptr copy_size b
  else if copy_size >=? 4096
  then memcpy new_ptr ptr (8 * ((copy_size + 7) / 8)) b
  else memcpy new_ptr ptr copy_size b.

(** [mremap(block, old_total, new_total, MREMAP_MAYMOVE)] ([__linux__]):
    on success the region, header included, lives at the new address. *)
Definition remap_block (s : state) (ptr old_size new_size : Z)
  : state * option Z :=
  let block := header_of ptr in
  match os_acquire (wrap64 (new_size + sizeof_block_header)) (os s) with
  | (None, o) => (with_os o s, None)
  | (Some new_block, o) =>
      let moved := hdr_at (hdrs s) block in
      let s1 := with_os (os_release block o) s in
      let s2 := with_bytes
                  (memcpy (user_ptr new_block) ptr (Z.min old_size new_size) (bytes s1))
                  s1 in
      let hdr := header.set_memory_mapped true
                   (header.encode new_size 255 false moved) in
      (with_hdrs (<[new_block := hdr]> (hdrs s2)) s2, Some (user_ptr new_block))
  end.

Definition reallocate (s : state) (ptr new_size : Z) : option (state * Z) :=
  if ptr =? 0 then allocate s new_size
  else if negb (header_readable (hdrs s) ptr) then None
  else if negb (is_aligned (hdrs s) ptr) then Some (s, 0)
  else if new_size =? 0 then s' ← deallocate s ptr; Some (s', 0)
  else
    let hd := header_of ptr in
    let h := hdr_at (hdrs s) hd in
    if hd =? 0 then Some (s, 0)
    else if negb (header.is_valid h) then Some (s, 0)
    else if header.size h >? 2 ^ 47 then Some (s, 0)
    else
      let old_size := header.size h in
      let old_class := header.size_class h in
      if (old_class <? TINY_CLASSES) && (new_size <=? Z.shiftl (old_class + 1) 3)
      then Some (s, ptr)
      else if negb (old_class <? TINY_CLASSES) && (old_class <? SIZE_CLASSES)
              && (new_size <=? sc_size (size_classes old_class))
      then Some (s, ptr)
      else
        let '(s0, remapped) :=
          if header.is_memory_mapped h
          then remap_block s ptr old_size new_size else (s, None) in
        match remapped with
        | Some new_ptr => Some (s0, new_ptr)
        | None =>
            '(s1, new_ptr) ← allocate s0 new_size;
            if new_ptr =? 0 then Some (s1, 0)
            else
              let copy_size := if old_size <? new_size then old_size else new_size in
              let s2 := with_bytes (copy_block new_ptr ptr copy_size (bytes s1)) s1 in
              s3 ← deallocate s2 ptr;
              Some (s3, new_ptr)
        end.

(** The generic zeroing loop at the end of [callocate]. *)
Definition zero_scalar (ptr total_size : Z) (b : Z -> Z) : Z -> Z :=
  let align := Z.land ptr 7 in
  let b1 := if negb (align =? 0) then memset0 ptr align b else b in
  let dst := if negb (align =? 0) then ptr + align else ptr in
  let total := if negb (align =? 0) then wrap64 (total_size - align) else total_size in
  let blocks := Z.shiftr total 3 in
  let b2 := memset0 dst (8 * blocks) b1 in
  let remain := Z.land total 7 in
  if negb (remain =? 0) then memset0 (dst + Z.shiftl blocks 3) remain b2 else b2.

Definition callocate (s : state) (num size : Z) : option (state * Z) :=
  if (num =? 0) || (size =? 0) then Some (s, 0)
  else if num >? SIZE_MAX / size then Some (s, 0)
  else
    let total_size := num * size in
    '(s1, ptr) ← allocate s total_size;
    if ptr =? 0 then Some (s1, 0)
    else if total_size <=? 32
    then Some (with_bytes (memset0 ptr total_size (bytes s1)) s1, ptr)
    else
      let finish s' :=
        Some (with_bytes (zero_scalar ptr total_size (bytes s')) s', ptr) in
      if total_size >=? 4096 then
        let page_aligned := align_down (wrap64 (ptr + 4095)) 4096 in
        let prefix := wrap64 (page_aligned - ptr) in
        let suffix := Z.land (wrap64 (total_size - prefix)) 4095 in
        let middle := wrap64 (wrap64 (total_size - prefix) - suffix) in
        let s2 := if negb (prefix =? 0)
                  then with_bytes (memset0 ptr prefix (bytes s1)) s1 else s1 in
        if negb (middle =? 0) then
          let '(ok, s3) := madvise_dontneed page_aligned middle s2 in
          if ok then
            Some (if negb (suffix =? 0)
                  then with_bytes (memset0 (page_aligned + middle) suffix (bytes s3)) s3
                  else s3, ptr)
          else finish s3
        else finish s2
      else finish s1.

Definition release_tiny_pools (tps : list (option tiny_pool)) (o : os_state)
  : os_state :=
  fold_left (fun o tp => match tp with
                         | Some p => os_release (tp_base p) o
                         | None => o
                         end) tps o.

Definition cleanup (s : state) : state :=
  let '(c, o1) := large_block_cache.clear (large_block_cache_ s) (os s) in
  let tc := thread_cache.clear (thread_cache_ s) in
  let o2 := release_tiny_pools (tiny_pools_ s) o1 in
  with_tiny_pools (map (fun _ => None) (tiny_pools_ s))
    (with_os o2 (with_thread_cache tc (with_large_cache c s))).

End Jallocator.

(** * Properties *)

(** ** Definitions used in the statements *)

(** *** Example states *)

(** An environment that hands out four well-separated page-aligned regions
    and lets the next two [madvise] calls succeed. *)
Definition example_os : os_state :=
  {| os_answers := [Some 0x1000000; Some 0x2000000; Some 0x3000000; Some 0x4000000];
     os_advice := [true; true];
     os_live := [];
     os_clock := 1 |}.

(** A thread that has not allocated yet; memory holds the byte [0xAA]. *)
Definition example_state : state := initial_state (fun _ => 0xAA) example_os.

(** A thread whose memory holds, just below the page base [8192], a header
    with the magic number, class 255 and size 4096, as [init] writes it. *)
Definition forged_header : block_header :=
  header.init 4096 255 false 0 0 zero_header.

Definition forged_state : state :=
  with_hdrs {[ 8128 := forged_header ]} example_state.

(** A thread whose memory holds, at address 64 of page 0, a header of
    class 255 and size 100 as [init] writes it, so that the user pointer 128
    passes [is_aligned] and [is_valid]; and a thread that holds the same
    header one page higher, below the user pointer 4224. *)
Definition low_page_state : state :=
  with_hdrs {[ 64 := header.init 100 255 false 0 0 zero_header ]} example_state.

Definition second_page_state : state :=
  with_hdrs {[ 4160 := header.init 100 255 false 0 0 zero_header ]} example_state.

(** The state after [allocate(48)], respectively [allocate(100)], on the
    fresh thread. *)
Definition after_allocate_48 : state :=
  match allocate x86_64 example_state 48 with
  | Some (s1, _) => s1
  | None => example_state
  end.

Definition after_allocate_100 : state :=
  match allocate x86_64 example_state 100 with
  | Some (s1, _) => s1
  | None => example_state
  end.

(** A physical chain of two blocks: a freed medium block (class 9, 600
    bytes) at [0x5000] followed by a free tiny block (class 3, 32 bytes) at
    [0x5400]. *)
Definition chain_medium : block_header :=
  set_next_physical 0x5400 (header.init 600 9 true 0 0 zero_header).

Definition chain_tiny : block_header :=
  set_prev_physical 0x5000 (header.init 32 3 true 0 0 zero_header).

Definition example_chain : gmap Z block_header :=
  {[ 0x5000 := chain_medium; 0x5400 := chain_tiny ]}.

(** *** Observations *)

Definition cached_bytes (s : state) : Z := total_cached (large_block_cache_ s).

Definition bucket_counts (s : state) : list Z :=
  map sb_count (buckets (large_block_cache_ s)).

(** What one call of [allocate] reports to the caller: the pointer, whether
    it is cache-line aligned, and what [is_aligned] says about it in the
    state the call leaves. *)
Definition allocate_report (t : target) (s : state) (n : Z)
  : option (Z * bool * bool) :=
  '(s1, p) ← allocate t s n;
  Some (p, is_base_aligned p, is_aligned (hdrs s1) p).

(** Two calls of [allocate(n)] in a row, nothing in between. *)
Definition allocate_twice (t : target) (s : state) (n : Z) : option (Z * Z) :=
  '(s1, p) ← allocate t s n;
  '(s2, q) ← allocate t s1 n;
  Some (p, q).

(** [p = allocate(n); deallocate(p); q = allocate(n)]: the two pointers and
    whether [deallocate] left the large-block cache as it was. *)
Definition large_round_trip (t : target) (s : state) (n : Z)
  : option (Z * bool * Z) :=
  '(s1, p) ← allocate t s n;
  s2 ← deallocate t s1 p;
  '(s3, q) ← allocate t s2 n;
  Some (p,
        bool_decide (bucket_counts s2 = bucket_counts s1) && (cached_bytes s2 =? 0),
        q).

Definition deallocate_twice (t : target) (s : state) (p : Z) : option state :=
  s1 ← deallocate t s p; deallocate t s1 p.

Definition allocate_then_reallocate (t : target) (s : state) (n n' : Z)
  : option (Z * Z) :=
  '(s1, p) ← allocate t s n;
  '(s2, q) ← reallocate t s1 p n';
  Some (p, q).

(** The bound of the in-place fast path of [reallocate] for a block of
    class [c]: [(c + 1) << 3] for a tiny class, the table's [size] for the
    other pool classes, and no fast path for class 255. *)
Definition class_capacity (c : Z) : Z :=
  if c <? TINY_CLASSES then Z.shiftl (c + 1) 3
  else if c <? SIZE_CLASSES then sc_size (size_classes c)
  else 0.

(** The pools the pool manager holds for a class. *)
Definition class_pool_bases (s : state) (size_class : Z) : list Z :=
  omap (fun e => pool_base <$> pe_p e)
       (take (Z.to_nat (nth_def 0 (pool_count (pool_manager_ s)) size_class))
             (nth_def [] (pools (pool_manager_ s)) size_class)).

(** No region handed out by the environment starts at [base] any more. *)
Definition released (base : Z) (o : os_state) : Prop :=
  Forall (fun r : Z * Z => r.1 ≠ base) (os_live o).

(** A neighbour on the physical chain exists and carries the free flag. *)
Definition neighbour_free (m : gmap Z block_header) (a : Z) : bool :=
  negb (a =? 0) && header.is_free (hdr_at m a).

(** The blocks around [this] on the physical chain are header objects and
    are distinct: the links of [this] and the forward link of its next
    neighbour do not lead back to [this], and the previous neighbour is
    neither the next one nor the one after it. *)
Definition proper_chain (m : gmap Z block_header) (this : Z) : Prop :=
  let h := hdr_at m this in
  let nxt := next_physical h in
  let prv := prev_physical h in
  let nn := next_physical (hdr_at m nxt) in
  is_Some (m !! this) /\ this <> 0 /\
  (nxt <> 0 -> is_Some (m !! nxt) /\ nxt <> this /\ nn <> this /\
               (nn <> 0 -> is_Some (m !! nn))) /\
  (prv <> 0 -> is_Some (m !! prv) /\ prv <> this /\ prv <> nxt /\
               (nxt <> 0 -> prv <> nn)).

(** The block at [this] absorbed its next physical neighbour: the call
    reported a merge, the size grew by the neighbour's size plus one header,
    and the forward link now skips the neighbour. *)
Definition merged_with_next (m : gmap Z block_header) (this : Z) : bool :=
  let '(m', r) := try_coalesce m this in
  r && (header.size (hdr_at m' this) =?
          header.size (hdr_at m this)
          + header.size (hdr_at m (next_physical (hdr_at m this)))
          + sizeof_block_header)
    && (next_physical (hdr_at m' this) =?
          next_physical (hdr_at m (next_physical (hdr_at m this)))).

(** A tiny pool sits on a page inside the address space. *)
Definition tiny_pool_placed (tp : tiny_pool) : Prop :=
  0 <= tp_base tp /\ tp_base tp + PG_SIZE <= 2 ^ 64 /\ tp_base tp mod PG_SIZE = 0.

Definition thread_cache_empty (s : state) : Prop :=
  forall c, scc_count (nth_def empty_size_class_cache (caches (thread_cache_ s)) c) = 0.

(** *** Runs of the large-block cache *)

(** Calls on the large-block cache, as a client of the component issues
    them: [cache_block(ptr, size)] at a time stamp, [get_cached_block(size)]
    and [clear()]. *)
Inductive cache_call :=
  | CacheBlock (ptr size now : Z)
  | GetCachedBlock (size : Z)
  | Clear.

Definition cache_step (t : target) (c : large_block_cache_t) (call : cache_call)
  : large_block_cache_t :=
  match call with
  | CacheBlock ptr size now => (large_block_cache.cache_block t c ptr size now).1
  | GetCachedBlock size => (large_block_cache.get_cached_block t c size).1
  | Clear => (large_block_cache.clear c example_os).1
  end.

Definition cache_run (t : target) (calls : list cache_call) : large_block_cache_t :=
  fold_left (cache_step t) calls empty_large_cache.

Definition MiB : Z := 1024 * 1024.
Definition KiB : Z := 1024.

(** Four blocks of 300 KiB enter one bucket, two are taken back, the cache
    is cleared, and three more blocks of 300 KiB are offered: two enter
    the emptied entries and the third replaces the first of them. *)
Definition limit_scenario : list cache_call :=
  [ CacheBlock 0x10000040 (300 * KiB) 1;
    CacheBlock 0x20000040 (300 * KiB) 2;
    CacheBlock 0x30000040 (300 * KiB) 3;
    CacheBlock 0x40000040 (300 * KiB) 4;
    GetCachedBlock (300 * KiB);
    GetCachedBlock (300 * KiB);
    Clear;
    CacheBlock 0x50000040 (300 * KiB) 5;
    CacheBlock 0x60000040 (300 * KiB) 6;
    CacheBlock 0x70000040 (300 * KiB) 7 ].

(** *** The accounting invariant of the large-block cache *)

Definition sumZ (l : list Z) : Z := foldr Z.add 0 l.

(** The bytes a bucket accounts for: the sizes of the entries that hold a
    pointer among the first [count]. *)
Definition live_size (e : cache_entry) : Z :=
  if ce_ptr e =? 0 then 0 else ce_size e.

Definition counted (b : size_bucket) : Z :=
  sumZ (live_size <$> take (Z.to_nat (sb_count b)) (entries b)).

Definition bucket_ok (b : size_bucket) : Prop :=
  length (entries b) = 4%nat /\
  0 <= sb_count b <= 4 /\
  Forall (fun e => 0 <= ce_size e) (entries b) /\
  (sb_count b = 0 -> ce_ptr (nth_def empty_entry (entries b) 0) = 0).

Definition cache_ok (c : large_block_cache_t) : Prop :=
  length (buckets c) = 8%nat /\
  Forall bucket_ok (buckets c) /\
  sumZ (counted <$> buckets c) <= total_cached c <= MAX_CACHE_SIZE.

(** The entry a hit of [get_cached_block] leaves behind. *)
Definition taken (e : cache_entry) : cache_entry :=
  {| ce_ptr := 0; ce_size := ce_size e; last_use := last_use e |}.

(** *** The effect of [clear] on a bucket, and threads with cached blocks *)





(** *** Shapes and examples for the component properties *)

(** A bitmap as the constructor and the bit operations leave it: eight
    64-bit words. *)
Definition bitmap_ok (words : list Z) : Prop :=
  length words = 8%nat /\ Forall (fun w => 0 <= w < 2 ^ 64) words.

(** A thread cache with its 32 per-class arrays of 32 entries. *)
Definition thread_cache_ok (tc : thread_cache_t) : Prop :=
  length (caches tc) = 32%nat /\
  Forall (fun c => length (scc_blocks c) = 32%nat /\ 0 <= scc_count c) (caches tc).

(** A physical chain of three medium blocks: a freed block of 600 bytes at
    [0x5000], a free block of 200 bytes at [0x5400] and a block of 300 bytes
    at [0x5800]. *)
Definition example_chain3 : gmap Z block_header :=
  {[ 0x5000 := header.init 600 9 true 0 0x5400 zero_header;
     0x5400 := header.init 200 9 true 0x5000 0x5800 zero_header;
     0x5800 := header.init 300 9 false 0x5400 0 zero_header ]}.

(** A bucket that holds nothing: no entry counted and the first slot free. *)
Definition bucket_vacant (b : size_bucket) : Prop :=
  sb_count b = 0 /\ length (entries b) = 4%nat /\
  ce_ptr (nth_def empty_entry (entries b) 0) = 0.

(** The state after [allocate(8 MiB)] on the fresh thread. *)
Definition after_allocate_large : state :=
  match allocate x86_64 example_state (8 * 1024 * 1024) with
  | Some (s1, _) => s1
  | None => example_state
  end.

(** The state after [reallocate(p, 56)] on the block of [allocate(48)]. *)
Definition after_reallocate_48_56 : state :=
  match reallocate x86_64 after_allocate_48 0x1000080 56 with
  | Some (s', _) => s'
  | None => after_allocate_48
  end.

(** A pool manager that holds two pools of class 9 and one of class 12. *)
Definition example_pool_manager : pool_manager :=
  pool_manager_ops.put_entries
    (pool_manager_ops.put_entries empty_pool_manager 9
       ([ {| pe_p := Some {| pool_base := 0x1000000; pool_bitmap := fresh_bitmap |};
             used_blocks := 1 |};
          {| pe_p := Some {| pool_base := 0x2000000; pool_bitmap := fresh_bitmap |};
             used_blocks := 1 |} ] ++ replicate 6 null_pool_entry) 2)
    12
    ([ {| pe_p := Some {| pool_base := 0x3000000; pool_bitmap := fresh_bitmap |};
          used_blocks := 1 |} ] ++ replicate 7 null_pool_entry) 1.

(** A thread that holds these three pools. *)
Definition example_pools_state : state :=
  with_os {| os_answers := []; os_advice := [];
             os_live := [(0x1000000, 4096); (0x2000000, 4096); (0x3000000, 4096)];
             os_clock := 1 |}
    (with_pool_manager example_pool_manager example_state).

(** The pages the environment will hand out lie inside the address space
    and are page-aligned. *)
Definition os_placed (o : os_state) : Prop :=
  forall base rest, os_answers o = Some base :: rest ->
    0 <= base /\ base + PG_SIZE <= 2 ^ 64 /\ base mod PG_SIZE = 0.

(** A call of one of the two basic entry points. *)
Inductive call : Type :=
  | call_allocate (size : Z)
  | call_deallocate (ptr : Z).

(** A run of calls; the pointers that [allocate] returns are dropped. *)
Fixpoint run_calls (t : target) (s : state) (calls : list call) : option state :=
  match calls with
  | [] => Some s
  | call_allocate size :: rest =>
      '(s', _) ← allocate t s size; run_calls t s' rest
  | call_deallocate ptr :: rest =>
      s' ← deallocate t s ptr; run_calls t s' rest
  end.

(** Slot [k] of a bitmap is taken: its bit is clear. *)
Definition slot_taken (words : list Z) (k : Z) : Prop :=
  forall (i : nat) w b,
    words !! i = Some w -> 0 <= b < 64 -> k = Z.of_nat i * 64 + b ->
    Z.testbit w b = false.

(** The tiny pool of class [c] lies at [base] and its slot [k] is taken. *)
Definition holds_slot (s : state) (c base k : Z) : Prop :=
  length (tiny_pools_ s) = 8%nat /\
  exists tp, nth_def None (tiny_pools_ s) c = Some tp /\ tp_base tp = base /\
             bitmap_ok (tp_bitmap tp) /\ slot_taken (tp_bitmap tp) k.

Definition example_calls : list call :=
  [call_deallocate 0x1000080; call_allocate 100; call_allocate 8].

Definition after_example_calls : state :=
  match run_calls x86_64 after_allocate_48 example_calls with
  | Some s => s
  | None => after_allocate_48
  end.

Definition after_allocate_48_again : state :=
  match allocate x86_64 after_example_calls 48 with
  | Some (s1, _) => s1
  | None => after_example_calls
  end.

(** ** Arithmetic and bit-level facts *)

Lemma wrap64_small (z : Z) : 0 <= z < 2 ^ 64 -> wrap64 z = z.
Proof. intros H. unfold wrap64. apply Z.mod_small. exact H. Qed.

Lemma wrap64_range (z : Z) : 0 <= wrap64 z < 2 ^ 64.
Proof. unfold wrap64. apply Z.mod_pos_bound. lia. Qed.

Lemma land_ones_mod (x : Z) (n : Z) :
  0 <= n -> Z.land x (2 ^ n - 1) = x mod 2 ^ n.
Proof.
  intros Hn. replace (2 ^ n - 1) with (Z.ones n).
  - apply Z.land_ones; lia.
  - rewrite Z.ones_equiv. lia.
Qed.

Lemma land_7 (x : Z) : Z.land x 7 = x mod 8.
Proof. apply (land_ones_mod x 3). lia. Qed.

Lemma land_4095 (x : Z) : Z.land x 4095 = x mod 4096.
Proof. apply (land_ones_mod x 12). lia. Qed.

Lemma align_down_spec (x : Z) (n : Z) :
  0 <= n -> align_down x (2 ^ n) = x - x mod 2 ^ n.
Proof.
  intros Hn. unfold align_down.
  replace (2 ^ n - 1) with (Z.ones n) by (rewrite Z.ones_equiv; lia).
  rewrite <- Z.ldiff_land.
  rewrite Z.ldiff_ones_r by lia.
  rewrite Z.shiftr_div_pow2, Z.shiftl_mul_pow2 by lia.
  pose proof (Z.div_mod x (2 ^ n)) as H.
  assert (0 < 2 ^ n) by (apply Z.pow_pos_nonneg; lia).
  lia.
Qed.

Lemma align_down_page (x : Z) : align_down x PG_SIZE = x - x mod 4096.
Proof. apply (align_down_spec x 12). lia. Qed.

(** [(ptr & ~(PG_SIZE-1)) == 0] holds exactly for the addresses of page 0. *)
Lemma align_down_page_zero (x : Z) :
  align_down x PG_SIZE = 0 <-> 0 <= x < 4096.
Proof.
  rewrite align_down_page. split.
  - intros H. pose proof (Z.mod_pos_bound x 4096). lia.
  - intros H. rewrite Z.mod_small; lia.
Qed.

Lemma is_base_aligned_mod (p : Z) : is_base_aligned p = (p mod 64 =? 0).
Proof.
  unfold is_base_aligned, ALIGNMENT, CACHE_LINE_SIZE.
  change (64 - 1) with (2 ^ 6 - 1). rewrite land_ones_mod by lia. reflexivity.
Qed.

(** *** The packed word of a header *)

(** A header accepted by [is_valid] carries the nibble [0xA] in bits 60..63
    of [data]; bit 63 of that nibble is the free flag and bit 62, the
    memory-mapped flag, is clear. *)
Lemma valid_nibble (h : block_header) :
  header.is_valid h = true -> Z.land (data h) MAGIC_MASK = MAGIC_VALUE.
Proof.
  unfold header.is_valid. intros H.
  destruct (Z.eqb_spec (Z.land (data h) MAGIC_MASK) MAGIC_VALUE) as [E|E]; [exact E |].
  rewrite andb_false_r in H. discriminate.
Qed.

Lemma valid_is_free (h : block_header) :
  header.is_valid h = true -> header.is_free h = true.
Proof.
  intros H. apply valid_nibble in H. unfold header.is_free.
  apply negb_true_iff, Z.eqb_neq. intros E.
  apply (f_equal (fun z => Z.testbit z 63)) in H, E.
  rewrite Z.land_spec in H, E.
  change (Z.testbit MAGIC_MASK 63) with true in H.
  change (Z.testbit MAGIC_VALUE 63) with true in H.
  change (Z.testbit (Z.shiftl 1 63) 63) with true in E.
  change (Z.testbit 0 63) with false in E.
  rewrite andb_true_r in H, E. congruence.
Qed.

Lemma valid_not_memory_mapped (h : block_header) :
  header.is_valid h = true -> header.is_memory_mapped h = false.
Proof.
  intros H. apply valid_nibble in H. unfold header.is_memory_mapped.
  apply negb_false_iff, Z.eqb_eq. apply Z.bits_inj'. intros n Hn.
  rewrite Z.land_spec, Z.bits_0.
  destruct (Z.eq_dec n 62) as [-> | Hne].
  - apply (f_equal (fun z => Z.testbit z 62)) in H.
    rewrite Z.land_spec in H.
    change (Z.testbit MAGIC_MASK 62) with true in H.
    change (Z.testbit MAGIC_VALUE 62) with false in H.
    rewrite andb_true_r in H. rewrite H. reflexivity.
  - unfold MMAP_FLAG. rewrite Z.shiftl_spec by lia.
    replace (Z.testbit 1 (n - 62)) with false; [apply andb_false_r |].
    symmetry. destruct (Z.ltb_spec (n - 62) 0).
    + apply Z.testbit_neg_r. lia.
    + change 1 with (2 ^ 0). apply Z.pow2_bits_false. lia.
Qed.

Lemma land_size_mask (x : Z) : Z.land x SIZE_MASK = x mod 2 ^ 48.
Proof. change SIZE_MASK with (2 ^ 48 - 1). apply land_ones_mod. lia. Qed.

Lemma shiftl_48_low (x : Z) : Z.land (Z.shiftl x 48) SIZE_MASK = 0.
Proof.
  rewrite land_size_mask, Z.shiftl_mul_pow2 by lia. apply Z.mod_mul. lia.
Qed.

Lemma size_encode (sz c : Z) (f : bool) (h : block_header) :
  header.size (header.encode sz c f h) = sz mod 2 ^ 48.
Proof.
  unfold header.size, header.encode, set_data; cbn [data].
  rewrite !Z.land_lor_distr_l.
  rewrite shiftl_48_low.
  replace (Z.land (Z.shiftl (Z.b2z f) 63) SIZE_MASK) with 0 by (destruct f; reflexivity).
  change (Z.land MAGIC_VALUE SIZE_MASK) with 0.
  rewrite !Z.lor_0_r. rewrite <- Z.land_assoc, Z.land_diag. apply land_size_mask.
Qed.

Lemma size_class_encode (sz c : Z) (f : bool) (h : block_header) :
  header.size_class (header.encode sz c f h) = uint8 c.
Proof.
  unfold header.size_class, header.encode, set_data; cbn [data].
  rewrite !Z.land_lor_distr_l.
  rewrite <- Z.land_assoc. change (Z.land SIZE_MASK CLASS_MASK) with 0.
  rewrite Z.land_0_r, Z.lor_0_l.
  replace (Z.land (Z.shiftl (Z.b2z f) 63) CLASS_MASK) with 0 by (destruct f; reflexivity).
  change (Z.land MAGIC_VALUE CLASS_MASK) with 0. rewrite !Z.lor_0_r.
  change CLASS_MASK with (Z.shiftl 255 48).
  rewrite <- Z.shiftl_land, Z.shiftr_shiftl_l by lia.
  change (48 - 48) with 0. rewrite Z.shiftl_0_r.
  change 255 with (2 ^ 8 - 1). rewrite land_ones_mod by lia.
  unfold uint8. rewrite Z.mod_mod by lia. rewrite Z.mod_mod by lia. reflexivity.
Qed.

Lemma size_set_memory_mapped (b : bool) (h : block_header) :
  header.size (header.set_memory_mapped b h) = header.size h.
Proof.
  unfold header.size, header.set_memory_mapped, set_data; cbn [data].
  rewrite Z.land_lor_distr_l, <- Z.land_assoc.
  change (Z.land (Z.lnot MMAP_FLAG) SIZE_MASK) with SIZE_MASK.
  replace (Z.land (Z.shiftl (Z.b2z b) 62) SIZE_MASK) with 0 by (destruct b; reflexivity).
  apply Z.lor_0_r.
Qed.

Lemma init_small (sz c : Z) (f : bool) (h : block_header) :
  sz <= 2 ^ 47 ->
  header.init sz c f 0 0 h =
    set_next_physical 0 (set_prev_physical 0
      (header.encode sz c f
         {| data := data h; magic := HEADER_MAGIC;
            prev_physical := prev_physical h; next_physical := next_physical h |})).
Proof.
  intros H. unfold header.init.
  destruct (Z.gtb_spec sz (2 ^ 47)); [lia | reflexivity].
Qed.

Lemma size_init (sz c : Z) (f : bool) (h : block_header) :
  0 <= sz <= 2 ^ 47 -> header.size (header.init sz c f 0 0 h) = sz.
Proof.
  intros H. rewrite init_small by lia.
  change (header.size (set_next_physical 0 (set_prev_physical 0 ?x)))
    with (header.size x).
  rewrite size_encode. apply Z.mod_small. lia.
Qed.

Lemma size_class_init (sz c : Z) (f : bool) (h : block_header) :
  sz <= 2 ^ 47 -> header.size_class (header.init sz c f 0 0 h) = uint8 c.
Proof.
  intros H. rewrite init_small by exact H.
  change (header.size_class (set_next_physical 0 (set_prev_physical 0 ?x)))
    with (header.size_class x).
  apply size_class_encode.
Qed.

Lemma magic_init (sz c : Z) (f : bool) (h : block_header) :
  sz <= 2 ^ 47 -> magic (header.init sz c f 0 0 h) = HEADER_MAGIC.
Proof. intros H. rewrite init_small by lia. reflexivity. Qed.

Lemma header_of_user_ptr (block : Z) :
  0 <= block < 2 ^ 64 -> header_of (user_ptr block) = block.
Proof.
  intros H. unfold header_of, user_ptr, wrap64, sizeof_block_header.
  rewrite Zminus_mod_idemp_l. replace (block + 64 - 64) with block by lia.
  apply Z.mod_small. exact H.
Qed.

Lemma hdr_at_insert (m : gmap Z block_header) (a : Z) (h : block_header) :
  hdr_at (<[a := h]> m) a = h.
Proof. unfold hdr_at. rewrite lookup_insert_eq. reflexivity. Qed.

(** ** The guards of [deallocate] *)

Lemma header_readable_object (m : gmap Z block_header) (p : Z) (h : block_header) :
  m !! header_of p = Some h -> header_readable m p = true.
Proof.
  intros H. unfold header_readable. rewrite H.
  rewrite bool_decide_eq_true_2 by (eexists; reflexivity). apply orb_true_r.
Qed.

(** A header that carries the magic number is an object. *)
Lemma magic_object (m : gmap Z block_header) (a : Z) :
  magic (hdr_at m a) = HEADER_MAGIC -> is_Some (m !! a).
Proof.
  unfold hdr_at. destruct (m !! a) as [h |]; [intros _; eexists; reflexivity |].
  cbn. discriminate.
Qed.

Lemma is_aligned_readable (m : gmap Z block_header) (p : Z) :
  is_aligned m p = true -> header_readable m p = true.
Proof.
  unfold is_aligned, header_readable. intros H.
  destruct (is_base_aligned p); [| discriminate].
  destruct (is_base_aligned (header_of p)); [| discriminate]. cbn [negb andb orb] in *.
  destruct (Z.eqb_spec (magic (hdr_at m (header_of p))) HEADER_MAGIC) as [E | E];
    [| discriminate].
  apply bool_decide_eq_true_2, magic_object, E.
Qed.

(** A pointer that [is_aligned] rejects is ignored. *)
Lemma deallocate_rejected (t : target) (s : state) (p : Z) :
  header_readable (hdrs s) p = true ->
  is_aligned (hdrs s) p = false -> deallocate t s p = Some s.
Proof.
  intros Hr H. unfold deallocate. rewrite Hr, H.
  destruct (p =? 0); reflexivity.
Qed.

(** For every class other than 255 [deallocate] changes nothing: a header
    that passes [is_valid] has the free flag set, and the tiny and the
    small/medium paths both return on a set free flag. *)
Lemma deallocate_pooled_noop (t : target) (s : state) (p : Z) :
  header_readable (hdrs s) p = true ->
  header.size_class (hdr_at (hdrs s) (header_of p)) <> 255 ->
  deallocate t s p = Some s.
Proof.
  intros Hr Hc. unfold deallocate. rewrite Hr. cbn [negb].
  destruct (p =? 0); [reflexivity |].
  destruct (negb (is_aligned (hdrs s) p)); [reflexivity |].
  destruct (header.is_valid (hdr_at (hdrs s) (header_of p))) eqn:Hv;
    [| reflexivity].
  apply valid_is_free in Hv. rewrite Hv.
  change (negb true) with false. cbv iota.
  destruct (align_down p PG_SIZE =? 0); [reflexivity |].
  destruct (_ && _); [reflexivity |].
  destruct (_ <? TINY_CLASSES); [reflexivity |].
  destruct (Z.eqb_spec (header.size_class (hdr_at (hdrs s) (header_of p))) 255);
    [contradiction | reflexivity].
Qed.

(** ** Alignment of the pointers returned by [allocate] *)

(** *** Tiny tier *)

Lemma ctz_pos_nonneg (p : positive) : 0 <= ctz_pos p.
Proof. induction p; cbn [ctz_pos]; lia. Qed.

Lemma count_trailing_zeros_nonneg (x : Z) : 0 <= count_trailing_zeros x.
Proof. destruct x; cbn [count_trailing_zeros]; [lia | apply ctz_pos_nonneg | lia]. Qed.

Lemma find_free_from_nonneg (words : list Z) (mask : Z) (idxs : list nat) :
  0 <= (bitmap.find_free_from words mask idxs).2.
Proof.
  induction idxs as [| i rest IH]; cbn [bitmap.find_free_from].
  - cbn [snd]. unfold SENTINEL, SIZE_MAX. lia.
  - destruct (negb _); [exact IH |].
    destruct (_ =? 0); [exact IH |]. cbn [snd].
    pose proof (count_trailing_zeros_nonneg (default 0 (words !! i))).
    unfold bits_per_word. lia.
Qed.

Lemma tiny_slot_size (c : Z) :
  0 <= c < 8 -> tiny_pool_ops.slot_size_of c = (8 * (c + 1), 128).
Proof.
  intros H.
  assert (Hc : c = 0 \/ c = 1 \/ c = 2 \/ c = 3 \/ c = 4 \/ c = 5 \/ c = 6 \/ c = 7) by lia.
  repeat (destruct Hc as [-> | Hc]; [reflexivity |]). subst c. reflexivity.
Qed.

Lemma allocate_tiny_block (tp : tiny_pool) (c : Z) :
  0 <= c < 8 ->
  (tiny_pool_ops.allocate_tiny tp c).2 = 0 \/
  exists index, 0 <= index < 31 /\
    (tiny_pool_ops.allocate_tiny tp c).2 = tp_base tp + 64 + index * 128.
Proof.
  intros Hc. unfold tiny_pool_ops.allocate_tiny. rewrite tiny_slot_size by exact Hc.
  pose proof (find_free_from_nonneg (tp_bitmap tp)
                (wrap64 (get_alignment_for_size (8 * (c + 1)) / bits_per_word - 1))
                (seq 0 (Z.to_nat words_per_bitmap))) as Hnn.
  unfold bitmap.find_free_block.
  destruct (bitmap.find_free_from _ _ _) as [words index]. cbn [snd] in Hnn.
  change ((PG_SIZE - sizeof_bitmap) / 128) with 31.
  destruct (negb (index =? SENTINEL)); cbn [andb]; [| left; reflexivity].
  destruct (Z.ltb_spec index 31); [| left; reflexivity].
  destruct (_ <=? _); cbn [snd]; [| left; reflexivity].
  right. exists index. split; [lia | reflexivity].
Qed.

Lemma tiny_class_of (n : Z) :
  1 <= n <= 64 -> 0 <= uint8 (Z.shiftr (n - 1) 3) < 8.
Proof.
  intros H. rewrite Z.shiftr_div_pow2 by lia. change (2 ^ 3) with 8.
  unfold uint8. change (2 ^ 8) with 256.
  assert (0 <= (n - 1) / 8 < 8).
  { split; [apply Z.div_pos; lia | apply Z.div_lt_upper_bound; lia]. }
  rewrite Z.mod_small by lia. lia.
Qed.

Lemma placed_tiny_is_aligned (t : target) (s : state) (tp : tiny_pool) (n c index : Z) :
  1 <= n <= 64 -> 0 <= c < 8 -> tiny_pool_placed tp -> 0 <= index < 31 ->
  is_base_aligned (user_ptr (tp_base tp + 64 + index * 128)) = true /\
  is_aligned (hdrs (place_init (tp_base tp + 64 + index * 128) n c s))
             (user_ptr (tp_base tp + 64 + index * 128)) = true /\
  deallocate t (place_init (tp_base tp + 64 + index * 128) n c s)
             (user_ptr (tp_base tp + 64 + index * 128))
    = Some (place_init (tp_base tp + 64 + index * 128) n c s).
Proof.
  unfold tiny_pool_placed, PG_SIZE. intros Hn Hc (Hb0 & Hb1 & Hpage) Hi.
  remember (tp_base tp + 64 + index * 128) as block eqn:Eblock.
  assert (Hblk : 0 <= block < 2 ^ 64 - 64) by lia.
  assert (Hu : user_ptr block = block + 64).
  { unfold user_ptr, sizeof_block_header. apply wrap64_small. lia. }
  assert (Hal : (block + 64) mod 64 = 0).
  { subst block.
    replace (tp_base tp) with (4096 * (tp_base tp / 4096))
      by (pose proof (Z.div_mod (tp_base tp) 4096); lia).
    replace (4096 * (tp_base tp / 4096) + 64 + index * 128 + 64)
      with ((64 * (tp_base tp / 4096) + 2 * index + 2) * 64) by lia.
    apply Z.mod_mul. lia. }
  assert (Hal' : block mod 64 = 0).
  { replace block with (block + 64 + (-1) * 64) by lia.
    rewrite Z.mod_add by lia. exact Hal. }
  assert (Hia : is_aligned (hdrs (place_init block n c s)) (user_ptr block) = true).
  { unfold is_aligned. rewrite header_of_user_ptr by lia.
    unfold place_init. cbn [hdrs with_hdrs]. rewrite hdr_at_insert.
    rewrite Hu, !is_base_aligned_mod, Hal, Hal'.
    change (0 =? 0) with true. cbn [negb].
    rewrite magic_init, size_init by lia.
    change (HEADER_MAGIC =? HEADER_MAGIC) with true. cbn [negb].
    unfold get_alignment_for_size, CACHE_LINE_SIZE.
    destruct (Z.leb_spec n 64); [| lia].
    change (64 - 1) with (2 ^ 6 - 1). rewrite land_ones_mod by lia.
    change (2 ^ 6) with 64. rewrite Hal. reflexivity. }
  split; [| split].
  - rewrite Hu, is_base_aligned_mod, Hal. reflexivity.
  - exact Hia.
  - apply deallocate_pooled_noop; [apply is_aligned_readable; exact Hia |].
    rewrite header_of_user_ptr by lia.
    unfold place_init. cbn [hdrs with_hdrs]. rewrite hdr_at_insert.
    rewrite size_class_init by lia. unfold uint8. change (2 ^ 8) with 256.
    rewrite Z.mod_small by lia. lia.
Qed.

(** Property X21.  On the tiny tier the pointer returned is cache-line
    aligned and accepted by [is_aligned]; the header written by [init]
    carries the free flag, so a [deallocate] of the pointer changes
    nothing. *)
Theorem tiny_allocation_is_aligned (t : target) (s s1 : state) (n p : Z) :
  1 <= n <= 64 ->
  length (tiny_pools_ s) = 8%nat ->
  (forall tp, Some tp ∈ tiny_pools_ s -> tiny_pool_placed tp) ->
  (forall base rest, os_answers (os s) = Some base :: rest ->
     0 <= base /\ base + PG_SIZE <= 2 ^ 64 /\ base mod PG_SIZE = 0) ->
  allocate t s n = Some (s1, p) -> p <> 0 ->
  is_base_aligned p = true /\ is_aligned (hdrs s1) p = true /\
  deallocate t s1 p = Some s1.
Proof.
  intros Hn Hlen Hpools Hos Ha Hp.
  pose proof (tiny_class_of n Hn) as Hc.
  assert (Hhit : forall f s0 tp,
            nth_def None (tiny_pools_ s0) (uint8 (Z.shiftr (n - 1) 3)) = Some tp ->
            tiny_pool_placed tp ->
            allocate_rec t (S f) s0 n = Some (s1, p) ->
            is_base_aligned p = true /\ is_aligned (hdrs s1) p = true /\
            deallocate t s1 p = Some s1).
  { intros f s0 tp Htp Hplaced Hrec. cbn [allocate_rec] in Hrec.
    destruct (Z.eqb_spec n 0); [lia |].
    destruct (Z.gtb_spec n (2 ^ 47)); [lia |]. cbn [orb] in Hrec.
    unfold TINY_LARGE_THRESHOLD, TINY_CLASSES in Hrec.
    destruct (Z.leb_spec n 64); [| lia].
    destruct (Z.geb_spec (uint8 (Z.shiftr (n - 1) 3)) 8); [lia |].
    rewrite Htp in Hrec.
    pose proof (allocate_tiny_block tp _ Hc) as Hblk.
    destruct (tiny_pool_ops.allocate_tiny tp _) as [tp' block].
    cbn [snd] in Hblk.
    destruct (Z.eqb_spec block 0) as [Eb | Hb0]; cbn [negb] in Hrec.
    - injection Hrec as _ <-. contradiction.
    - destruct Hblk as [? | (index & Hi & ->)]; [contradiction |].
      injection Hrec as <- <-.
      apply placed_tiny_is_aligned; assumption. }
  unfold allocate in Ha.
  destruct (nth_def None (tiny_pools_ s) (uint8 (Z.shiftr (n - 1) 3))) as [tp |] eqn:Htp.
  - apply (Hhit 1%nat s tp Htp); [| exact Ha].
    apply Hpools. unfold nth_def in Htp.
    destruct (tiny_pools_ s !! _) as [o |] eqn:E; cbn [default from_option id] in Htp;
      [| discriminate].
    subst o. eapply list_elem_of_lookup_2. exact E.
  - cbn [allocate_rec] in Ha.
    destruct (Z.eqb_spec n 0); [lia |].
    destruct (Z.gtb_spec n (2 ^ 47)); [lia |]. cbn [orb] in Ha.
    unfold TINY_LARGE_THRESHOLD, TINY_CLASSES in Ha.
    destruct (Z.leb_spec n 64); [| lia].
    destruct (Z.geb_spec (uint8 (Z.shiftr (n - 1) 3)) 8); [lia |].
    rewrite Htp in Ha. unfold os_acquire in Ha.
    destruct (os_answers (os s)) as [| [base |] rest] eqn:Eo.
    + injection Ha as _ <-. contradiction.
    + destruct (Z.eqb_spec n 0); [lia |].
      destruct (Z.gtb_spec n (2 ^ 47)); [lia |]. cbn [orb] in Ha.
      destruct (Z.leb_spec n 64); [| lia].
      destruct (Z.geb_spec (uint8 (Z.shiftr (n - 1) 3)) 8); [lia |].
      match type of Ha with
      | context [nth_def None (tiny_pools_ ?s0) ?c] =>
          assert (Hnew : nth_def None (tiny_pools_ s0) c
                         = Some {| tp_base := base; tp_bitmap := fresh_bitmap |})
      end.
      { cbn [tiny_pools_ with_tiny_pools]. unfold nth_def, set_nth.
        rewrite list_lookup_insert_eq; [reflexivity |].
        cbn [tiny_pools_ zero_fill with_bytes with_hdrs with_os]. lia. }
      rewrite Hnew in Ha.
      assert (Hplaced : tiny_pool_placed {| tp_base := base; tp_bitmap := fresh_bitmap |}).
      { unfold tiny_pool_placed. cbn [tp_base]. eapply Hos. reflexivity. }
      pose proof (allocate_tiny_block {| tp_base := base; tp_bitmap := fresh_bitmap |} _ Hc) as Hblk.
      destruct (tiny_pool_ops.allocate_tiny _ _) as [tp' block].
      cbn [snd] in Hblk.
      destruct (Z.eqb_spec block 0) as [Eb | Hb0]; cbn [negb] in Ha.
      * injection Ha as _ <-. contradiction.
      * destruct Hblk as [? | (index & Hi & ->)]; [contradiction |].
        injection Ha as <- <-.
        apply (placed_tiny_is_aligned t _ {| tp_base := base; tp_bitmap := fresh_bitmap |});
          assumption.
    + injection Ha as _ <-. contradiction.
Qed.

(** *** Small and medium tiers: the header is written by [encode] alone *)

Lemma encoded_not_is_aligned (s : state) (block size size_class : Z) :
  0 <= block < 2 ^ 64 ->
  is_aligned (hdrs (place_encoded block size size_class s)) (user_ptr block) = false.
Proof.
  intros Hb. unfold is_aligned. rewrite header_of_user_ptr by exact Hb.
  unfold place_encoded. cbn [hdrs with_hdrs]. rewrite hdr_at_insert.
  change (magic (header.encode size size_class false zero_header)) with 0.
  change (0 =? HEADER_MAGIC) with false.
  destruct (negb (is_base_aligned (user_ptr block))); [reflexivity |].
  destruct (negb (is_base_aligned block)); reflexivity.
Qed.

Lemma pool_allocate_range (p : pool) (sc : size_class) :
  0 <= (pool_ops.allocate p sc).2 < 2 ^ 64.
Proof.
  unfold pool_ops.allocate. destruct (bitmap.find_free_block _ _) as [words index].
  destruct (negb _); cbn [snd]; [apply wrap64_range | lia].
Qed.

Lemma try_pools_range (n : nat) (i : Z) (es es' : list pool_entry)
                      (sc : size_class) (ptr : Z) :
  pool_manager_ops.try_pools n i es sc = Some (es', ptr) -> 0 <= ptr < 2 ^ 64.
Proof.
  revert i. induction n as [| n IH]; intros i H; cbn [pool_manager_ops.try_pools] in H.
  - injection H as _ <-. lia.
  - destruct (pe_p (nth_def null_pool_entry es i)) as [p |]; [| discriminate].
    cbn [mbind option_bind] in H.
    pose proof (pool_allocate_range p sc) as Hr.
    destruct (pool_ops.allocate p sc) as [p' q]. cbn [snd] in Hr.
    destruct (negb (q =? 0)); [injection H as _ <-; exact Hr | eapply IH; exact H].
Qed.

Lemma pool_manager_allocate_range (s s' : state) (c ptr : Z) :
  pool_manager_ops.allocate s c = Some (s', ptr) -> 0 <= ptr < 2 ^ 64.
Proof.
  unfold pool_manager_ops.allocate. intros H.
  destruct (pool_manager_ops.try_pools _ _ _ _) as [[es' q] |] eqn:Et;
    cbn [mbind option_bind] in H; [| discriminate].
  apply try_pools_range in Et.
  destruct (negb (q =? 0)); [injection H as _ <-; exact Et |].
  destruct (_ <? MAX_POOLS); [| injection H as _ <-; lia].
  destruct (os_acquire PG_SIZE (os s)) as [[base |] o]; [| discriminate].
  pose proof (pool_allocate_range {| pool_base := base; pool_bitmap := fresh_bitmap |}
                (size_classes c)) as Hr.
  destruct (pool_ops.allocate _ _) as [np q']. cbn [snd] in Hr.
  destruct (negb (q' =? 0)); injection H as _ <-; [exact Hr | lia].
Qed.

Lemma thread_cache_get_empty (s : state) (c : Z) :
  thread_cache_empty s -> thread_cache.get (thread_cache_ s) c = (thread_cache_ s, 0).
Proof. intros H. unfold thread_cache.get. rewrite (H c). reflexivity. Qed.

Lemma with_thread_cache_same (s : state) : with_thread_cache (thread_cache_ s) s = s.
Proof. destruct s. reflexivity. Qed.

Lemma encoded_readable (s : state) (block size size_class : Z) :
  0 <= block < 2 ^ 64 ->
  header_readable (hdrs (place_encoded block size size_class s)) (user_ptr block) = true.
Proof.
  intros Hb. eapply header_readable_object.
  rewrite header_of_user_ptr by exact Hb.
  unfold place_encoded. cbn [hdrs with_hdrs]. apply lookup_insert_eq.
Qed.

Lemma pooled_block_rejected (s s' s1 : state) (n c ptr p : Z) :
  pool_manager_ops.allocate s c = Some (s', ptr) ->
  (if negb (ptr =? 0) then Some (place_encoded ptr n c s', user_ptr ptr)
   else Some (s', 0)) = Some (s1, p) ->
  p <> 0 ->
  header_readable (hdrs s1) p = true /\ is_aligned (hdrs s1) p = false.
Proof.
  intros Hpm H Hp. apply pool_manager_allocate_range in Hpm.
  destruct (negb (ptr =? 0)); injection H as <- <-; [| contradiction].
  split; [apply encoded_readable | apply encoded_not_is_aligned]; exact Hpm.
Qed.

(** On the small and medium tiers a block taken from a pool has no magic
    number in its header: [is_aligned] rejects the pointer and [deallocate]
    ignores it. *)
Theorem pooled_allocation_rejected (t : target) (s s1 : state) (n p : Z) :
  64 < n < PG_SIZE -> thread_cache_empty s ->
  allocate t s n = Some (s1, p) -> p <> 0 ->
  is_aligned (hdrs s1) p = false /\ deallocate t s1 p = Some s1.
Proof.
  unfold PG_SIZE. intros Hn Hempty Ha Hp.
  assert (header_readable (hdrs s1) p = true /\ is_aligned (hdrs s1) p = false)
    as [Hr Hna];
    [| split; [exact Hna | apply deallocate_rejected; assumption]].
  unfold allocate in Ha. cbn [allocate_rec] in Ha.
  destruct (Z.eqb_spec n 0); [lia |].
  destruct (Z.gtb_spec n (2 ^ 47)); [lia |]. cbn [orb] in Ha.
  unfold TINY_LARGE_THRESHOLD, PG_SIZE, SMALL_LARGE_THRESHOLD in Ha.
  destruct (Z.leb_spec n 64); [lia |].
  destruct (Z.geb_spec n 4096); [lia |].
  destruct (Z.leb_spec n 256).
  - rewrite thread_cache_get_empty in Ha by exact Hempty.
    change (negb (0 =? 0)) with false in Ha. cbv iota in Ha.
    rewrite with_thread_cache_same in Ha.
    unfold allocate_small in Ha.
    rewrite thread_cache_get_empty in Ha by exact Hempty.
    change (negb (0 =? 0)) with false in Ha. cbv iota in Ha.
    rewrite with_thread_cache_same in Ha.
    destruct (pool_manager_ops.allocate s _) as [[s' ptr] |] eqn:Hpm;
      cbn [mbind option_bind] in Ha; [| discriminate].
    eapply pooled_block_rejected; eassumption.
  - unfold allocate_medium in Ha.
    rewrite thread_cache_get_empty in Ha by exact Hempty.
    change (negb (0 =? 0)) with false in Ha. cbv iota in Ha.
    rewrite with_thread_cache_same in Ha.
    destruct (pool_manager_ops.allocate s _) as [[s' ptr] |] eqn:Hpm;
      cbn [mbind option_bind] in Ha; [| discriminate].
    eapply pooled_block_rejected; eassumption.
Qed.

(** *** Large tier: the user pointer sits 64 bytes into a page *)

Lemma map_large_result (s : state) (size len base : Z) (rest : list (option Z)) :
  os_answers (os s) = Some base :: rest -> base <> 0 ->
  exists s1, map_large s size len = Some (s1, user_ptr base) /\
             hdrs s1 !! base =
               Some (header.set_memory_mapped true
                       (header.init size 255 false 0 0 zero_header)).
Proof.
  intros Ho Hb. unfold map_large, os_acquire. rewrite Ho.
  destruct (Z.eqb_spec base 0); [contradiction |].
  eexists. split; [reflexivity |]. cbn [hdrs with_hdrs]. apply lookup_insert_eq.
Qed.

Lemma fresh_large_not_is_aligned (s s1 : state) (size len base : Z)
                                 (rest : list (option Z)) (p : Z) :
  PG_SIZE <= size <= 2 ^ 47 ->
  os_answers (os s) = Some base :: rest ->
  0 < base -> base + 64 < 2 ^ 64 -> base mod PG_SIZE = 0 ->
  map_large s size len = Some (s1, p) ->
  p = base + 64 /\ is_base_aligned p = true /\
  header_readable (hdrs s1) p = true /\ is_aligned (hdrs s1) p = false.
Proof.
  unfold PG_SIZE. intros Hsize Ho Hb0 Hb1 Hpage Hm.
  destruct (map_large_result s size len base rest Ho ltac:(lia)) as (s1' & Hm' & Hobj).
  rewrite Hm in Hm'. injection Hm' as <- ->.
  assert (Hh : hdr_at (hdrs s1) base =
               header.set_memory_mapped true (header.init size 255 false 0 0 zero_header))
    by (unfold hdr_at; rewrite Hobj; reflexivity).
  assert (Hu : user_ptr base = base + 64).
  { unfold user_ptr, sizeof_block_header. apply wrap64_small. lia. }
  assert (Hal : (base + 64) mod 64 = 0).
  { replace base with (4096 * (base / 4096)) at 1
      by (pose proof (Z.div_mod base 4096); lia).
    replace (4096 * (base / 4096) + 64) with ((64 * (base / 4096) + 1) * 64) by lia.
    apply Z.mod_mul. lia. }
  split; [exact Hu |]. split; [| split].
  - rewrite Hu, is_base_aligned_mod, Hal. reflexivity.
  - eapply header_readable_object. rewrite header_of_user_ptr by lia. exact Hobj.
  - unfold is_aligned. rewrite header_of_user_ptr by lia. rewrite Hh, Hu.
    rewrite !is_base_aligned_mod, Hal.
    replace (base mod 64) with 0.
    2:{ replace base with ((64 * (base / 4096)) * 64) at 1
          by (pose proof (Z.div_mod base 4096); lia).
        symmetry. apply Z.mod_mul. lia. }
    change (0 =? 0) with true. cbn [negb].
    rewrite size_set_memory_mapped, size_init by lia.
    unfold get_alignment_for_size, CACHE_LINE_SIZE, PG_SIZE.
    destruct (Z.leb_spec size 64); [lia |].
    destruct (Z.geb_spec size 4096); [| lia].
    change (4096 - 1) with (2 ^ 12 - 1). rewrite land_ones_mod by lia.
    change (2 ^ 12) with 4096.
    replace (base + 64) with (64 + (base / 4096) * 4096)
      by (pose proof (Z.div_mod base 4096); lia).
    rewrite Z.mod_add by lia.
    destruct (negb _); reflexivity.
Qed.

(** On the large tier a freshly mapped block is cache-line aligned, but
    [is_aligned] asks for page alignment of the user pointer and rejects
    it; [deallocate] then ignores the pointer and nothing reaches the
    large-block cache. *)
Theorem large_allocation_rejected (t : target) (s s1 : state) (n p base : Z)
                                  (rest : list (option Z)) :
  PG_SIZE <= n <= 2 ^ 47 ->
  (large_block_cache.get_cached_block t (large_block_cache_ s) n).2 = 0 ->
  os_answers (os s) = Some base :: rest ->
  0 < base -> base + 64 < 2 ^ 64 -> base mod PG_SIZE = 0 ->
  allocate t s n = Some (s1, p) ->
  p = base + 64 /\ is_base_aligned p = true /\
  is_aligned (hdrs s1) p = false /\ deallocate t s1 p = Some s1.
Proof.
  intros Hn Hmiss Ho Hb0 Hb1 Hpage Ha.
  assert (Hn' := Hn). unfold PG_SIZE in Hn'.
  unfold allocate in Ha. cbn [allocate_rec] in Ha.
  destruct (Z.eqb_spec n 0); [lia |].
  destruct (Z.gtb_spec n (2 ^ 47)); [lia |]. cbn [orb] in Ha.
  unfold TINY_LARGE_THRESHOLD in Ha.
  destruct (Z.leb_spec n 64); [lia |].
  unfold PG_SIZE in Ha at 1.
  destruct (Z.geb_spec n 4096); [| lia].
  unfold allocate_large in Ha.
  destruct (large_block_cache.get_cached_block t (large_block_cache_ s) n) as [c cached].
  cbn [snd] in Hmiss. subst cached. change (negb (0 =? 0)) with false in Ha. cbv iota in Ha.
  change (align_down (sizeof_block_header + CACHE_LINE_SIZE - 1) CACHE_LINE_SIZE)
    with 64 in Ha.
  cbv zeta in Ha. unfold PG_SIZE in Ha at 1.
  destruct (Z.leb_spec n (4096 - 64)); [lia |].
  destruct (fresh_large_not_is_aligned s s1 n _ base rest p Hn Ho Hb0 Hb1 Hpage Ha)
    as (Hp & Hal & Hr & Hna).
  repeat (split; [assumption |]).
  apply deallocate_rejected; assumption.
Qed.

(** Claim C1.  The claim says that every non-null result of [allocate(n)],
    on every tier, is cache-line aligned and accepted by
    [block_header::is_aligned].  On a fresh thread the code returns
    cache-line aligned pointers on all four tiers, but [is_aligned] accepts
    only the tiny one (48 bytes): it rejects the small block (100 bytes) and
    the medium block (1000 bytes), whose headers carry no magic number, and
    the large block (4096 bytes), whose user pointer is 64 bytes past a page
    boundary. *)
Theorem allocate_result_fails_is_aligned :
  allocate_report x86_64 example_state 48 = Some (0x1000080, true, true) /\
  allocate_report x86_64 example_state 100 = Some (0x1000080, true, false) /\
  allocate_report x86_64 example_state 1000 = Some (0x1000080, true, false) /\
  allocate_report x86_64 example_state 4096 = Some (0x1000040, true, false) /\
  allocate_report portable example_state 100 = Some (0x1000080, true, false) /\
  allocate_report portable example_state 1000 = Some (0x1000080, true, false) /\
  allocate_report portable example_state 4096 = Some (0x1000040, true, false).
Proof. repeat split; vm_compute; reflexivity. Qed.

(** ** Distinct results of [allocate] *)

(** From class 13 on, the [uint16_t] fields of the size-class table are
    the low 16 bits of [8 * 2^i] and of the slot size: zero. *)
Lemma slot_size_truncated (c : Z) :
  13 <= c <= 31 -> sc_slot_size (size_classes c) = 0 /\ sc_size (size_classes c) = 0.
Proof.
  intros H.
  assert (Hc : c = 13 \/ c = 14 \/ c = 15 \/ c = 16 \/ c = 17 \/ c = 18 \/ c = 19 \/
               c = 20 \/ c = 21 \/ c = 22 \/ c = 23 \/ c = 24 \/ c = 25 \/ c = 26 \/
               c = 27 \/ c = 28 \/ c = 29 \/ c = 30 \/ c = 31) by lia.
  repeat (destruct Hc as [-> | Hc]; [split; reflexivity |]). subst c. split; reflexivity.
Qed.

(** A pool of such a class hands out its first slot address for every
    bitmap index. *)
Lemma pool_allocate_truncated (p : pool) (c : Z) :
  13 <= c <= 31 ->
  (pool_ops.allocate p (size_classes c)).2 = 0 \/
  (pool_ops.allocate p (size_classes c)).2 = wrap64 (pool_memory (pool_base p)).
Proof.
  intros Hc. destruct (slot_size_truncated c Hc) as [Hs _].
  unfold pool_ops.allocate.
  destruct (bitmap.find_free_block _ _) as [words index].
  destruct (negb (index =? SENTINEL)); cbn [snd]; [right | left; reflexivity].
  rewrite Hs, Z.mul_0_r, Z.add_0_r. reflexivity.
Qed.

(** Claim C2.  The claim says that two successful [allocate] calls of one
    thread never return the same user pointer unless the pointer was
    deallocated in between, also for requests of 249..256 bytes (class 31).
    On a fresh thread two consecutive calls [allocate(256)], and two
    consecutive calls [allocate(249)], return the same non-null pointer with
    no call in between: the slot size of class 31 is 0 in the table, so every
    bitmap index of the pool maps to the same address. *)
Theorem allocate_returns_same_pointer_twice :
  allocate_twice x86_64 example_state 256 = Some (0x1000080, 0x1000080) /\
  allocate_twice x86_64 example_state 249 = Some (0x1000080, 0x1000080) /\
  allocate_twice portable example_state 256 = Some (0x1000080, 0x1000080) /\
  allocate_twice portable example_state 249 = Some (0x1000080, 0x1000080).
Proof. repeat split; vm_compute; reflexivity. Qed.

(** ** Double free *)

(** Claim C3.  The claim says that [deallocate(p)] is a no-op whenever the
    validated header of [p] already has its free flag set, so that two
    [deallocate(p)] in a row equal one, for every class including 255.  The
    header below [p = 8192] in [forged_state] passes [is_aligned] and
    [is_valid], is of class 255 and has the free flag set; [deallocate]
    nevertheless puts [p] into the large-block cache (4096 cached bytes),
    and a second [deallocate] puts it there again (8192 cached bytes). *)
Theorem double_free_of_large_block_is_not_a_noop :
  is_aligned (hdrs forged_state) 8192 = true /\
  header.is_valid (hdr_at (hdrs forged_state) (header_of 8192)) = true /\
  header.size_class (hdr_at (hdrs forged_state) (header_of 8192)) = 255 /\
  header.is_free (hdr_at (hdrs forged_state) (header_of 8192)) = true /\
  cached_bytes forged_state = 0 /\
  cached_bytes <$> deallocate x86_64 forged_state 8192 = Some 4096 /\
  cached_bytes <$> deallocate_twice x86_64 forged_state 8192 = Some 8192 /\
  cached_bytes <$> deallocate portable forged_state 8192 = Some 4096 /\
  cached_bytes <$> deallocate_twice portable forged_state 8192 = Some 8192.
Proof. repeat split; vm_compute; reflexivity. Qed.

(** ** Round trip through the large-block cache *)

(** Claim C4.  The claim says that [deallocate] puts a large block of
    4 KiB..16 MiB into the large-block cache, so that
    [p = allocate(8 MiB); deallocate(p); q = allocate(8 MiB)] gives [q == p].
    On a fresh thread [deallocate(p)] leaves the cache empty ([is_aligned]
    rejects [p]) and the second [allocate] maps a new region: [q <> p]. *)
Theorem large_round_trip_misses_cache :
  large_round_trip x86_64 example_state (8 * 1024 * 1024)
    = Some (0x1000040, true, 0x2000040) /\
  large_round_trip portable example_state (8 * 1024 * 1024)
    = Some (0x1000040, true, 0x2000040).
Proof. repeat split; vm_compute; reflexivity. Qed.

(** ** The page guard of [deallocate] *)

(** Counterexample to claim C5 as stated: [8192] is the base of its page,
    its header passes [is_aligned] and [is_valid], and [deallocate(8192)]
    changes the state (the pointer enters the large-block cache).  In page
    0 itself the call is a no-op only where the header read is defined: on
    the fresh thread no header object lives at address 64, and
    [deallocate(128)] reads there before it reaches the guard. *)
Lemma page_base_pointer_not_rejected :
  align_down 8192 PG_SIZE = 8192 /\
  deallocate x86_64 forged_state 8192 <> Some forged_state /\
  deallocate portable forged_state 8192 <> Some forged_state /\
  align_down 128 PG_SIZE = 0 /\
  hdrs example_state !! header_of 128 = None /\
  deallocate x86_64 example_state 128 = None.
Proof.
  split; [vm_compute; reflexivity |].
  split; [| split; [| repeat split; vm_compute; reflexivity]];
    intros H; apply (f_equal (fmap cached_bytes)) in H;
    vm_compute in H; discriminate.
Qed.

(** Claim C5, amended.  [deallocate(p)] is a silent no-op whenever the base
    of the page that holds [p] is 0, that is [(p & ~(PG_SIZE-1)) == 0], and
    [p] is null or the header read of [is_aligned], which comes before the
    guard, is defined: the guard rejects the pointers of page 0, not the
    pointers that sit on a page boundary. *)
Theorem deallocate_zero_page_noop (t : target) (s : state) (p : Z) :
  align_down p PG_SIZE = 0 ->
  p = 0 \/ header_readable (hdrs s) p = true ->
  deallocate t s p = Some s.
Proof.
  intros H Hr. unfold deallocate. rewrite H.
  change (0 =? 0) with true.
  destruct (Z.eqb_spec p 0) as [Hp | Hp]; [reflexivity |].
  destruct Hr as [Hr | Hr]; [contradiction |]. rewrite Hr. cbn [negb].
  destruct (negb (is_aligned (hdrs s) p)); [reflexivity |].
  destruct (negb (header.is_valid (hdr_at (hdrs s) (header_of p)))); reflexivity.
Qed.

(** In [low_page_state] the pointer 128 reaches the guard with a validated
    header of class 255 and the call returns there; one page higher the
    same header takes the call past the guard, where the cache refuses the
    100-byte block and the block goes to [free]. *)
Lemma deallocate_zero_page_noop_witness :
  align_down 128 PG_SIZE = 0 /\
  is_aligned (hdrs low_page_state) 128 = true /\
  header.is_valid (hdr_at (hdrs low_page_state) (header_of 128)) = true /\
  header.size_class (hdr_at (hdrs low_page_state) (header_of 128)) = 255 /\
  deallocate x86_64 low_page_state 128 = Some low_page_state /\
  deallocate x86_64 second_page_state 4224 = None.
Proof.
  split; [reflexivity |]. split; [vm_compute; reflexivity |].
  split; [vm_compute; reflexivity |]. split; [vm_compute; reflexivity |].
  split; [| vm_compute; reflexivity].
  apply deallocate_zero_page_noop; [reflexivity | right; vm_compute; reflexivity].
Defined.

(** ** Coalescing *)

(** Counterexample to claim C6 as stated, in both directions.  The next
    physical neighbour of the block at [0x5000] is free and of the tiny
    class 3, and [try_coalesce] merges it: the block grows from 600 to
    600 + 32 + 64 = 696 bytes and its forward link skips the neighbour.
    The previous neighbour of the tiny block at [0x5400] is free, of class 9
    and not memory-mapped, and [try_coalesce] on the tiny block merges
    nothing. *)
Lemma tiny_neighbour_is_merged :
  header.size_class (hdr_at example_chain 0x5400) = 3 /\
  header.is_free (hdr_at example_chain 0x5400) = true /\
  merged_with_next example_chain 0x5000 = true /\
  header.size (hdr_at (try_coalesce example_chain 0x5000).1 0x5000) = 696 /\
  prev_physical (hdr_at example_chain 0x5400) = 0x5000 /\
  header.size_class (hdr_at example_chain 0x5000) = 9 /\
  header.is_free (hdr_at example_chain 0x5000) = true /\
  header.is_memory_mapped (hdr_at example_chain 0x5000) = false /\
  try_coalesce example_chain 0x5400 = (example_chain, false).
Proof. repeat split; vm_compute; reflexivity. Qed.

(** ** In-place [reallocate] *)

(** Counterexample to claim C7 as stated: for [p = allocate(48)] (class 5,
    capacity 48) [reallocate(p, 56)] returns another pointer. *)
Lemma reallocate_48_to_56_moves :
  allocate_then_reallocate x86_64 example_state 48 56 = Some (0x1000080, 0x2000080) /\
  allocate_then_reallocate portable example_state 48 56 = Some (0x1000080, 0x2000080).
Proof. split; vm_compute; reflexivity. Qed.

(** Claim C7, amended.  For a pointer [p] that is not null, whose header
    address [p - 64] is not null either and whose header passes [is_aligned]
    and [is_valid], [reallocate(p, n)] returns [p] and leaves the state as
    it is whenever [1 <= n <= class_capacity c], where [c] is the class in
    the header of [p] and the capacity of a tiny class is [8 * (c + 1)]
    (48 bytes, not 64, for the block of [allocate(48)]). *)
Theorem reallocate_in_place (t : target) (s : state) (p n : Z) :
  p <> 0 -> header_of p <> 0 ->
  is_aligned (hdrs s) p = true ->
  header.is_valid (hdr_at (hdrs s) (header_of p)) = true ->
  1 <= n <= class_capacity (header.size_class (hdr_at (hdrs s) (header_of p))) ->
  reallocate t s p n = Some (s, p).
Proof.
  intros Hp Hh Ha Hv [Hn1 Hn2]. unfold reallocate.
  destruct (Z.eqb_spec p 0); [contradiction |].
  rewrite (is_aligned_readable _ _ Ha), Ha. change (negb true) with false. cbv iota.
  destruct (Z.eqb_spec n 0); [lia |].
  destruct (Z.eqb_spec (header_of p) 0); [contradiction |].
  rewrite Hv. change (negb true) with false. cbv iota.
  assert (Hs : (header.size (hdr_at (hdrs s) (header_of p)) >? 2 ^ 47) = false).
  { unfold header.is_valid in Hv.
    destruct (_ && _) in Hv; [| discriminate].
    apply andb_true_iff in Hv as [Hv _]. apply Z.leb_le in Hv.
    rewrite Z.gtb_ltb. apply Z.ltb_ge. exact Hv. }
  rewrite Hs. unfold class_capacity in Hn2.
  destruct (header.size_class (hdr_at (hdrs s) (header_of p)) <? TINY_CLASSES).
  - destruct (Z.leb_spec n (Z.shiftl (header.size_class (hdr_at (hdrs s) (header_of p)) + 1) 3));
      [reflexivity | lia].
  - rewrite andb_false_l. change (negb false) with true. rewrite andb_true_l.
    destruct (header.size_class (hdr_at (hdrs s) (header_of p)) <? SIZE_CLASSES);
      [| lia].
    rewrite andb_true_l.
    destruct (Z.leb_spec n (sc_size (size_classes (header.size_class (hdr_at (hdrs s) (header_of p))))));
      [reflexivity | lia].
Qed.

(** The block of [allocate(48)] on the fresh thread: every size from 1 to
    48 is served in place. *)
Lemma reallocate_in_place_witness :
  class_capacity
    (header.size_class (hdr_at (hdrs after_allocate_48) (header_of 0x1000080))) = 48 /\
  forall n, 1 <= n <= 48 ->
    reallocate x86_64 after_allocate_48 0x1000080 n = Some (after_allocate_48, 0x1000080).
Proof.
  assert (Hcap : class_capacity
                   (header.size_class
                      (hdr_at (hdrs after_allocate_48) (header_of 0x1000080))) = 48)
    by (vm_compute; reflexivity).
  split; [exact Hcap |].
  intros n Hn. apply reallocate_in_place.
  - discriminate.
  - vm_compute; discriminate.
  - vm_compute; reflexivity.
  - vm_compute; reflexivity.
  - rewrite Hcap. exact Hn.
Defined.

(** ** [cleanup] *)

Lemma released_os_release_eq (base : Z) (o : os_state) :
  released base (os_release base o).
Proof.
  unfold released, os_release; cbn [os_live].
  apply Forall_forall. intros r Hr.
  apply list_elem_of_filter in Hr as [Hr _]. exact Hr.
Qed.

Lemma released_os_release (base b : Z) (o : os_state) :
  released base o -> released base (os_release b o).
Proof.
  unfold released, os_release; cbn [os_live]. intros H.
  apply Forall_forall. intros r Hr.
  apply list_elem_of_filter in Hr as [_ Hr].
  rewrite Forall_forall in H. apply H. exact Hr.
Qed.




Lemma clear_buckets_counts (bs : list size_bucket) (o : os_state) :
  Forall (fun b => sb_count b = 0) (large_block_cache.clear_buckets bs o).1.
Proof.
  revert o. induction bs as [| b bs IH]; intros o; cbn [large_block_cache.clear_buckets].
  - constructor.
  - destruct (large_block_cache.clear_entries _ _ _ _) as [es o1].
    specialize (IH o1).
    destruct (large_block_cache.clear_buckets bs o1) as [rest o2].
    cbn [fst] in *. constructor; [reflexivity | exact IH].
Qed.

(** ** [callocate] *)

Lemma in_range_true (addr len a : Z) :
  addr <= a < addr + len -> in_range addr len a = true.
Proof. intros H. unfold in_range. apply andb_true_iff. split; lia. Qed.

Lemma memset0_in (addr len : Z) (b : Z -> Z) (a : Z) :
  addr <= a < addr + len -> memset0 addr len b a = 0.
Proof. intros H. unfold memset0. rewrite in_range_true by exact H. reflexivity. Qed.

Lemma memset0_keeps_zero (addr len : Z) (b : Z -> Z) (a : Z) :
  b a = 0 -> memset0 addr len b a = 0.
Proof. intros H. unfold memset0. destruct (in_range addr len a); [reflexivity | exact H]. Qed.

(** The scalar zeroing loop clears every byte of the region. *)
Lemma zero_scalar_zeroes (p n : Z) (b : Z -> Z) (a : Z) :
  0 <= p -> 8 <= n < 2 ^ 64 -> p <= a < p + n ->
  zero_scalar p n b a = 0.
Proof.
  intros Hp Hn Ha. unfold zero_scalar. cbv zeta.
  rewrite (land_7 p).
  pose proof (Z.mod_pos_bound p 8 ltac:(lia)) as Hal.
  remember (p mod 8) as align eqn:Ealign.
  destruct (Z.eqb_spec align 0) as [E | E]; cbn [negb].
  - rewrite land_7, Z.shiftr_div_pow2, Z.shiftl_mul_pow2 by lia.
    change (2 ^ 3) with 8.
    pose proof (Z.div_mod n 8 ltac:(lia)) as Hd.
    pose proof (Z.mod_pos_bound n 8 ltac:(lia)) as Hm.
    destruct (Z.eqb_spec (n mod 8) 0) as [R | R].
    + apply memset0_in. lia.
    + destruct (Z_lt_le_dec a (p + 8 * (n / 8))).
      * apply memset0_keeps_zero, memset0_in. lia.
      * apply memset0_in. lia.
  - rewrite (wrap64_small (n - align)) by lia.
    rewrite land_7, Z.shiftr_div_pow2, Z.shiftl_mul_pow2 by lia.
    change (2 ^ 3) with 8.
    pose proof (Z.div_mod (n - align) 8 ltac:(lia)) as Hd.
    pose proof (Z.mod_pos_bound (n - align) 8 ltac:(lia)) as Hm.
    destruct (Z_lt_le_dec a (p + align)).
    + destruct (Z.eqb_spec ((n - align) mod 8) 0) as [R | R].
      * apply memset0_keeps_zero, memset0_in. lia.
      * apply memset0_keeps_zero, memset0_keeps_zero, memset0_in. lia.
    + destruct (Z.eqb_spec ((n - align) mod 8) 0) as [R | R].
      * apply memset0_in. lia.
      * destruct (Z_lt_le_dec a (p + align + 8 * ((n - align) / 8))).
        -- apply memset0_keeps_zero, memset0_in. lia.
        -- apply memset0_in. lia.
Qed.

Lemma madvise_dontneed_bytes (addr len : Z) (s : state) :
  bytes (madvise_dontneed addr len s).2 =
    if (madvise_dontneed addr len s).1 then memset0 addr len (bytes s) else bytes s.
Proof.
  unfold madvise_dontneed. destruct (os_madvise (os s)) as [[|] o]; reflexivity.
Qed.

(** [callocate(1, n)] is [allocate(n)] followed by the zeroing code. *)
Lemma callocate_one_unfold (t : target) (s : state) (n : Z) :
  0 < n < 2 ^ 64 ->
  callocate t s 1 n =
    match allocate t s n with
    | None => None
    | Some (s1, ptr) =>
        if ptr =? 0 then Some (s1, 0)
        else if n <=? 32
        then Some (with_bytes (memset0 ptr n (bytes s1)) s1, ptr)
        else
          let finish s' :=
            Some (with_bytes (zero_scalar ptr n (bytes s')) s', ptr) in
          if n >=? 4096 then
            let page_aligned := align_down (wrap64 (ptr + 4095)) 4096 in
            let prefix := wrap64 (page_aligned - ptr) in
            let suffix := Z.land (wrap64 (n - prefix)) 4095 in
            let middle := wrap64 (wrap64 (n - prefix) - suffix) in
            let s2 := if negb (prefix =? 0)
                      then with_bytes (memset0 ptr prefix (bytes s1)) s1 else s1 in
            if negb (middle =? 0) then
              let '(ok, s3) := madvise_dontneed page_aligned middle s2 in
              if ok then
                Some (if negb (suffix =? 0)
                      then with_bytes (memset0 (page_aligned + middle) suffix (bytes s3)) s3
                      else s3, ptr)
              else finish s3
            else finish s2
          else finish s1
    end.
Proof.
  intros Hn. unfold callocate. rewrite Z.mul_1_l.
  change (1 =? 0) with false. rewrite orb_false_l.
  destruct (Z.eqb_spec n 0) as [E0 | E0]; [lia |].
  assert (Hq : (1 >? SIZE_MAX / n) = false).
  { rewrite Z.gtb_ltb. apply Z.ltb_ge.
    apply Z.div_le_lower_bound; unfold SIZE_MAX; lia. }
  rewrite Hq.
  destruct (allocate t s n) as [[s1 ptr] |]; reflexivity.
Qed.

Lemma callocate_same_pointer (t : target) (s s1 : state) (n ptr : Z) :
  0 < n < 2 ^ 64 -> allocate t s n = Some (s1, ptr) -> ptr <> 0 ->
  exists s', callocate t s 1 n = Some (s', ptr).
Proof.
  intros Hn Ha Hp. rewrite callocate_one_unfold by exact Hn. rewrite Ha.
  destruct (Z.eqb_spec ptr 0) as [E | _]; [contradiction |].
  destruct (n <=? 32); [eexists; reflexivity |].
  cbv zeta. destruct (n >=? 4096); [| eexists; reflexivity].
  destruct (negb (_ =? 0)); [| eexists; reflexivity].
  destruct (madvise_dontneed _ _ _) as [[|] s3]; eexists; reflexivity.
Qed.

Lemma callocate_zeroes_region (t : target) (s s1 : state) (n ptr : Z) :
  0 < n < 2 ^ 64 -> allocate t s n = Some (s1, ptr) ->
  0 < ptr -> ptr + n <= 2 ^ 64 ->
  exists s', callocate t s 1 n = Some (s', ptr) /\
             forall i, 0 <= i < n -> bytes s' (ptr + i) = 0.
Proof.
  intros Hn Ha Hp Hpn. rewrite callocate_one_unfold by exact Hn. rewrite Ha.
  destruct (Z.eqb_spec ptr 0) as [E | _]; [lia |].
  destruct (Z.leb_spec n 32) as [H32 | H32].
  { eexists. split; [reflexivity |]. intros i Hi. cbn [bytes with_bytes].
    apply memset0_in. lia. }
  assert (Hfin : forall s'',
            exists s', Some (with_bytes (zero_scalar ptr n (bytes s'')) s'', ptr)
                       = Some (s', ptr) /\
                       forall i, 0 <= i < n -> bytes s' (ptr + i) = 0).
  { intros s''. eexists. split; [reflexivity |]. intros i Hi. cbn [bytes with_bytes].
    apply zero_scalar_zeroes; lia. }
  cbv zeta.
  destruct (Z.geb_spec n 4096) as [Hbig | Hsmall]; [| apply Hfin].
  rewrite (wrap64_small (ptr + 4095)) by lia.
  change (align_down (ptr + 4095) 4096) with (align_down (ptr + 4095) PG_SIZE).
  rewrite align_down_page.
  pose proof (Z.mod_pos_bound (ptr + 4095) 4096 ltac:(lia)) as Hm.
  remember (ptr + 4095 - (ptr + 4095) mod 4096) as A eqn:EA.
  rewrite (wrap64_small (A - ptr)) by lia.
  rewrite (wrap64_small (n - (A - ptr))) by lia.
  rewrite land_4095.
  pose proof (Z.mod_pos_bound (n - (A - ptr)) 4096 ltac:(lia)) as Hs.
  pose proof (Z.mod_le (n - (A - ptr)) 4096 ltac:(lia) ltac:(lia)) as Hsle.
  remember ((n - (A - ptr)) mod 4096) as suffix eqn:Es.
  rewrite (wrap64_small (n - (A - ptr) - suffix)) by lia.
  remember (if negb (A - ptr =? 0)
            then with_bytes (memset0 ptr (A - ptr) (bytes s1)) s1 else s1) as s2 eqn:Es2.
  assert (Hs2 : forall a, ptr <= a < A -> bytes s2 a = 0).
  { intros a Haa. subst s2. destruct (Z.eqb_spec (A - ptr) 0); [lia |].
    cbn [negb bytes with_bytes]. apply memset0_in. lia. }
  destruct (Z.eqb_spec (n - (A - ptr) - suffix) 0) as [Em | Em]; cbn [negb];
    [apply Hfin |].
  pose proof (madvise_dontneed_bytes A (n - (A - ptr) - suffix) s2) as Hb.
  destruct (madvise_dontneed A (n - (A - ptr) - suffix) s2) as [ok s3].
  cbn [fst snd] in Hb. destruct ok; [| apply Hfin].
  eexists. split; [reflexivity |]. intros i Hi.
  assert (Hs3 : forall a, ptr <= a < A + (n - (A - ptr) - suffix) -> bytes s3 a = 0).
  { intros a Haa. rewrite Hb. destruct (Z_lt_le_dec a A).
    - apply memset0_keeps_zero, Hs2. lia.
    - apply memset0_in. lia. }
  destruct (Z.eqb_spec suffix 0) as [Esz | Esz]; cbn [negb].
  - apply Hs3. lia.
  - cbn [bytes with_bytes].
    destruct (Z_lt_le_dec (ptr + i) (A + (n - (A - ptr) - suffix))).
    + apply memset0_keeps_zero, Hs3. lia.
    + apply memset0_in. lia.
Qed.

(** Claim C9.  For every [n] of type [size_t], [callocate(1, n)] does not
    return exactly when [allocate(n)] does not, returns null exactly when
    [allocate(n)] returns null (there is no overflow of [1 * n]), and
    otherwise returns the pointer of [allocate(n)] with each of the [n]
    bytes from that pointer on equal to zero, the region lying inside the
    address space. *)
Theorem callocate_one_zeroed (t : target) (s : state) (n : Z) :
  0 <= n < 2 ^ 64 ->
  (callocate t s 1 n = None <-> allocate t s n = None) /\
  (forall s', callocate t s 1 n = Some (s', 0) <-> allocate t s n = Some (s', 0)) /\
  (forall s' p, callocate t s 1 n = Some (s', p) -> 0 < p -> p + n <= 2 ^ 64 ->
     (exists s1, allocate t s n = Some (s1, p)) /\
     forall i, 0 <= i < n -> bytes s' (p + i) = 0).
Proof.
  intros Hn. destruct (Z.eq_dec n 0) as [-> | Hn0].
  { change (callocate t s 1 0) with (Some (s, 0)).
    change (allocate t s 0) with (Some (s, 0)).
    split; [reflexivity |]. split; [reflexivity |].
    intros s' p Hc Hp _. injection Hc as <- <-. lia. }
  assert (Hn' : 0 < n < 2 ^ 64) by lia.
  destruct (allocate t s n) as [[s1 ptr] |] eqn:Ha.
  2:{ rewrite (callocate_one_unfold t s n Hn'), Ha.
      split; [reflexivity |]. split; [reflexivity |]. discriminate. }
  destruct (Z.eq_dec ptr 0) as [-> | Hp0].
  { rewrite (callocate_one_unfold t s n Hn'), Ha.
    change (0 =? 0) with true. cbv iota.
    split; [reflexivity |]. split; [reflexivity |].
    intros s' p Hc Hp _. injection Hc as <- <-. lia. }
  destruct (callocate_same_pointer t s s1 n ptr Hn' Ha Hp0) as [s2 Hc2].
  rewrite Hc2. split; [split; discriminate |]. split.
  - intros s'. split; intros H; injection H as _ H; contradiction.
  - intros s' p Hc Hp Hpn. injection Hc as <- <-.
    destruct (callocate_zeroes_region t s s1 n ptr Hn' Ha Hp Hpn) as [s'' [Hc' Hz]].
    rewrite Hc2 in Hc'. injection Hc' as <-. split; [eauto | exact Hz].
Qed.

Lemma callocate_one_zeroed_witness :
  exists s' p, callocate x86_64 example_state 1 200 = Some (s', p) /\
    p = 0x1000080 /\
    forall i, 0 <= i < 200 -> bytes s' (p + i) = 0.
Proof.
  destruct (callocate x86_64 example_state 1 200) as [[s' p] |] eqn:Hc.
  - assert (Hp : p = 0x1000080).
    { apply (f_equal (fmap snd)) in Hc. vm_compute in Hc. congruence. }
    exists s', p. split; [reflexivity |]. split; [exact Hp |].
    destruct (callocate_one_zeroed x86_64 example_state 200 ltac:(lia)) as (_ & _ & H).
    apply (H s' p Hc); subst p; lia.
  - apply (f_equal (fmap snd)) in Hc. vm_compute in Hc. discriminate.
Defined.

(** ** The byte counter of the large-block cache *)

Lemma sumZ_insert (l : list Z) (i : nat) (x y : Z) :
  l !! i = Some y -> sumZ (<[i := x]> l) = sumZ l - y + x.
Proof.
  revert i. induction l as [| a l IH]; intros [| i] H; try discriminate.
  - injection H as ->. cbn [sumZ foldr insert list_insert]. lia.
  - cbn [lookup list_lookup] in H. specialize (IH i H).
    change (sumZ (<[S i := x]> (a :: l))) with (a + sumZ (<[i := x]> l)).
    change (sumZ (a :: l)) with (a + sumZ l). lia.
Qed.

Lemma sumZ_elem (l : list Z) (i : nat) (y : Z) :
  Forall (fun z => 0 <= z) l -> l !! i = Some y -> 0 <= y <= sumZ l.
Proof.
  intros Hl. revert i. induction Hl as [| a l Ha Hl IH]; intros [| i] H; try discriminate.
  - injection H as ->. change (sumZ (y :: l)) with (y + sumZ l).
    assert (0 <= sumZ l).
    { clear -Hl. induction Hl as [| b l Hb Hl IH]; [cbn; lia |].
      change (sumZ (b :: l)) with (b + sumZ l). lia. }
    lia.
  - cbn [lookup list_lookup] in H. specialize (IH i H).
    change (sumZ (a :: l)) with (a + sumZ l). lia.
Qed.

Lemma nth_def_lookup {A} (d : A) (l : list A) (i : Z) :
  (Z.to_nat i < length l)%nat -> l !! Z.to_nat i = Some (nth_def d l i).
Proof.
  intros H. unfold nth_def. destruct (l !! Z.to_nat i) eqn:E; [reflexivity |].
  apply lookup_ge_None in E. lia.
Qed.

Lemma nth_def_Forall {A} (P : A -> Prop) (d : A) (l : list A) (i : Z) :
  Forall P l -> P d -> P (nth_def d l i).
Proof.
  intros Hl Hd. unfold nth_def. destruct (l !! Z.to_nat i) eqn:E; [| exact Hd].
  rewrite Forall_forall in Hl. apply Hl. eapply list_elem_of_lookup_2. exact E.
Qed.

(** *** Buckets *)

Lemma empty_bucket_ok : bucket_ok empty_bucket.
Proof. repeat split; cbn; try lia. repeat constructor; cbn; lia. Qed.

Lemma empty_large_cache_ok : cache_ok empty_large_cache.
Proof.
  split; [reflexivity |]. split.
  - repeat constructor; cbn; lia.
  - vm_compute. split; discriminate.
Qed.

Lemma bucket_shape (b : size_bucket) :
  bucket_ok b ->
  exists e0 e1 e2 e3,
    entries b = [e0; e1; e2; e3] /\
    0 <= ce_size e0 /\ 0 <= ce_size e1 /\ 0 <= ce_size e2 /\ 0 <= ce_size e3 /\
    (sb_count b = 0 /\ ce_ptr e0 = 0 \/ sb_count b = 1 \/ sb_count b = 2 \/
     sb_count b = 3 \/ sb_count b = 4).
Proof.
  intros (Hlen & Hcnt & Hsz & Hz).
  destruct (entries b) as [| e0 [| e1 [| e2 [| e3 [| ? ?]]]]] eqn:E;
    try discriminate Hlen.
  exists e0, e1, e2, e3. split; [reflexivity |].
  apply Forall_cons in Hsz as [H0 Hsz]. apply Forall_cons in Hsz as [H1 Hsz].
  apply Forall_cons in Hsz as [H2 Hsz]. apply Forall_cons in Hsz as [H3 _].
  repeat (split; [assumption |]).
  destruct (Z.eq_dec (sb_count b) 0) as [E0 | E0].
  - left. split; [exact E0 |]. apply Hz. exact E0.
  - right. lia.
Qed.

Lemma bucket_ok_intro (cnt : Z) (e0 e1 e2 e3 : cache_entry) :
  0 <= cnt <= 4 ->
  0 <= ce_size e0 -> 0 <= ce_size e1 -> 0 <= ce_size e2 -> 0 <= ce_size e3 ->
  (cnt = 0 -> ce_ptr e0 = 0) ->
  bucket_ok {| sb_count := cnt; entries := [e0; e1; e2; e3] |}.
Proof.
  intros Hc H0 H1 H2 H3 Hz. unfold bucket_ok; cbn [entries sb_count].
  split; [reflexivity |]. split; [exact Hc |]. split; [| exact Hz].
  repeat constructor; assumption.
Qed.

Lemma counted_0 (es : list cache_entry) :
  counted {| sb_count := 0; entries := es |} = 0.
Proof. reflexivity. Qed.

Lemma counted_1 (e0 e1 e2 e3 : cache_entry) :
  counted {| sb_count := 1; entries := [e0; e1; e2; e3] |} = live_size e0.
Proof.
  unfold counted. cbn [sb_count entries]. change (Z.to_nat 1) with 1%nat.
  cbn [take fmap list_fmap sumZ foldr]. lia.
Qed.

Lemma counted_2 (e0 e1 e2 e3 : cache_entry) :
  counted {| sb_count := 2; entries := [e0; e1; e2; e3] |}
  = live_size e0 + live_size e1.
Proof.
  unfold counted. cbn [sb_count entries]. change (Z.to_nat 2) with 2%nat.
  cbn [take fmap list_fmap sumZ foldr]. lia.
Qed.

Lemma counted_3 (e0 e1 e2 e3 : cache_entry) :
  counted {| sb_count := 3; entries := [e0; e1; e2; e3] |}
  = live_size e0 + live_size e1 + live_size e2.
Proof.
  unfold counted. cbn [sb_count entries]. change (Z.to_nat 3) with 3%nat.
  cbn [take fmap list_fmap sumZ foldr]. lia.
Qed.

Lemma counted_4 (e0 e1 e2 e3 : cache_entry) :
  counted {| sb_count := 4; entries := [e0; e1; e2; e3] |}
  = live_size e0 + live_size e1 + live_size e2 + live_size e3.
Proof.
  unfold counted. cbn [sb_count entries]. change (Z.to_nat 4) with 4%nat.
  cbn [take fmap list_fmap sumZ foldr]. lia.
Qed.

Lemma live_size_bounds (e : cache_entry) :
  0 <= ce_size e -> 0 <= live_size e <= ce_size e.
Proof. unfold live_size. destruct (ce_ptr e =? 0); lia. Qed.

Lemma live_size_live (e : cache_entry) : ce_ptr e <> 0 -> live_size e = ce_size e.
Proof.
  unfold live_size. destruct (Z.eqb_spec (ce_ptr e) 0); [contradiction | reflexivity].
Qed.

Lemma live_size_null (sz lu : Z) :
  live_size {| ce_ptr := 0; ce_size := sz; last_use := lu |} = 0.
Proof. reflexivity. Qed.

Ltac counted_norm :=
  rewrite ?counted_0, ?counted_1, ?counted_2, ?counted_3, ?counted_4.

Ltac eval_consts :=
  repeat match goal with
  | |- context [Z.to_nat ?k] =>
      let v := eval vm_compute in (Z.to_nat k) in change (Z.to_nat k) with v
  | |- context [wrap64 ?k] =>
      let v := eval vm_compute in (wrap64 k) in change (wrap64 k) with v
  end.

Lemma counted_nonneg (b : size_bucket) : bucket_ok b -> 0 <= counted b.
Proof.
  intros Hok. destruct (bucket_shape b Hok) as (e0 & e1 & e2 & e3 & E & H0 & H1 & H2 & H3 & Hc).
  destruct b as [cnt es]. cbn [entries sb_count] in *. subst es.
  pose proof (live_size_bounds e0 H0). pose proof (live_size_bounds e1 H1).
  pose proof (live_size_bounds e2 H2). pose proof (live_size_bounds e3 H3).
  destruct Hc as [[-> _] | [-> | [-> | [-> | ->]]]]; counted_norm; lia.
Qed.

(** A hit of [get_cached_block]: the entry found holds a pointer, lies
    among the first [count], and the bucket left behind accounts for at
    least its size less. *)
Lemma get_hit_bucket (b : size_bucket) (size i : Z) (e : cache_entry) :
  bucket_ok b ->
  large_block_cache.scan_entries (Z.to_nat (sb_count b)) 0 b size = Some (i, e) ->
  bucket_ok {| sb_count := wrap64 (sb_count b - 1);
               entries := set_nth (entries b) i (taken e) |} /\
  0 <= ce_size e /\
  counted {| sb_count := wrap64 (sb_count b - 1);
             entries := set_nth (entries b) i (taken e) |}
    <= counted b - ce_size e.
Proof.
  intros Hok Hscan. destruct (bucket_shape b Hok) as (e0 & e1 & e2 & e3 & E & H0 & H1 & H2 & H3 & Hc).
  destruct b as [cnt es]. cbn [entries sb_count] in *. subst es.
  pose proof (live_size_bounds e0 H0). pose proof (live_size_bounds e1 H1).
  pose proof (live_size_bounds e2 H2). pose proof (live_size_bounds e3 H3).
  destruct Hc as [[-> _] | [-> | [-> | [-> | ->]]]]; vm_compute Z.to_nat in Hscan;
    cbn [large_block_cache.scan_entries] in Hscan;
    unfold nth_def in Hscan; cbn [entries] in Hscan;
    repeat match type of Hscan with
    | context [Z.to_nat ?k] => let v := eval vm_compute in (Z.to_nat k) in
                               change (Z.to_nat k) with v in Hscan
    end;
    cbn [lookup list_lookup default from_option id] in Hscan.
  all: try discriminate Hscan.
  all: repeat match type of Hscan with
       | (if negb (ce_ptr ?x =? 0) && _ && _ then _ else _) = _ =>
           destruct (Z.eqb_spec (ce_ptr x) 0) as [? | ?]; cbn [negb andb] in Hscan;
           [| destruct (_ && _) in Hscan; [injection Hscan as <- <- |]]
       end.
  all: try discriminate Hscan.
  all: unfold set_nth; eval_consts; cbn [insert list_insert].
  all: (split; [apply bucket_ok_intro; cbn [taken ce_size ce_ptr]; (lia || auto) |]).
  all: (split; [assumption |]).
  all: counted_norm; unfold taken; rewrite ?live_size_null;
       repeat match goal with
       | Hne : ce_ptr ?x <> 0 |- _ => rewrite (live_size_live x Hne) in *; clear Hne
       end; lia.
Qed.

(** A block stored in the free slot at index [count]. *)
Lemma put_slot_bucket (b : size_bucket) (ptr size now : Z) :
  bucket_ok b -> sb_count b < 4 ->
  ce_ptr (nth_def empty_entry (entries b) (sb_count b)) = 0 ->
  0 <= size ->
  bucket_ok {| sb_count := wrap64 (sb_count b + 1);
               entries := set_nth (entries b) (sb_count b)
                            {| ce_ptr := ptr; ce_size := size; last_use := now |} |} /\
  counted {| sb_count := wrap64 (sb_count b + 1);
             entries := set_nth (entries b) (sb_count b)
                          {| ce_ptr := ptr; ce_size := size; last_use := now |} |}
    <= counted b + size.
Proof.
  intros Hok Hlt Hnull Hsize.
  destruct (bucket_shape b Hok) as (e0 & e1 & e2 & e3 & E & H0 & H1 & H2 & H3 & Hc).
  destruct b as [cnt es]. cbn [entries sb_count] in *. subst es.
  pose proof (live_size_bounds {| ce_ptr := ptr; ce_size := size; last_use := now |} Hsize) as Hnew.
  cbn [ce_size] in Hnew.
  pose proof (live_size_bounds e0 H0). pose proof (live_size_bounds e1 H1).
  pose proof (live_size_bounds e2 H2). pose proof (live_size_bounds e3 H3).
  destruct Hc as [[-> _] | [-> | [-> | [-> | ->]]]]; try lia;
    unfold set_nth; eval_consts; cbn [insert list_insert];
    (split; [apply bucket_ok_intro; cbn [ce_size ce_ptr]; (lia || auto) |]);
    counted_norm; lia.
Qed.

(** Replacement of entry 0, the candidate of the [x86_64] build. *)
Lemma evict_first_bucket (b : size_bucket) (ptr size now : Z) :
  bucket_ok b ->
  ce_ptr (nth_def empty_entry (entries b) 0) <> 0 ->
  0 <= size ->
  bucket_ok {| sb_count := sb_count b;
               entries := set_nth (entries b) 0
                            {| ce_ptr := ptr; ce_size := size; last_use := now |} |} /\
  0 <= ce_size (nth_def empty_entry (entries b) 0) <= counted b /\
  counted {| sb_count := sb_count b;
             entries := set_nth (entries b) 0
                          {| ce_ptr := ptr; ce_size := size; last_use := now |} |}
    <= counted b - ce_size (nth_def empty_entry (entries b) 0) + size.
Proof.
  intros Hok Hlive Hsize.
  destruct (bucket_shape b Hok) as (e0 & e1 & e2 & e3 & E & H0 & H1 & H2 & H3 & Hc).
  destruct b as [cnt es]. cbn [entries sb_count] in *. subst es.
  pose proof (live_size_bounds {| ce_ptr := ptr; ce_size := size; last_use := now |} Hsize) as Hnew.
  cbn [ce_size] in Hnew.
  change (nth_def empty_entry [e0; e1; e2; e3] 0) with e0 in *.
  pose proof (live_size_live e0 Hlive) as Hl0.
  pose proof (live_size_bounds e1 H1).
  pose proof (live_size_bounds e2 H2). pose proof (live_size_bounds e3 H3).
  destruct Hc as [[-> Hz] | [-> | [-> | [-> | ->]]]]; [contradiction | | | |];
    unfold set_nth; eval_consts; cbn [insert list_insert];
    (split; [apply bucket_ok_intro; cbn [ce_size ce_ptr]; (lia || auto) |]);
    counted_norm; lia.
Qed.

Lemma clear_entries_bucket (b : size_bucket) (o : os_state) :
  bucket_ok b ->
  bucket_ok {| sb_count := 0;
               entries := (large_block_cache.clear_entries
                             (Z.to_nat (sb_count b)) 0 (entries b) o).1 |}.
Proof.
  intros Hok.
  destruct (bucket_shape b Hok) as (e0 & e1 & e2 & e3 & E & H0 & H1 & H2 & H3 & Hc).
  destruct b as [cnt es]. cbn [entries sb_count] in *. subst es.
  destruct Hc as [[-> Hz] | [-> | [-> | [-> | ->]]]]; eval_consts;
    cbn [large_block_cache.clear_entries]; unfold set_nth, nth_def; eval_consts;
    cbn [lookup list_lookup default from_option id insert list_insert fst];
    apply bucket_ok_intro; cbn [ce_size ce_ptr]; (lia || auto).
Qed.

(** *** The cache *)

(** Replacing one bucket: the invariant survives when the new bucket is
    well formed and the counter moves at least as much as the bucket's
    accounted bytes. *)
Lemma put_bucket_ok (c : large_block_cache_t) (idx : Z) (b' : size_bucket) (total : Z) :
  cache_ok c -> 0 <= idx < 8 -> bucket_ok b' ->
  counted b' - counted (nth_def empty_bucket (buckets c) idx)
    <= total - total_cached c ->
  total <= MAX_CACHE_SIZE ->
  cache_ok (large_block_cache.put_bucket c idx b' total).
Proof.
  intros (Hlen & Hall & Hsum) Hidx Hb' Hdelta Hmax.
  unfold cache_ok, large_block_cache.put_bucket, set_nth; cbn [buckets total_cached].
  split; [rewrite length_insert; exact Hlen |]. split.
  - apply Forall_insert; assumption.
  - rewrite list_fmap_insert.
    rewrite (sumZ_insert _ _ _ (counted (nth_def empty_bucket (buckets c) idx))).
    + lia.
    + rewrite list_lookup_fmap, (nth_def_lookup empty_bucket) by lia. reflexivity.
Qed.

Lemma cache_bucket_ok (c : large_block_cache_t) (idx : Z) :
  cache_ok c -> bucket_ok (nth_def empty_bucket (buckets c) idx).
Proof.
  intros (_ & Hall & _). apply nth_def_Forall; [exact Hall | exact empty_bucket_ok].
Qed.

Lemma cache_total_bounds (c : large_block_cache_t) (idx : Z) :
  cache_ok c -> 0 <= idx < 8 ->
  0 <= counted (nth_def empty_bucket (buckets c) idx) <= total_cached c.
Proof.
  intros (Hlen & Hall & Hsum) Hidx.
  assert (H : 0 <= counted (nth_def empty_bucket (buckets c) idx)
              <= sumZ (counted <$> buckets c)).
  { apply (sumZ_elem _ (Z.to_nat idx)).
    - apply Forall_fmap. eapply Forall_impl; [exact Hall |].
      intros b Hb. apply counted_nonneg. exact Hb.
    - rewrite list_lookup_fmap, (nth_def_lookup empty_bucket) by lia. reflexivity. }
  lia.
Qed.

Lemma bucket_loop_nonneg (fuel : nat) (size threshold index : Z) :
  0 <= index -> 0 <= large_block_cache.bucket_loop fuel size threshold index.
Proof.
  revert threshold index. induction fuel as [| f IH]; intros th i Hi;
    cbn [large_block_cache.bucket_loop]; [exact Hi |].
  destruct (_ && _); [apply IH; lia | exact Hi].
Qed.

Lemma get_bucket_index_nonneg (t : target) (size : Z) :
  0 <= large_block_cache.get_bucket_index t size.
Proof.
  destruct t; unfold large_block_cache.get_bucket_index.
  - unfold wrap64. apply Z.mod_pos_bound. lia.
  - apply bucket_loop_nonneg. lia.
Qed.

Lemma get_cached_block_ok (t : target) (c : large_block_cache_t) (size : Z) :
  cache_ok c -> cache_ok (large_block_cache.get_cached_block t c size).1.
Proof.
  intros Hok. unfold large_block_cache.get_cached_block.
  destruct (_ || _); [exact Hok |].
  pose proof (get_bucket_index_nonneg t size) as Hge.
  destruct (Z.geb_spec (large_block_cache.get_bucket_index t size) NUM_BUCKETS) as [? | Hlt];
    [exact Hok |].
  unfold NUM_BUCKETS in Hlt.
  set (idx := large_block_cache.get_bucket_index t size) in *.
  pose proof (cache_bucket_ok c idx Hok) as Hb.
  pose proof (cache_total_bounds c idx Hok ltac:(lia)) as Ht.
  destruct (large_block_cache.scan_entries _ _ _ _) as [[i e] |] eqn:Hscan;
    [| exact Hok].
  cbn [fst].
  destruct (get_hit_bucket _ size i e Hb Hscan) as (Hb' & Hsz & Hcnt).
  pose proof (counted_nonneg _ Hb') as Hnn.
  assert (Hsum : total_cached c <= MAX_CACHE_SIZE).
  { destruct Hok as (_ & _ & Hsum). lia. }
  assert (Hw : wrap64 (total_cached c - ce_size e) = total_cached c - ce_size e).
  { apply wrap64_small. unfold MAX_CACHE_SIZE in Hsum. lia. }
  rewrite Hw.
  apply put_bucket_ok; [exact Hok | lia | exact Hb' | | lia].
  unfold taken in Hcnt. lia.
Qed.

Lemma cache_block_ok (c : large_block_cache_t) (ptr size now : Z) :
  cache_ok c -> cache_ok (large_block_cache.cache_block x86_64 c ptr size now).1.
Proof.
  intros Hok. unfold large_block_cache.cache_block.
  destruct (Z.ltb_spec size MIN_CACHE_BLOCK) as [? | Hmin]; [exact Hok |].
  destruct (Z.gtb_spec size MAX_CACHE_BLOCK) as [? | Hmax]; [exact Hok |].
  cbn [orb]. unfold MIN_CACHE_BLOCK, MAX_CACHE_BLOCK in *.
  pose proof (get_bucket_index_nonneg x86_64 size) as Hge.
  destruct (Z.geb_spec (large_block_cache.get_bucket_index x86_64 size) NUM_BUCKETS) as [? | Hlt];
    [exact Hok |].
  unfold NUM_BUCKETS in Hlt.
  set (idx := large_block_cache.get_bucket_index x86_64 size) in *.
  pose proof (cache_bucket_ok c idx Hok) as Hb.
  pose proof (cache_total_bounds c idx Hok ltac:(lia)) as Ht.
  assert (Htot : 0 <= total_cached c <= MAX_CACHE_SIZE).
  { destruct Hok as (_ & _ & Hsum). lia. }
  unfold MAX_CACHE_SIZE in Htot.
  rewrite (wrap64_small (total_cached c + size)) by lia.
  destruct (Z.gtb_spec (total_cached c + size) MAX_CACHE_SIZE) as [? | Hroom];
    [exact Hok |].
  unfold MAX_CACHE_SIZE in Hroom.
  set (bucket := nth_def empty_bucket (buckets c) idx) in *.
  assert (Hevict :
    cache_ok
      (if negb (ce_ptr (nth_def empty_entry (entries bucket)
                          (large_block_cache.oldest_index x86_64 bucket)) =? 0)
          && within_ratio size
               (ce_size (nth_def empty_entry (entries bucket)
                           (large_block_cache.oldest_index x86_64 bucket)))
       then
         (large_block_cache.put_bucket c idx
            {| sb_count := sb_count bucket;
               entries := set_nth (entries bucket)
                            (large_block_cache.oldest_index x86_64 bucket)
                            {| ce_ptr := ptr; ce_size := size; last_use := now |} |}
            (wrap64
               (wrap64 (total_cached c
                        - ce_size (nth_def empty_entry (entries bucket)
                                     (large_block_cache.oldest_index x86_64 bucket)))
                + size)), true)
       else (c, false)).1).
  { unfold large_block_cache.oldest_index.
    destruct (Z.eqb_spec (ce_ptr (nth_def empty_entry (entries bucket) 0)) 0) as [? | Hlive];
      cbn [negb andb]; [exact Hok |].
    destruct (within_ratio _ _); [| exact Hok]. cbn [fst].
    destruct (evict_first_bucket bucket ptr size now Hb Hlive ltac:(lia)) as (Hb' & Hold & Hcnt).
    rewrite (wrap64_small (total_cached c - _)) by lia.
    rewrite (wrap64_small (total_cached c - _ + size)) by lia.
    apply put_bucket_ok; [exact Hok | lia | exact Hb' | | unfold MAX_CACHE_SIZE; lia].
    fold bucket. lia. }
  destruct (Z.ltb_spec (sb_count bucket) BUCKET_SIZE) as [Hc | Hc];
    [destruct (Z.eqb_spec (ce_ptr (nth_def empty_entry (entries bucket) (sb_count bucket))) 0)
       as [Hnull | Hfull] |];
    cbn [andb]; [| exact Hevict | exact Hevict].
  cbn [fst].
  destruct (put_slot_bucket bucket ptr size now Hb Hc Hnull ltac:(lia)) as [Hb' Hcnt].
  apply put_bucket_ok; [exact Hok | lia | exact Hb' | | unfold MAX_CACHE_SIZE; lia].
  fold bucket. lia.
Qed.

Lemma clear_buckets_ok (bs : list size_bucket) (o : os_state) :
  Forall bucket_ok bs ->
  Forall bucket_ok (large_block_cache.clear_buckets bs o).1 /\
  length (large_block_cache.clear_buckets bs o).1 = length bs /\
  sumZ (counted <$> (large_block_cache.clear_buckets bs o).1) = 0.
Proof.
  intros Hall. revert o. induction Hall as [| b bs Hb Hall IH]; intros o;
    cbn [large_block_cache.clear_buckets].
  - repeat split. constructor.
  - pose proof (clear_entries_bucket b o Hb) as Hb'.
    destruct (large_block_cache.clear_entries _ _ _ _) as [es o1]. cbn [fst] in Hb'.
    specialize (IH o1).
    destruct (large_block_cache.clear_buckets bs o1) as [rest o2].
    cbn [fst] in *. destruct IH as (IH1 & IH2 & IH3).
    split; [constructor; assumption |]. split; [cbn [length]; lia |].
    cbn [fmap list_fmap]. change (sumZ (?a :: ?l)) with (a + sumZ l).
    rewrite counted_0. change (list_fmap _ _ counted rest) with (counted <$> rest). lia.
Qed.

Lemma clear_ok (c : large_block_cache_t) (o : os_state) :
  cache_ok c -> cache_ok (large_block_cache.clear c o).1.
Proof.
  intros (Hlen & Hall & Hsum). unfold large_block_cache.clear.
  pose proof (clear_buckets_ok (buckets c) o Hall) as H.
  destruct (large_block_cache.clear_buckets (buckets c) o) as [bs o'].
  cbn [fst] in *. destruct H as (H1 & H2 & H3).
  unfold cache_ok; cbn [buckets total_cached].
  split; [lia |]. split; [exact H1 |]. rewrite H3. unfold MAX_CACHE_SIZE. lia.
Qed.

Lemma cache_step_ok (c : large_block_cache_t) (call : cache_call) :
  cache_ok c -> cache_ok (cache_step x86_64 c call).
Proof.
  intros Hok. destruct call as [ptr size now | size |]; cbn [cache_step].
  - apply cache_block_ok. exact Hok.
  - apply get_cached_block_ok. exact Hok.
  - apply clear_ok. exact Hok.
Qed.

Lemma cache_run_ok (calls : list cache_call) : cache_ok (cache_run x86_64 calls).
Proof.
  unfold cache_run. generalize empty_large_cache_ok.
  generalize empty_large_cache as c. induction calls as [| call calls IH]; intros c Hok.
  - exact Hok.
  - cbn [fold_left]. apply IH. apply cache_step_ok. exact Hok.
Qed.

(** Property X23.  On the [x86_64] scalar build, where the replacement
    candidate is always entry 0, the counter stays within [0, 64 MiB] after
    every sequence of calls on an empty cache. *)
Theorem cached_bytes_bounded_x86_64 (calls : list cache_call) :
  0 <= total_cached (cache_run x86_64 calls) <= MAX_CACHE_SIZE.
Proof.
  destruct (cache_run_ok calls) as (Hlen & Hall & Hsum).
  assert (0 <= sumZ (counted <$> buckets (cache_run x86_64 calls))).
  { destruct (buckets (cache_run x86_64 calls)) as [| b bs] eqn:E; [cbn; lia |].
    assert (Hb : bucket_ok b) by (apply Forall_cons in Hall as [? _]; assumption).
    assert (H : 0 <= counted b <= sumZ (counted <$> b :: bs)); [| lia].
    apply (sumZ_elem (counted <$> b :: bs) 0 (counted b)); [| reflexivity].
    apply Forall_fmap. eapply Forall_impl; [exact Hall |].
    intros ? ?. apply counted_nonneg. assumption. }
  lia.
Qed.

(** [cache_block] refuses a block that would take the counter past the
    limit. *)
Lemma cache_block_over_limit (c : large_block_cache_t) (ptr size now : Z) :
  0 <= total_cached c -> total_cached c + size < 2 ^ 64 ->
  MAX_CACHE_SIZE < total_cached c + size ->
  large_block_cache.cache_block x86_64 c ptr size now = (c, false).
Proof.
  intros H0 Hfit Hover. unfold large_block_cache.cache_block.
  destruct (_ || _) eqn:Hrange; [reflexivity |].
  destruct (_ >=? NUM_BUCKETS); [reflexivity |].
  apply orb_false_iff in Hrange as [Hmin _]. apply Z.ltb_ge in Hmin.
  unfold MIN_CACHE_BLOCK in Hmin.
  rewrite wrap64_small by lia.
  destruct (Z.gtb_spec (total_cached c + size) MAX_CACHE_SIZE); [reflexivity | lia].
Qed.

(** Claim C10.  On the build that compiles without vector extensions
    ([x86_64]): on every cache reached from the empty one by [cache_block],
    [get_cached_block] and [clear] calls, [cache_block] refuses a block
    whenever the counter plus the incoming size exceeds 64 MiB, and the
    counter covers the sizes of the entries the buckets count and is at
    most 64 MiB; the refusal holds on any cache at all whose counter plus
    the incoming size fits [size_t]. *)
Theorem cached_bytes_never_exceed_limit :
  (forall calls ptr size now,
     MAX_CACHE_SIZE < total_cached (cache_run x86_64 calls) + size ->
     large_block_cache.cache_block x86_64 (cache_run x86_64 calls) ptr size now
     = (cache_run x86_64 calls, false)) /\
  (forall calls,
     0 <= sumZ (counted <$> buckets (cache_run x86_64 calls))
       <= total_cached (cache_run x86_64 calls) /\
     total_cached (cache_run x86_64 calls) <= MAX_CACHE_SIZE) /\
  (forall c ptr size now,
     0 <= total_cached c -> total_cached c + size < 2 ^ 64 ->
     MAX_CACHE_SIZE < total_cached c + size ->
     large_block_cache.cache_block x86_64 c ptr size now = (c, false)).
Proof.
  assert (Hinv : forall calls,
     0 <= sumZ (counted <$> buckets (cache_run x86_64 calls))
       <= total_cached (cache_run x86_64 calls) /\
     total_cached (cache_run x86_64 calls) <= MAX_CACHE_SIZE).
  { intros calls. destruct (cache_run_ok calls) as (Hlen & Hall & Hsum).
    assert (0 <= sumZ (counted <$> buckets (cache_run x86_64 calls))); [| lia].
    destruct (buckets (cache_run x86_64 calls)) as [| b bs] eqn:E; [cbn; lia |].
    assert (Hb : bucket_ok b) by (apply Forall_cons in Hall as [? _]; assumption).
    assert (H : 0 <= counted b <= sumZ (counted <$> b :: bs)); [| lia].
    apply (sumZ_elem (counted <$> b :: bs) 0 (counted b)); [| reflexivity].
    apply Forall_fmap. eapply Forall_impl; [exact Hall |].
    intros ? ?. apply counted_nonneg. assumption. }
  split; [| split; [exact Hinv | exact cache_block_over_limit]].
  intros calls ptr size now Hover.
  destruct (Hinv calls) as [H0 Hmax].
  destruct (Z.ltb_spec (total_cached (cache_run x86_64 calls) + size) (2 ^ 64))
    as [Hfit | Hbig].
  - apply cache_block_over_limit; lia.
  - unfold large_block_cache.cache_block.
    assert (Hgt : (size >? MAX_CACHE_BLOCK) = true).
    { apply Z.gtb_lt. unfold MAX_CACHE_BLOCK, MAX_CACHE_SIZE in *. lia. }
    rewrite Hgt, orb_true_r. reflexivity.
Qed.

(** The cache left by the calls of [limit_scenario] holds 600 KiB and
    refuses a block of 64 MiB; a cache whose counter stands at 60 MiB
    refuses a block of 8 MiB. *)
Lemma cached_bytes_never_exceed_limit_witness :
  total_cached (cache_run x86_64 limit_scenario) = 600 * KiB /\
  total_cached (cache_run x86_64 limit_scenario) <= MAX_CACHE_SIZE /\
  large_block_cache.cache_block x86_64 (cache_run x86_64 limit_scenario)
    0x80000040 (64 * MiB) 8
  = (cache_run x86_64 limit_scenario, false) /\
  large_block_cache.cache_block x86_64
    {| buckets := buckets empty_large_cache; total_cached := 60 * MiB |}
    0x10000040 (8 * MiB) 1
  = ({| buckets := buckets empty_large_cache; total_cached := 60 * MiB |}, false).
Proof.
  destruct cached_bytes_never_exceed_limit as (Hrej & Hbound & Hany).
  split; [vm_compute; reflexivity |].
  split; [apply (Hbound limit_scenario) |].
  split; [apply Hrej; vm_compute; reflexivity |].
  apply Hany; vm_compute; [discriminate | reflexivity | reflexivity].
Defined.

(** * Further properties of the components

    Properties of the functions around the ones the claims are about: the
    header accessors, the size-class table, the thread cache, the bitmap,
    the pools, the large-block cache taken alone, and the entry points on
    each tier. *)

(** ** The flag bits of the packed word *)

Lemma testbit_flag (b : bool) (k n : Z) :
  0 <= k -> 0 <= n -> Z.testbit (Z.shiftl (Z.b2z b) k) n = b && (n =? k).
Proof.
  intros Hk Hn. rewrite Z.shiftl_spec by exact Hn.
  destruct b; cbn [Z.b2z andb].
  - destruct (Z.eqb_spec n k) as [-> | Hne].
    + rewrite Z.sub_diag. reflexivity.
    + destruct (Z.ltb_spec (n - k) 0).
      * apply Z.testbit_neg_r. lia.
      * change 1 with (2 ^ 0). apply Z.pow2_bits_false. lia.
  - apply Z.bits_0.
Qed.

Lemma testbit_one_shifted (k n : Z) :
  0 <= k -> 0 <= n -> Z.testbit (Z.shiftl 1 k) n = (n =? k).
Proof. intros Hk Hn. apply (testbit_flag true k n Hk Hn). Qed.

(** [(d & ~(1 << k)) | (b << k)] sets bit [k] to [b] and keeps the others. *)
Lemma set_bit_spec (d : Z) (b : bool) (k n : Z) :
  0 <= k -> 0 <= n ->
  Z.testbit (Z.lor (Z.land d (Z.lnot (Z.shiftl 1 k))) (Z.shiftl (Z.b2z b) k)) n
  = if n =? k then b else Z.testbit d n.
Proof.
  intros Hk Hn. rewrite Z.lor_spec, Z.land_spec, Z.lnot_spec by exact Hn.
  rewrite (testbit_flag b k n Hk Hn), (testbit_one_shifted k n Hk Hn).
  destruct (n =? k); destruct b; destruct (Z.testbit d n); reflexivity.
Qed.

(** [d & (1 << k)] is non-zero exactly when bit [k] of [d] is set. *)
Lemma flag_test (d k : Z) :
  0 <= k -> negb (Z.land d (Z.shiftl 1 k) =? 0) = Z.testbit d k.
Proof.
  intros Hk.
  assert (H : Z.land d (Z.shiftl 1 k) = if Z.testbit d k then Z.shiftl 1 k else 0).
  { apply Z.bits_inj'. intros n Hn. rewrite Z.land_spec.
    rewrite (testbit_one_shifted k n Hk Hn).
    destruct (Z.eqb_spec n k) as [-> | Hne].
    - rewrite andb_true_r. destruct (Z.testbit d k).
      + rewrite (testbit_one_shifted k k Hk Hk), Z.eqb_refl. reflexivity.
      + rewrite Z.bits_0. reflexivity.
    - rewrite andb_false_r. destruct (Z.testbit d k).
      + rewrite (testbit_one_shifted k n Hk Hn).
        destruct (Z.eqb_spec n k); [contradiction | reflexivity].
      + rewrite Z.bits_0. reflexivity. }
  rewrite H. destruct (Z.testbit d k); [| reflexivity].
  rewrite Z.shiftl_1_l.
  destruct (Z.eqb_spec (2 ^ k) 0) as [E | E]; [| reflexivity].
  pose proof (Z.pow_pos_nonneg 2 k). lia.
Qed.

Lemma is_free_bit (h : block_header) : header.is_free h = Z.testbit (data h) 63.
Proof. unfold header.is_free. apply flag_test. lia. Qed.

Lemma is_memory_mapped_bit (h : block_header) :
  header.is_memory_mapped h = Z.testbit (data h) 62.
Proof. unfold header.is_memory_mapped, MMAP_FLAG. apply flag_test. lia. Qed.

Lemma is_coalesced_bit (h : block_header) :
  header.is_coalesced h = Z.testbit (data h) 61.
Proof. unfold header.is_coalesced, COALESCED_FLAG. apply flag_test. lia. Qed.

(** Two words that agree below bit [hi] agree under a mask below [2^hi]. *)
Lemma mask_agree (M d d' hi : Z) :
  0 <= M -> Z.log2 M < hi ->
  (forall n, 0 <= n < hi -> Z.testbit d' n = Z.testbit d n) ->
  Z.land d' M = Z.land d M.
Proof.
  intros HM Hlog H. apply Z.bits_inj'. intros n Hn. rewrite !Z.land_spec.
  destruct (Z_lt_le_dec n hi).
  - rewrite H by lia. reflexivity.
  - rewrite (Z.bits_above_log2 M n) by lia. rewrite !andb_false_r. reflexivity.
Qed.

Lemma low_bits_size_class (h h' : block_header) :
  (forall n, 0 <= n < 56 -> Z.testbit (data h') n = Z.testbit (data h) n) ->
  header.size h' = header.size h /\ header.size_class h' = header.size_class h.
Proof.
  intros H. unfold header.size, header.size_class. split.
  - apply (mask_agree SIZE_MASK _ _ 56); [unfold SIZE_MASK; lia | | exact H].
    change (Z.log2 SIZE_MASK) with 47. lia.
  - f_equal. f_equal.
    apply (mask_agree CLASS_MASK _ _ 56); [unfold CLASS_MASK; lia | | exact H].
    change (Z.log2 CLASS_MASK) with 55. lia.
Qed.

(** The nibble in bits 60..63 fixes the three flags. *)
Lemma nibble_bits (d : Z) :
  Z.land d MAGIC_MASK = MAGIC_VALUE ->
  Z.testbit d 63 = true /\ Z.testbit d 62 = false /\ Z.testbit d 61 = true.
Proof.
  intros H.
  assert (Hb : forall n, Z.testbit d n && Z.testbit MAGIC_MASK n = Z.testbit MAGIC_VALUE n).
  { intros n. rewrite <- Z.land_spec, H. reflexivity. }
  pose proof (Hb 63) as H63. pose proof (Hb 62) as H62. pose proof (Hb 61) as H61.
  change (Z.testbit MAGIC_MASK 63) with true in H63.
  change (Z.testbit MAGIC_VALUE 63) with true in H63.
  change (Z.testbit MAGIC_MASK 62) with true in H62.
  change (Z.testbit MAGIC_VALUE 62) with false in H62.
  change (Z.testbit MAGIC_MASK 61) with true in H61.
  change (Z.testbit MAGIC_VALUE 61) with true in H61.
  rewrite andb_true_r in H63, H62, H61. auto.
Qed.

Lemma nibble_from_bits (d : Z) :
  Z.land d MAGIC_MASK = MAGIC_VALUE -> Z.testbit d 63 = true.
Proof. intros H. apply nibble_bits in H. tauto. Qed.

Lemma shifted_class_nibble (u : Z) :
  0 <= u < 256 -> Z.land (Z.shiftl u 48) MAGIC_MASK = 0.
Proof.
  intros Hu. apply Z.bits_inj'. intros n Hn.
  rewrite Z.land_spec, Z.bits_0, Z.shiftl_spec by exact Hn.
  destruct (Z_lt_le_dec n 60).
  - replace (Z.testbit MAGIC_MASK n) with false; [apply andb_false_r |].
    symmetry. change MAGIC_MASK with (Z.shiftl 15 60).
    rewrite Z.shiftl_spec by exact Hn. apply Z.testbit_neg_r. lia.
  - replace (Z.testbit u (n - 48)) with false; [reflexivity |].
    symmetry. destruct (Z.eq_dec u 0) as [-> | Hu0]; [apply Z.bits_0 |].
    apply Z.bits_above_log2; [lia |].
    assert (Z.log2 u < 8) by (apply Z.log2_lt_pow2; lia). lia.
Qed.

Lemma nibble_encode (sz c : Z) (f : bool) (h : block_header) :
  Z.land (data (header.encode sz c f h)) MAGIC_MASK = MAGIC_VALUE.
Proof.
  unfold header.encode, set_data; cbn [data].
  rewrite !Z.land_lor_distr_l.
  rewrite <- Z.land_assoc. change (Z.land SIZE_MASK MAGIC_MASK) with 0.
  rewrite Z.land_0_r, Z.lor_0_l.
  rewrite shifted_class_nibble.
  2:{ unfold uint8. apply Z.mod_pos_bound. lia. }
  rewrite Z.lor_0_l.
  change (Z.land MAGIC_VALUE MAGIC_MASK) with MAGIC_VALUE.
  destruct f; reflexivity.
Qed.

Lemma init_in_range (sz c : Z) (f : bool) (prev next : Z) (h : block_header) :
  sz <= 2 ^ 47 ->
  header.init sz c f prev next h =
    set_next_physical next (set_prev_physical prev
      (header.encode sz c f
         {| data := data h; magic := HEADER_MAGIC;
            prev_physical := prev_physical h; next_physical := next_physical h |})).
Proof.
  intros H. unfold header.init.
  destruct (Z.gtb_spec sz (2 ^ 47)); [lia | reflexivity].
Qed.

Lemma uint8_small (c : Z) : 0 <= c <= 255 -> uint8 c = c.
Proof. intros H. unfold uint8. apply Z.mod_small. lia. Qed.

(** Property X1.  Round trip of [init] through the accessors: for a size of at most
    [2^47] and a class that fits in a byte, the header written by [init]
    gives back the size, the class and the two links, and carries the magic
    number. *)
Theorem header_init_round_trip (sz c : Z) (f : bool) (prev next : Z)
                               (h : block_header) :
  0 <= sz <= 2 ^ 47 -> 0 <= c <= 255 ->
  header.size (header.init sz c f prev next h) = sz /\
  header.size_class (header.init sz c f prev next h) = c /\
  magic (header.init sz c f prev next h) = HEADER_MAGIC /\
  prev_physical (header.init sz c f prev next h) = prev /\
  next_physical (header.init sz c f prev next h) = next.
Proof.
  intros Hsz Hc. rewrite init_in_range by lia.
  split; [| split; [| repeat split]].
  - change (header.size (set_next_physical next (set_prev_physical prev ?x)))
      with (header.size x).
    rewrite size_encode. apply Z.mod_small. lia.
  - change (header.size_class (set_next_physical next (set_prev_physical prev ?x)))
      with (header.size_class x).
    rewrite size_class_encode. apply uint8_small. exact Hc.
Qed.

Lemma header_init_round_trip_witness :
  header.size (header.init 600 9 false 0x5400 0x5800 zero_header) = 600 /\
  header.size_class (header.init 600 9 false 0x5400 0x5800 zero_header) = 9 /\
  magic (header.init 600 9 false 0x5400 0x5800 zero_header) = HEADER_MAGIC /\
  prev_physical (header.init 600 9 false 0x5400 0x5800 zero_header) = 0x5400 /\
  next_physical (header.init 600 9 false 0x5400 0x5800 zero_header) = 0x5800.
Proof. apply header_init_round_trip; lia. Defined.

Lemma init_marks (sz c : Z) (f : bool) (prev next : Z) (h : block_header) :
  sz <= 2 ^ 47 ->
  magic (header.init sz c f prev next h) = HEADER_MAGIC /\
  Z.land (data (header.init sz c f prev next h)) MAGIC_MASK = MAGIC_VALUE.
Proof.
  intros H. rewrite init_in_range by exact H. split; [reflexivity |].
  change (data (set_next_physical next (set_prev_physical prev ?x))) with (data x).
  apply nibble_encode.
Qed.

Lemma init_size_class (sz c : Z) (f : bool) (prev next : Z) (h : block_header) :
  0 <= sz <= 2 ^ 47 ->
  header.size (header.init sz c f prev next h) = sz /\
  header.size_class (header.init sz c f prev next h) = uint8 c.
Proof.
  intros H. rewrite init_in_range by lia. split.
  - change (header.size (set_next_physical next (set_prev_physical prev ?x)))
      with (header.size x).
    rewrite size_encode. apply Z.mod_small. lia.
  - change (header.size_class (set_next_physical next (set_prev_physical prev ?x)))
      with (header.size_class x).
    apply size_class_encode.
Qed.

(** Property X2.  [is_valid] accepts the header written by [init] exactly when the
    size is at most [2^47] and the class is one of the 32 pool classes or
    255; for a larger size [init] leaves an all-zero header, which
    [is_valid] rejects. *)
Theorem init_is_valid (sz c : Z) (f : bool) (prev next : Z) (h : block_header) :
  0 <= sz < 2 ^ 64 -> 0 <= c <= 255 ->
  header.is_valid (header.init sz c f prev next h)
  = (sz <=? 2 ^ 47) && ((c <? SIZE_CLASSES) || (c =? 255)).
Proof.
  intros Hsz Hc. destruct (Z.leb_spec sz (2 ^ 47)) as [Hle | Hgt].
  - destruct (init_marks sz c f prev next h Hle) as [Hm Hn].
    destruct (init_size_class sz c f prev next h ltac:(lia)) as [Hs Hcl].
    unfold header.is_valid. rewrite Hm, Hn, Hs, Hcl, uint8_small by exact Hc.
    change (HEADER_MAGIC =? HEADER_MAGIC) with true.
    change (MAGIC_VALUE =? MAGIC_VALUE) with true.
    destruct (Z.leb_spec sz (2 ^ 47)); [reflexivity | lia].
  - unfold header.init. destruct (Z.gtb_spec sz (2 ^ 47)); [reflexivity | lia].
Qed.

Lemma init_is_valid_witness :
  header.is_valid (header.init 4096 255 false 0 0 zero_header) = true /\
  header.is_valid (header.init 48 40 false 0 0 zero_header) = false /\
  header.is_valid (header.init (2 ^ 47 + 1) 5 false 0 0 zero_header) = false.
Proof.
  split; [| split].
  - rewrite init_is_valid by lia. reflexivity.
  - rewrite init_is_valid by lia. reflexivity.
  - rewrite init_is_valid by lia. reflexivity.
Defined.

(** Property X3.  Every header that [is_valid] accepts reads as free and as
    coalesced, and never as memory-mapped: the nibble [0xA] that [is_valid]
    requires in bits 60..63 of [data] overlaps the three flag bits. *)
Theorem valid_header_flags (h : block_header) :
  header.is_valid h = true ->
  header.is_free h = true /\
  header.is_memory_mapped h = false /\
  header.is_coalesced h = true.
Proof.
  intros H. apply valid_nibble, nibble_bits in H.
  rewrite is_free_bit, is_memory_mapped_bit, is_coalesced_bit. exact H.
Qed.

Lemma valid_header_flags_witness :
  header.is_free (header.init 48 5 false 0 0 zero_header) = true /\
  header.is_memory_mapped (header.init 48 5 false 0 0 zero_header) = false /\
  header.is_coalesced (header.init 48 5 false 0 0 zero_header) = true.
Proof. apply valid_header_flags. vm_compute. reflexivity. Defined.

Lemma setter_low_bits (d : Z) (b : bool) (k n : Z) :
  56 <= k -> 0 <= n < 56 ->
  Z.testbit (Z.lor (Z.land d (Z.lnot (Z.shiftl 1 k))) (Z.shiftl (Z.b2z b) k)) n
  = Z.testbit d n.
Proof.
  intros Hk Hn. rewrite set_bit_spec by lia.
  destruct (Z.eqb_spec n k); [lia | reflexivity].
Qed.

Lemma set_free_bits (b : bool) (h : block_header) (n : Z) :
  0 <= n ->
  Z.testbit (data (header.set_free b h)) n = if n =? 63 then b else Z.testbit (data h) n.
Proof.
  intros Hn. unfold header.set_free, set_data; cbn [data].
  apply set_bit_spec; lia.
Qed.

Lemma set_memory_mapped_bits (b : bool) (h : block_header) (n : Z) :
  0 <= n ->
  Z.testbit (data (header.set_memory_mapped b h)) n
  = if n =? 62 then b else Z.testbit (data h) n.
Proof.
  intros Hn. unfold header.set_memory_mapped, set_data, MMAP_FLAG; cbn [data].
  apply set_bit_spec; lia.
Qed.

Lemma set_coalesced_bits (b : bool) (h : block_header) (n : Z) :
  0 <= n ->
  Z.testbit (data (header.set_coalesced b h)) n
  = if n =? 61 then b else Z.testbit (data h) n.
Proof.
  intros Hn. unfold header.set_coalesced, set_data, COALESCED_FLAG; cbn [data].
  apply set_bit_spec; lia.
Qed.

Lemma set_coalesced_fields (b : bool) (h : block_header) :
  header.is_coalesced (header.set_coalesced b h) = b /\
  header.size (header.set_coalesced b h) = header.size h /\
  header.size_class (header.set_coalesced b h) = header.size_class h /\
  header.is_free (header.set_coalesced b h) = header.is_free h.
Proof.
  rewrite !is_free_bit, !is_coalesced_bit, !set_coalesced_bits by lia.
  change (61 =? 61) with true. change (63 =? 61) with false. cbv iota.
  destruct (low_bits_size_class h (header.set_coalesced b h)) as [? ?].
  { intros n Hn. rewrite set_coalesced_bits by lia.
    destruct (Z.eqb_spec n 61); [lia | reflexivity]. }
  repeat split; assumption.
Qed.

(** Property X4.  Each flag setter writes its own bit and nothing else: the getter
    reads back the value written, and the size, the class and the two other
    flags are as before. *)
Theorem flag_setters_round_trip (b : bool) (h : block_header) :
  (header.is_free (header.set_free b h) = b /\
   header.size (header.set_free b h) = header.size h /\
   header.size_class (header.set_free b h) = header.size_class h /\
   header.is_memory_mapped (header.set_free b h) = header.is_memory_mapped h /\
   header.is_coalesced (header.set_free b h) = header.is_coalesced h) /\
  (header.is_memory_mapped (header.set_memory_mapped b h) = b /\
   header.size (header.set_memory_mapped b h) = header.size h /\
   header.size_class (header.set_memory_mapped b h) = header.size_class h /\
   header.is_free (header.set_memory_mapped b h) = header.is_free h /\
   header.is_coalesced (header.set_memory_mapped b h) = header.is_coalesced h) /\
  (header.is_coalesced (header.set_coalesced b h) = b /\
   header.size (header.set_coalesced b h) = header.size h /\
   header.size_class (header.set_coalesced b h) = header.size_class h /\
   header.is_free (header.set_coalesced b h) = header.is_free h /\
   header.is_memory_mapped (header.set_coalesced b h) = header.is_memory_mapped h).
Proof.
  rewrite !is_free_bit, !is_memory_mapped_bit, !is_coalesced_bit.
  rewrite !set_free_bits, !set_memory_mapped_bits, !set_coalesced_bits by lia.
  change (63 =? 63) with true. change (62 =? 62) with true. change (61 =? 61) with true.
  change (62 =? 63) with false. change (61 =? 63) with false.
  change (63 =? 62) with false. change (61 =? 62) with false.
  change (63 =? 61) with false. change (62 =? 61) with false.
  cbv iota.
  destruct (low_bits_size_class h (header.set_free b h)) as [? ?].
  { intros n Hn. rewrite set_free_bits by lia. destruct (Z.eqb_spec n 63); [lia | reflexivity]. }
  destruct (low_bits_size_class h (header.set_memory_mapped b h)) as [? ?].
  { intros n Hn. rewrite set_memory_mapped_bits by lia.
    destruct (Z.eqb_spec n 62); [lia | reflexivity]. }
  destruct (low_bits_size_class h (header.set_coalesced b h)) as [? ?].
  { intros n Hn. rewrite set_coalesced_bits by lia.
    destruct (Z.eqb_spec n 61); [lia | reflexivity]. }
  repeat split; assumption.
Qed.

(** Property X5.  Clearing the free flag, setting the memory-mapped flag or clearing
    the coalesced flag makes any header fail [is_valid]: each of the three
    writes destroys the nibble [0xA] that [is_valid] looks for. *)
Theorem flag_setters_invalidate (h : block_header) :
  header.is_valid (header.set_free false h) = false /\
  header.is_valid (header.set_memory_mapped true h) = false /\
  header.is_valid (header.set_coalesced false h) = false.
Proof.
  split; [| split].
  - destruct (header.is_valid (header.set_free false h)) eqn:E; [| reflexivity].
    apply valid_nibble, nibble_bits in E. destruct E as (E & _ & _).
    rewrite set_free_bits in E by lia. discriminate.
  - destruct (header.is_valid (header.set_memory_mapped true h)) eqn:E; [| reflexivity].
    apply valid_nibble, nibble_bits in E. destruct E as (_ & E & _).
    rewrite set_memory_mapped_bits in E by lia. discriminate.
  - destruct (header.is_valid (header.set_coalesced false h)) eqn:E; [| reflexivity].
    apply valid_nibble, nibble_bits in E. destruct E as (_ & _ & E).
    rewrite set_coalesced_bits in E by lia. discriminate.
Qed.

(** ** Alignment classes and the size-class table *)

(** Property X6.  [get_alignment_for_size] returns a power of two between 64 and
    4096; up to a page it is at least the size, and above a cache line it
    is less than twice the size. *)
Theorem get_alignment_for_size_spec (size : Z) :
  0 <= size ->
  (exists k, 6 <= k <= 12 /\ get_alignment_for_size size = 2 ^ k) /\
  (size <= PG_SIZE -> size <= get_alignment_for_size size) /\
  (CACHE_LINE_SIZE < size -> get_alignment_for_size size < 2 * size).
Proof.
  intros H0. unfold get_alignment_for_size, CACHE_LINE_SIZE, PG_SIZE.
  destruct (Z.leb_spec size 64) as [H64 | H64].
  { split; [exists 6; split; [lia | reflexivity] |]. split; lia. }
  destruct (Z.geb_spec size 4096) as [H4096 | H4096].
  { split; [exists 12; split; [lia | reflexivity] |]. split; lia. }
  unfold clzll. replace (64 - (63 - Z.log2 (size - 1))) with (Z.log2 (size - 1) + 1) by lia.
  rewrite Z.shiftl_1_l.
  pose proof (Z.log2_spec (size - 1) ltac:(lia)) as [Hlo Hhi].
  assert (Hl6 : 6 <= Z.log2 (size - 1)).
  { change 6 with (Z.log2 64). apply Z.log2_le_mono. lia. }
  assert (Hl12 : Z.log2 (size - 1) < 12).
  { apply Z.log2_lt_pow2; lia. }
  replace (Z.succ (Z.log2 (size - 1))) with (Z.log2 (size - 1) + 1) in Hhi by lia.
  rewrite Z.pow_add_r in * by lia. change (2 ^ 1) with 2 in *.
  split; [| split; lia].
  exists (Z.log2 (size - 1) + 1). split; [lia |]. rewrite Z.pow_add_r by lia. reflexivity.
Qed.

Lemma get_alignment_for_size_spec_witness :
  (exists k, 6 <= k <= 12 /\ get_alignment_for_size 600 = 2 ^ k) /\
  (600 <= PG_SIZE -> 600 <= get_alignment_for_size 600) /\
  (CACHE_LINE_SIZE < 600 -> get_alignment_for_size 600 < 2 * 600).
Proof. apply get_alignment_for_size_spec. lia. Defined.

(** Property X7.  The [constexpr] table in closed form.  For the classes 0..12 the
    block size is [2^(i+3)], the slot is the block size raised to at least a
    cache line, and [blocks] is the number of slots in a page (0 from class
    10 on, where a slot is larger than a page).  For the classes 13..31 the
    four [uint16_t] fields are all 0. *)
Theorem size_classes_table (i : Z) :
  0 <= i <= 31 ->
  size_classes i =
    if i <=? 12
    then {| sc_size := 2 ^ (i + 3);
            sc_slot_size := Z.max 64 (2 ^ (i + 3));
            sc_blocks := PG_SIZE / Z.max 64 (2 ^ (i + 3));
            sc_slack := Z.max 64 (2 ^ (i + 3)) - 2 ^ (i + 3) |}
    else {| sc_size := 0; sc_slot_size := 0; sc_blocks := 0; sc_slack := 0 |}.
Proof.
  intros H.
  assert (Hi : i = 0 \/ i = 1 \/ i = 2 \/ i = 3 \/ i = 4 \/ i = 5 \/ i = 6 \/ i = 7 \/
               i = 8 \/ i = 9 \/ i = 10 \/ i = 11 \/ i = 12 \/ i = 13 \/ i = 14 \/
               i = 15 \/ i = 16 \/ i = 17 \/ i = 18 \/ i = 19 \/ i = 20 \/ i = 21 \/
               i = 22 \/ i = 23 \/ i = 24 \/ i = 25 \/ i = 26 \/ i = 27 \/ i = 28 \/
               i = 29 \/ i = 30 \/ i = 31) by lia.
  repeat (destruct Hi as [-> | Hi]; [vm_compute; reflexivity |]).
  subst i. vm_compute. reflexivity.
Qed.

Lemma size_classes_table_witness :
  size_classes 9 =
    {| sc_size := 4096; sc_slot_size := 4096; sc_blocks := 1; sc_slack := 0 |} /\
  size_classes 31 =
    {| sc_size := 0; sc_slot_size := 0; sc_blocks := 0; sc_slack := 0 |}.
Proof.
  split.
  - rewrite size_classes_table by lia. reflexivity.
  - rewrite size_classes_table by lia. reflexivity.
Defined.

(** ** Arrays indexed by [size_t] *)

Lemma nth_def_set_nth_eq {A} (d : A) (l : list A) (i : Z) (x : A) :
  (Z.to_nat i < length l)%nat -> nth_def d (set_nth l i x) i = x.
Proof.
  intros H. unfold nth_def, set_nth.
  rewrite list_lookup_insert_eq by exact H. reflexivity.
Qed.

Lemma nth_def_set_nth_ne {A} (d : A) (l : list A) (i j : Z) (x : A) :
  0 <= i -> 0 <= j -> i <> j -> nth_def d (set_nth l i x) j = nth_def d l j.
Proof.
  intros Hi Hj Hne. unfold nth_def, set_nth.
  rewrite list_lookup_insert_ne by lia. reflexivity.
Qed.

Lemma length_set_nth {A} (l : list A) (i : Z) (x : A) :
  length (set_nth l i x) = length l.
Proof. unfold set_nth. apply length_insert. Qed.

(** ** Thread cache *)

Lemma thread_cache_class (tc : thread_cache_t) (c : Z) :
  thread_cache_ok tc ->
  length (scc_blocks (nth_def empty_size_class_cache (caches tc) c)) = 32%nat /\
  0 <= scc_count (nth_def empty_size_class_cache (caches tc) c).
Proof.
  intros [_ Hall].
  apply (nth_def_Forall
           (fun c => length (scc_blocks c) = 32%nat /\ 0 <= scc_count c)); [exact Hall |].
  split; [reflexivity | cbn; lia].
Qed.

(** Property X8.  The per-class cache is a stack: with room for two more entries,
    [put p] and [put q] both succeed, the next [get] returns [q] and the one
    after returns [p], and the count is then what it was; the other classes
    are not touched. *)
Theorem thread_cache_lifo (tc : thread_cache_t) (p q c : Z) :
  thread_cache_ok tc -> 0 <= c < SIZE_CLASSES ->
  scc_count (nth_def empty_size_class_cache (caches tc) c) + 2 <= CACHE_SIZE ->
  exists tc1 tc2 tc3 tc4,
    thread_cache.put tc p c = (tc1, true) /\
    thread_cache.put tc1 q c = (tc2, true) /\
    thread_cache.get tc2 c = (tc3, q) /\
    thread_cache.get tc3 c = (tc4, p) /\
    scc_count (nth_def empty_size_class_cache (caches tc4) c)
      = scc_count (nth_def empty_size_class_cache (caches tc) c) /\
    forall c', 0 <= c' -> c' <> c ->
      nth_def empty_size_class_cache (caches tc4) c'
        = nth_def empty_size_class_cache (caches tc) c'.
Proof.
  intros Hok Hc Hroom. unfold SIZE_CLASSES in Hc. unfold CACHE_SIZE in Hroom.
  destruct (thread_cache_class tc c Hok) as [Hbl Hk].
  destruct Hok as [Hlen _].
  remember (nth_def empty_size_class_cache (caches tc) c) as c0 eqn:Ec0.
  remember (scc_count c0) as k eqn:Ek.
  assert (Hin : (Z.to_nat c < length (caches tc))%nat) by lia.
  eexists _, _, _, _.
  (* first put *)
  split.
  { unfold thread_cache.put. rewrite <- Ec0, <- Ek. unfold CACHE_SIZE.
    destruct (Z.ltb_spec k 32); [reflexivity | lia]. }
  (* second put *)
  split.
  { unfold thread_cache.put; cbn [caches].
    rewrite nth_def_set_nth_eq by exact Hin. cbn [scc_count scc_blocks].
    unfold CACHE_SIZE. destruct (Z.ltb_spec (k + 1) 32); [reflexivity | lia]. }
  (* first get *)
  split.
  { unfold thread_cache.get; cbn [caches].
    rewrite nth_def_set_nth_eq by (rewrite length_set_nth; exact Hin).
    cbn [scc_count scc_blocks].
    destruct (Z.ltb_spec 0 (k + 1 + 1)); [| lia].
    replace (k + 1 + 1 - 1) with (k + 1) by lia.
    rewrite nth_def_set_nth_eq by (rewrite length_set_nth; lia).
    reflexivity. }
  (* second get *)
  split.
  { unfold thread_cache.get; cbn [caches].
    rewrite nth_def_set_nth_eq by (rewrite !length_set_nth; exact Hin).
    cbn [scc_count scc_blocks].
    destruct (Z.ltb_spec 0 (k + 1)); [| lia].
    replace (k + 1 - 1) with k by lia.
    rewrite nth_def_set_nth_ne by lia.
    rewrite nth_def_set_nth_eq by lia.
    reflexivity. }
  split.
  { cbn [caches]. rewrite nth_def_set_nth_eq by (rewrite !length_set_nth; exact Hin).
    reflexivity. }
  intros c' Hc' Hne. cbn [caches].
  rewrite !nth_def_set_nth_ne by lia. reflexivity.
Qed.

Lemma thread_cache_lifo_witness :
  exists tc1 tc2 tc3 tc4,
    thread_cache.put (thread_cache_ example_state) 0x1000080 12 = (tc1, true) /\
    thread_cache.put tc1 0x1000100 12 = (tc2, true) /\
    thread_cache.get tc2 12 = (tc3, 0x1000100) /\
    thread_cache.get tc3 12 = (tc4, 0x1000080) /\
    scc_count (nth_def empty_size_class_cache (caches tc4) 12)
      = scc_count (nth_def empty_size_class_cache
                     (caches (thread_cache_ example_state)) 12) /\
    forall c', 0 <= c' -> c' <> 12 ->
      nth_def empty_size_class_cache (caches tc4) c'
        = nth_def empty_size_class_cache (caches (thread_cache_ example_state)) c'.
Proof.
  apply thread_cache_lifo.
  - split; [reflexivity |]. apply Forall_forall. intros x Hx.
    apply elem_of_replicate in Hx as [-> _]. split; [reflexivity | cbn; lia].
  - unfold SIZE_CLASSES. lia.
  - vm_compute. discriminate.
Defined.

Lemma nth_def_map_count (l : list size_class_cache) (c : Z) :
  scc_count
    (nth_def empty_size_class_cache
       (map (fun c => {| scc_blocks := scc_blocks c; scc_count := 0 |}) l) c) = 0.
Proof.
  unfold nth_def. generalize (Z.to_nat c) as n.
  induction l as [| a l IH]; intros [| n]; cbn [map]; try reflexivity.
  apply IH.
Qed.

(** After [clear()] every class is empty: [get] returns null for every
    class and leaves the cache as it is. *)
Lemma thread_cache_clear_get (tc : thread_cache_t) (c : Z) :
  thread_cache.get (thread_cache.clear tc) c = (thread_cache.clear tc, 0).
Proof.
  unfold thread_cache.get, thread_cache.clear; cbn [caches].
  rewrite nth_def_map_count. reflexivity.
Qed.

(** ** Bitmap *)

Lemma ctz_pos_testbit (p : positive) : Z.testbit (Z.pos p) (ctz_pos p) = true.
Proof.
  induction p as [p IH | p IH |]; cbn [ctz_pos].
  - change (Z.pos p~1) with (2 * Z.pos p + 1). apply Z.testbit_odd_0.
  - change (Z.pos p~0) with (2 * Z.pos p).
    rewrite Z.testbit_even_succ by apply ctz_pos_nonneg. exact IH.
  - reflexivity.
Qed.

Lemma count_trailing_zeros_testbit (w : Z) :
  0 < w -> Z.testbit w (count_trailing_zeros w) = true.
Proof.
  intros H. destruct w as [| p | p]; try lia. apply ctz_pos_testbit.
Qed.

Lemma count_trailing_zeros_bound (w : Z) :
  0 < w < 2 ^ 64 -> 0 <= count_trailing_zeros w < 64.
Proof.
  intros H. split; [apply count_trailing_zeros_nonneg |].
  destruct (Z_lt_le_dec (count_trailing_zeros w) 64) as [? | Hge]; [assumption |].
  pose proof (count_trailing_zeros_testbit w ltac:(lia)) as Hb.
  rewrite Z.bits_above_log2 in Hb; [discriminate | lia |].
  assert (Z.log2 w < 64) by (apply Z.log2_lt_pow2; lia). lia.
Qed.

(** Setting again the bit that was cleared gives the word back. *)
Lemma clear_set_bit (w b : Z) :
  0 <= b -> Z.testbit w b = true ->
  Z.lor (Z.land w (Z.lnot (Z.shiftl 1 b))) (Z.shiftl 1 b) = w.
Proof.
  intros Hb Hw. apply Z.bits_inj'. intros n Hn.
  change (Z.shiftl 1 b) with (Z.shiftl (Z.b2z true) b) at 2.
  rewrite set_bit_spec by lia.
  destruct (Z.eqb_spec n b) as [-> | _]; [symmetry; exact Hw | reflexivity].
Qed.

Lemma cleared_bit (w b : Z) :
  0 <= b -> Z.testbit (Z.land w (Z.lnot (Z.shiftl 1 b))) b = false.
Proof.
  intros Hb. rewrite Z.land_spec, Z.lnot_spec, testbit_one_shifted by lia.
  rewrite Z.eqb_refl. apply andb_false_r.
Qed.

Lemma cleared_word_range (w b : Z) :
  0 <= w < 2 ^ 64 -> 0 <= b ->
  0 <= Z.land w (Z.lnot (Z.shiftl 1 b)) < 2 ^ 64.
Proof.
  intros Hw Hb. rewrite <- Z.ldiff_land.
  assert (H0 : 0 <= Z.ldiff w (Z.shiftl 1 b)) by (apply Z.ldiff_nonneg; lia).
  split; [exact H0 |].
  destruct (Z.eq_dec (Z.ldiff w (Z.shiftl 1 b)) 0) as [-> | Hne]; [lia |].
  apply Z.log2_lt_pow2; [lia |].
  destruct (Z.eq_dec w 0) as [-> | Hw0]; [rewrite Z.ldiff_0_l in Hne; contradiction |].
  assert (Z.log2 w < 64) by (apply Z.log2_lt_pow2; lia).
  assert (Z.log2 (Z.ldiff w (Z.shiftl 1 b)) <= Z.log2 w); [| lia].
  destruct (Z_lt_le_dec (Z.log2 w) (Z.log2 (Z.ldiff w (Z.shiftl 1 b)))) as [Hlt | ?];
    [| assumption].
  pose proof (Z.bit_log2 (Z.ldiff w (Z.shiftl 1 b)) ltac:(lia)) as Hbit.
  rewrite Z.ldiff_spec in Hbit.
  rewrite (Z.bits_above_log2 w) in Hbit by lia. discriminate.
Qed.

(** What a successful scan of [find_free_block] did: it found the first
    eligible non-zero word, returned the position of its lowest set bit and
    cleared that bit. *)
Lemma find_free_from_found (words : list Z) (mask : Z) (idxs : list nat)
                           (words' : list Z) (idx : Z) :
  Forall (fun w => 0 <= w < 2 ^ 64) words ->
  bitmap.find_free_from words mask idxs = (words', idx) ->
  idx <> SENTINEL ->
  exists i w,
    i ∈ idxs /\ words !! i = Some w /\ 0 < w < 2 ^ 64 /\
    idx = Z.of_nat i * 64 + count_trailing_zeros w /\
    words' = <[i := Z.land w (Z.lnot (Z.shiftl 1 (count_trailing_zeros w)))]> words.
Proof.
  intros Hall. induction idxs as [| i rest IH]; cbn [bitmap.find_free_from]; intros H Hs.
  - injection H as _ <-. contradiction.
  - destruct (negb (Z.land (Z.of_nat i) mask =? 0)).
    { destruct (IH H Hs) as (j & w & Hj & Hrest). exists j, w.
      split; [apply elem_of_cons; right; exact Hj | exact Hrest]. }
    destruct (words !! i) as [w |] eqn:Ew; cbn [default from_option id] in H.
    2:{ change (0 =? 0) with true in H. cbv iota in H.
        destruct (IH H Hs) as (j & w & Hj & Hrest). exists j, w.
        split; [apply elem_of_cons; right; exact Hj | exact Hrest]. }
    destruct (Z.eqb_spec w 0) as [E0 | Hne].
    { destruct (IH H Hs) as (j & w' & Hj & Hrest). exists j, w'.
      split; [apply elem_of_cons; right; exact Hj | exact Hrest]. }
    injection H as <- <-. exists i, w.
    assert (Hw : 0 <= w < 2 ^ 64).
    { rewrite Forall_forall in Hall. apply Hall. eapply list_elem_of_lookup_2. exact Ew. }
    split; [apply elem_of_cons; left; reflexivity |].
    split; [exact Ew |]. split; [lia |]. split; reflexivity.
Qed.

Lemma find_free_block_found (words : list Z) (size : Z) (words' : list Z) (idx : Z) :
  bitmap_ok words ->
  bitmap.find_free_block words size = (words', idx) ->
  idx <> SENTINEL ->
  exists i w b,
    (i < 8)%nat /\ words !! i = Some w /\ 0 <= b < 64 /\ Z.testbit w b = true /\
    idx = Z.of_nat i * 64 + b /\
    words' = <[i := Z.land w (Z.lnot (Z.shiftl 1 b))]> words.
Proof.
  intros [Hlen Hall] H Hs. unfold bitmap.find_free_block in H.
  destruct (find_free_from_found _ _ _ _ _ Hall H Hs) as (i & w & Hi & Hw & Hr & -> & ->).
  exists i, w, (count_trailing_zeros w).
  split.
  { change (Z.to_nat words_per_bitmap) with 8%nat in Hi.
    apply elem_of_seq in Hi. lia. }
  split; [exact Hw |].
  split; [apply count_trailing_zeros_bound; exact Hr |].
  split; [apply count_trailing_zeros_testbit; lia |].
  split; reflexivity.
Qed.

Lemma index_split (i : nat) (b : Z) :
  0 <= b < 64 ->
  (Z.of_nat i * 64 + b) / bits_per_word = Z.of_nat i /\
  (Z.of_nat i * 64 + b) mod bits_per_word = b.
Proof.
  intros Hb. unfold bits_per_word. split.
  - rewrite Z.add_comm, Z.div_add by lia. rewrite Z.div_small by lia. lia.
  - rewrite Z.add_comm, Z.mod_add by lia. apply Z.mod_small. lia.
Qed.

Lemma mark_free_found (words : list Z) (i : nat) (w b : Z) :
  words !! i = Some w -> 0 <= b < 64 -> Z.testbit w b = true ->
  bitmap.mark_free (<[i := Z.land w (Z.lnot (Z.shiftl 1 b))]> words)
                   (Z.of_nat i * 64 + b) = Some words.
Proof.
  intros Hw Hb Hbit. unfold bitmap.mark_free.
  destruct (index_split i b Hb) as [-> ->]. rewrite Nat2Z.id.
  rewrite list_lookup_insert_eq by (eapply lookup_lt_Some; exact Hw).
  rewrite list_insert_insert_eq, clear_set_bit by (lia || assumption).
  rewrite list_insert_id by exact Hw. reflexivity.
Qed.

Lemma find_free_block_keeps_ok (words : list Z) (size : Z) (words' : list Z) (idx : Z) :
  bitmap_ok words ->
  bitmap.find_free_block words size = (words', idx) ->
  idx <> SENTINEL ->
  bitmap_ok words'.
Proof.
  intros Hok H Hs.
  destruct (find_free_block_found words size words' idx Hok H Hs)
    as (i & w & b & Hi & Hw & Hb & Hbit & -> & ->).
  destruct Hok as [Hlen Hall]. split; [rewrite length_insert; exact Hlen |].
  apply Forall_insert; [exact Hall |].
  apply cleared_word_range; [| lia].
  rewrite Forall_forall in Hall. apply Hall. eapply list_elem_of_lookup_2. exact Hw.
Qed.

Lemma find_then_mark (words : list Z) (size : Z) (words' : list Z) (idx : Z) :
  bitmap_ok words ->
  bitmap.find_free_block words size = (words', idx) ->
  idx <> SENTINEL ->
  0 <= idx < 512 /\ bitmap.mark_free words' idx = Some words.
Proof.
  intros Hok H Hs.
  destruct (find_free_block_found words size words' idx Hok H Hs)
    as (i & w & b & Hi & Hw & Hb & Hbit & -> & ->).
  split; [lia |]. apply mark_free_found; assumption.
Qed.

(** Property X10.  Round trip of the bitmap: a successful [find_free_block] returns
    an index below 512 whose bit was set, and [mark_free] of that index
    gives back the bitmap as it was before the search. *)
Theorem bitmap_find_mark_round_trip (words : list Z) (size : Z)
                                    (words' : list Z) (idx : Z) :
  bitmap_ok words ->
  bitmap.find_free_block words size = (words', idx) ->
  idx <> SENTINEL ->
  0 <= idx < 512 /\ bitmap_ok words' /\ bitmap.mark_free words' idx = Some words.
Proof.
  intros Hok H Hs.
  pose proof (find_free_block_keeps_ok words size words' idx Hok H Hs) as Hok'.
  destruct (find_then_mark words size words' idx Hok H Hs) as [Hidx Hmark].
  split; [exact Hidx |]. split; [exact Hok' | exact Hmark].
Qed.

Lemma bitmap_find_mark_round_trip_witness :
  0 <= 0 < 512 /\
  bitmap_ok (2 ^ 64 - 2 :: replicate 7 SIZE_MAX) /\
  bitmap.mark_free (2 ^ 64 - 2 :: replicate 7 SIZE_MAX) 0 = Some fresh_bitmap.
Proof.
  apply (bitmap_find_mark_round_trip fresh_bitmap 48).
  - split; [reflexivity |]. repeat constructor; vm_compute; discriminate.
  - vm_compute. reflexivity.
  - vm_compute. discriminate.
Defined.

(** Property X11.  The bitmap never hands out an index twice: of two successful
    searches in a row, whatever the sizes asked for, the second returns an
    index different from the first. *)
Theorem bitmap_indices_distinct (words : list Z) (size1 size2 : Z)
                                (words1 words2 : list Z) (idx1 idx2 : Z) :
  bitmap_ok words ->
  bitmap.find_free_block words size1 = (words1, idx1) -> idx1 <> SENTINEL ->
  bitmap.find_free_block words1 size2 = (words2, idx2) -> idx2 <> SENTINEL ->
  idx1 <> idx2.
Proof.
  intros Hok H1 Hs1 H2 Hs2.
  pose proof (find_free_block_keeps_ok words size1 words1 idx1 Hok H1 Hs1) as Hok1.
  destruct (find_free_block_found words size1 words1 idx1 Hok H1 Hs1)
    as (i & w & b & Hi & Hw & Hb & Hbit & -> & ->).
  destruct (find_free_block_found _ size2 words2 idx2 Hok1 H2 Hs2)
    as (j & w2 & b2 & Hj & Hw2 & Hb2 & Hbit2 & -> & _).
  intros E. assert (j = i /\ b2 = b) as [-> ->] by lia.
  rewrite list_lookup_insert_eq in Hw2 by (eapply lookup_lt_Some; exact Hw).
  injection Hw2 as <-. rewrite cleared_bit in Hbit2 by lia. discriminate.
Qed.

Lemma bitmap_indices_distinct_witness :
  (bitmap.find_free_block fresh_bitmap 48).2
    <> (bitmap.find_free_block (bitmap.find_free_block fresh_bitmap 48).1 256).2.
Proof.
  apply (bitmap_indices_distinct fresh_bitmap 48 256
           (bitmap.find_free_block fresh_bitmap 48).1
           (bitmap.find_free_block (bitmap.find_free_block fresh_bitmap 48).1 256).1).
  - split; [reflexivity |]. repeat constructor; vm_compute; discriminate.
  - vm_compute. reflexivity.
  - vm_compute. discriminate.
  - vm_compute. reflexivity.
  - vm_compute. discriminate.
Defined.

(** ** Pools *)

(** Property X12.  Round trip of a tiny pool: a block handed out by [allocate_tiny]
    is one of the 31 slots of 128 bytes that follow the bitmap, it lies
    inside the pool's page, and [deallocate_tiny] of that block gives back
    the pool as it was. *)
Theorem tiny_pool_round_trip (tp tp' : tiny_pool) (c ptr : Z) :
  bitmap_ok (tp_bitmap tp) -> 0 <= c < TINY_CLASSES ->
  0 <= tp_base tp -> tp_base tp + PG_SIZE <= 2 ^ 64 ->
  tiny_pool_ops.allocate_tiny tp c = (tp', ptr) -> ptr <> 0 ->
  (exists k, 0 <= k < 31 /\ ptr = tp_base tp + 64 + 128 * k) /\
  ptr + 128 <= tp_base tp + PG_SIZE /\
  tiny_pool_ops.deallocate_tiny tp' ptr c = Some tp.
Proof.
  unfold TINY_CLASSES, PG_SIZE. intros Hok Hc Hb0 Hb1 Ha Hp.
  unfold tiny_pool_ops.allocate_tiny in Ha. rewrite tiny_slot_size in Ha by exact Hc.
  destruct (bitmap.find_free_block (tp_bitmap tp) (8 * (c + 1))) as [words index] eqn:Ef.
  change ((PG_SIZE - sizeof_bitmap) / 128) with 31 in Ha.
  change (PG_SIZE - sizeof_bitmap) with 4032 in Ha.
  unfold pool_memory in Ha. change sizeof_bitmap with 64 in Ha.
  destruct (Z.eqb_spec index SENTINEL) as [Es | Hs]; cbn [negb andb] in Ha.
  { injection Ha as _ <-. contradiction. }
  destruct (Z.ltb_spec index 31) as [Hlt | Hge].
  2:{ injection Ha as _ <-. contradiction. }
  destruct (find_then_mark (tp_bitmap tp) (8 * (c + 1)) words index Hok Ef Hs)
    as (Hidx & Hmark).
  destruct (Z.leb_spec (tp_base tp + 64 + index * 128 + 128) (tp_base tp + 64 + 4032))
    as [_ | Hout]; [| lia].
  injection Ha as <- <-.
  split; [exists index; split; lia |]. split; [lia |].
  unfold tiny_pool_ops.deallocate_tiny. rewrite tiny_slot_size by exact Hc.
  cbn [tp_base tp_bitmap]. unfold pool_memory. change sizeof_bitmap with 64.
  change (PG_SIZE - 64) with 4032.
  replace (tp_base tp + 64 + index * 128 - (tp_base tp + 64)) with (index * 128) by lia.
  rewrite (wrap64_small (index * 128)) by lia.
  rewrite Z.div_mul by lia.
  rewrite (wrap64_small (index * 128)) by lia.
  destruct (Z.ltb_spec (index * 128) 4032); [| lia].
  rewrite Hmark. cbn [mbind option_bind]. destruct tp; reflexivity.
Qed.

Lemma tiny_pool_round_trip_witness :
  (exists k, 0 <= k < 31 /\ 0x1000040 = 0x1000000 + 64 + 128 * k) /\
  0x1000040 + 128 <= 0x1000000 + PG_SIZE /\
  tiny_pool_ops.deallocate_tiny
    {| tp_base := 0x1000000; tp_bitmap := 2 ^ 64 - 2 :: replicate 7 SIZE_MAX |}
    0x1000040 5
  = Some {| tp_base := 0x1000000; tp_bitmap := fresh_bitmap |}.
Proof.
  apply (tiny_pool_round_trip {| tp_base := 0x1000000; tp_bitmap := fresh_bitmap |}).
  - split; [reflexivity |]. repeat constructor; vm_compute; discriminate.
  - unfold TINY_CLASSES. lia.
  - cbn [tp_base]. lia.
  - cbn [tp_base]. unfold PG_SIZE. lia.
  - vm_compute. reflexivity.
  - discriminate.
Defined.

Lemma pool_slot_bounds (c : Z) :
  0 <= c <= 12 -> 64 <= sc_slot_size (size_classes c) <= 32768.
Proof.
  intros H.
  assert (Hc : c = 0 \/ c = 1 \/ c = 2 \/ c = 3 \/ c = 4 \/ c = 5 \/ c = 6 \/ c = 7 \/
               c = 8 \/ c = 9 \/ c = 10 \/ c = 11 \/ c = 12) by lia.
  repeat (destruct Hc as [-> | Hc]; [vm_compute; split; discriminate |]).
  subst c. vm_compute. split; discriminate.
Qed.

(** Property X13.  Round trip of a pool of one of the classes 0..12: the block
    returned by [pool::allocate] is slot [k] after the bitmap, where [k] is
    the index taken from the bitmap, and [pool::deallocate] of that block
    gives back the pool as it was. *)
Theorem pool_round_trip (p p' : pool) (c ptr : Z) :
  bitmap_ok (pool_bitmap p) -> 0 <= c <= 12 ->
  0 <= pool_base p -> pool_base p + 64 + 512 * 32768 <= 2 ^ 64 ->
  pool_ops.allocate p (size_classes c) = (p', ptr) -> ptr <> 0 ->
  (exists k, 0 <= k < 512 /\
             ptr = pool_base p + 64 + k * sc_slot_size (size_classes c)) /\
  pool_ops.deallocate p' ptr (size_classes c) = Some p.
Proof.
  intros Hok Hc Hb0 Hb1 Ha Hp.
  pose proof (pool_slot_bounds c Hc) as Hslot.
  remember (sc_slot_size (size_classes c)) as slot eqn:Eslot.
  unfold pool_ops.allocate in Ha. rewrite <- Eslot in Ha.
  destruct (bitmap.find_free_block (pool_bitmap p) (sc_size (size_classes c)))
    as [words index] eqn:Ef.
  destruct (Z.eqb_spec index SENTINEL) as [Es | Hs]; cbn [negb] in Ha.
  { injection Ha as _ <-. contradiction. }
  destruct (find_then_mark _ _ words index Hok Ef Hs) as (Hidx & Hmark).
  unfold pool_memory in Ha. change sizeof_bitmap with 64 in Ha.
  assert (Hprod : 0 <= index * slot <= 511 * 32768) by nia.
  rewrite wrap64_small in Ha by lia.
  injection Ha as <- <-.
  split; [exists index; split; [lia | reflexivity] |].
  unfold pool_ops.deallocate. rewrite <- Eslot. cbn [pool_base pool_bitmap].
  destruct (Z.eqb_spec slot 0); [lia |].
  unfold pool_memory. change sizeof_bitmap with 64.
  replace (pool_base p + 64 + index * slot - (pool_base p + 64)) with (index * slot) by lia.
  rewrite wrap64_small by lia. rewrite Z.div_mul by lia.
  rewrite Hmark. cbn [mbind option_bind]. destruct p; reflexivity.
Qed.

Lemma pool_round_trip_witness :
  (exists k, 0 <= k < 512 /\
             0x1000040 = 0x1000000 + 64 + k * sc_slot_size (size_classes 9)) /\
  pool_ops.deallocate
    {| pool_base := 0x1000000; pool_bitmap := 2 ^ 64 - 2 :: replicate 7 SIZE_MAX |}
    0x1000040 (size_classes 9)
  = Some {| pool_base := 0x1000000; pool_bitmap := fresh_bitmap |}.
Proof.
  apply (pool_round_trip {| pool_base := 0x1000000; pool_bitmap := fresh_bitmap |}).
  - split; [reflexivity |]. repeat constructor; vm_compute; discriminate.
  - lia.
  - cbn [pool_base]. lia.
  - cbn [pool_base]. lia.
  - vm_compute. reflexivity.
  - discriminate.
Defined.

(** ** Coalescing *)

Lemma hdr_at_upd_eq (m : gmap Z block_header) (a : Z)
                    (f : block_header -> block_header) :
  hdr_at (hdr_upd a f m) a = f (hdr_at m a).
Proof. unfold hdr_upd. apply hdr_at_insert. Qed.

Lemma hdr_at_upd_ne (m : gmap Z block_header) (a b : Z)
                    (f : block_header -> block_header) :
  a <> b -> hdr_at (hdr_upd a f m) b = hdr_at m b.
Proof.
  intros H. unfold hdr_upd, hdr_at. rewrite lookup_insert_ne by exact H. reflexivity.
Qed.

Lemma header_size_range (h : block_header) : 0 <= header.size h < 2 ^ 48.
Proof. unfold header.size. rewrite land_size_mask. apply Z.mod_pos_bound. lia. Qed.

Lemma uint8_size_class (h : block_header) :
  uint8 (header.size_class h) = header.size_class h.
Proof. unfold header.size_class, uint8. apply Z.mod_mod. lia. Qed.

(** Property X14.  What a merge with the next neighbour does.  For a block that is
    neither memory-mapped nor tiny, has no previous neighbour and whose next
    neighbour is free, [try_coalesce] reports a merge; the block's size
    becomes the sum of the two sizes plus one header (kept to 48 bits), its
    class is unchanged, its forward link is the neighbour's forward link, it
    reads as free and coalesced, and the block after the neighbour, if there
    is one, now links back to the block. *)
Theorem try_coalesce_absorbs_next (m : gmap Z block_header) (this nxt nn : Z) :
  header.is_memory_mapped (hdr_at m this) = false ->
  TINY_CLASSES <= header.size_class (hdr_at m this) ->
  prev_physical (hdr_at m this) = 0 ->
  next_physical (hdr_at m this) = nxt -> nxt <> 0 ->
  header.is_free (hdr_at m nxt) = true ->
  next_physical (hdr_at m nxt) = nn -> nn <> this ->
  (try_coalesce m this).2 = true /\
  header.size (hdr_at (try_coalesce m this).1 this)
    = (header.size (hdr_at m this) + header.size (hdr_at m nxt)
       + sizeof_block_header) mod 2 ^ 48 /\
  header.size_class (hdr_at (try_coalesce m this).1 this)
    = header.size_class (hdr_at m this) /\
  next_physical (hdr_at (try_coalesce m this).1 this) = nn /\
  header.is_free (hdr_at (try_coalesce m this).1 this) = true /\
  header.is_coalesced (hdr_at (try_coalesce m this).1 this) = true /\
  (nn <> 0 -> prev_physical (hdr_at (try_coalesce m this).1 nn) = this).
Proof.
  intros Hmm Hcls Hprev Hnext Hnxt Hfree Hnn Hne.
  unfold try_coalesce. rewrite Hmm. unfold TINY_CLASSES in *.
  destruct (Z.ltb_spec (header.size_class (hdr_at m this)) 8); [lia |]. cbn [orb].
  unfold coalesce_next. rewrite Hnext.
  destruct (Z.eqb_spec nxt 0); [contradiction |]. rewrite Hfree. cbn [negb andb].
  cbv zeta. rewrite Hnn.
  rewrite !hdr_at_upd_eq. cbn [next_physical set_next_physical].
  pose proof (header_size_range (hdr_at m this)) as Hs1.
  pose proof (header_size_range (hdr_at m nxt)) as Hs2.
  unfold sizeof_block_header.
  rewrite (wrap64_small (header.size (hdr_at m this) + header.size (hdr_at m nxt) + 64))
    by lia.
  remember (header.size (hdr_at m this) + header.size (hdr_at m nxt) + 64) as combined
    eqn:Ecomb.
  (* the header of [this] after the link updates *)
  remember (hdr_upd this (set_next_physical nn) m) as m1 eqn:Em1.
  remember (if negb (nn =? 0) then hdr_upd nn (set_prev_physical this) m1 else m1)
    as m2 eqn:Em2.
  assert (H2 : hdr_at m2 this = set_next_physical nn (hdr_at m this)).
  { subst m2. destruct (negb (nn =? 0)).
    - rewrite hdr_at_upd_ne by exact Hne. subst m1. apply hdr_at_upd_eq.
    - subst m1. apply hdr_at_upd_eq. }
  remember (hdr_upd this (header.set_coalesced true)
              (hdr_upd this
                 (fun h => header.encode combined (header.size_class h) true h) m2))
    as m4 eqn:Em4.
  assert (H4 : hdr_at m4 this =
               header.set_coalesced true
                 (header.encode combined (header.size_class (hdr_at m this)) true
                    (set_next_physical nn (hdr_at m this)))).
  { subst m4. rewrite !hdr_at_upd_eq, H2. reflexivity. }
  assert (Hp4 : prev_physical (hdr_at m4 this) = 0).
  { rewrite H4. cbn. exact Hprev. }
  unfold coalesce_prev. rewrite Hp4. change (negb (0 =? 0)) with false. cbn [andb fst snd orb].
  destruct (set_coalesced_fields true
              (header.encode combined (header.size_class (hdr_at m this)) true
                 (set_next_physical nn (hdr_at m this))))
    as (Hc1 & Hc2 & Hc3 & Hc4).
  rewrite H4.
  split; [reflexivity |].
  split; [rewrite Hc2; apply size_encode |].
  split; [rewrite Hc3, size_class_encode; apply uint8_size_class |].
  split; [reflexivity |].
  split.
  { rewrite Hc4, is_free_bit.
    apply (nibble_from_bits _ (nibble_encode _ _ _ _)). }
  split; [exact Hc1 |].
  intros Hnn0. subst m4. rewrite !hdr_at_upd_ne by congruence.
  subst m2. destruct (Z.eqb_spec nn 0); [contradiction |]. cbn [negb].
  rewrite hdr_at_upd_eq. reflexivity.
Qed.

Lemma try_coalesce_absorbs_next_witness :
  (try_coalesce example_chain3 0x5000).2 = true /\
  header.size (hdr_at (try_coalesce example_chain3 0x5000).1 0x5000)
    = (header.size (hdr_at example_chain3 0x5000)
       + header.size (hdr_at example_chain3 0x5400)
       + sizeof_block_header) mod 2 ^ 48 /\
  header.size_class (hdr_at (try_coalesce example_chain3 0x5000).1 0x5000)
    = header.size_class (hdr_at example_chain3 0x5000) /\
  next_physical (hdr_at (try_coalesce example_chain3 0x5000).1 0x5000) = 0x5800 /\
  header.is_free (hdr_at (try_coalesce example_chain3 0x5000).1 0x5000) = true /\
  header.is_coalesced (hdr_at (try_coalesce example_chain3 0x5000).1 0x5000) = true /\
  (0x5800 <> 0 ->
   prev_physical (hdr_at (try_coalesce example_chain3 0x5000).1 0x5800) = 0x5000).
Proof.
  apply (try_coalesce_absorbs_next example_chain3 0x5000 0x5400 0x5800).
  - vm_compute. reflexivity.
  - vm_compute. discriminate.
  - vm_compute. reflexivity.
  - vm_compute. reflexivity.
  - discriminate.
  - vm_compute. reflexivity.
  - vm_compute. reflexivity.
  - discriminate.
Defined.

Lemma merged_header_fields (S : Z) (y x : block_header) :
  let h' := header.set_coalesced true
              (header.encode S (header.size_class y) true x) in
  header.size h' = S mod 2 ^ 48 /\
  header.size_class h' = header.size_class y /\
  header.is_coalesced h' = true /\
  next_physical h' = next_physical x /\
  prev_physical h' = prev_physical x.
Proof.
  cbv zeta.
  destruct (set_coalesced_fields true (header.encode S (header.size_class y) true x))
    as (Hc1 & Hc2 & Hc3 & _).
  split; [rewrite Hc2; apply size_encode |].
  split; [rewrite Hc3, size_class_encode; apply uint8_size_class |].
  split; [exact Hc1 |]. split; reflexivity.
Qed.

(** The first half of [try_coalesce]: the block absorbs a free next
    neighbour. *)
Lemma coalesce_next_effect (m : gmap Z block_header) (this : Z) :
  neighbour_free m (next_physical (hdr_at m this)) = true ->
  next_physical (hdr_at m (next_physical (hdr_at m this))) <> this ->
  (coalesce_next m this).2 = true /\
  hdr_at (coalesce_next m this).1 this
    = header.set_coalesced true
        (header.encode
           (header.size (hdr_at m this)
            + header.size (hdr_at m (next_physical (hdr_at m this)))
            + sizeof_block_header)
           (header.size_class (hdr_at m this)) true
           (set_next_physical
              (next_physical (hdr_at m (next_physical (hdr_at m this))))
              (hdr_at m this))) /\
  (forall a, a <> this ->
             a <> next_physical (hdr_at m (next_physical (hdr_at m this))) ->
             hdr_at (coalesce_next m this).1 a = hdr_at m a).
Proof.
  intros Hfree Hne. unfold coalesce_next.
  unfold neighbour_free in Hfree. rewrite Hfree. cbv zeta.
  remember (next_physical (hdr_at m this)) as nxt eqn:Enxt.
  remember (next_physical (hdr_at m nxt)) as nn eqn:Enn.
  rewrite !hdr_at_upd_eq. cbn [next_physical set_next_physical].
  pose proof (header_size_range (hdr_at m this)) as Hs1.
  pose proof (header_size_range (hdr_at m nxt)) as Hs2.
  unfold sizeof_block_header.
  rewrite (wrap64_small (header.size (hdr_at m this) + header.size (hdr_at m nxt) + 64))
    by lia.
  remember (header.size (hdr_at m this) + header.size (hdr_at m nxt) + 64) as combined
    eqn:Ecomb.
  remember (hdr_upd this (set_next_physical nn) m) as m1 eqn:Em1.
  remember (if negb (nn =? 0) then hdr_upd nn (set_prev_physical this) m1 else m1)
    as m2 eqn:Em2.
  assert (H2 : hdr_at m2 this = set_next_physical nn (hdr_at m this)).
  { subst m2. destruct (negb (nn =? 0)).
    - rewrite hdr_at_upd_ne by exact Hne. subst m1. apply hdr_at_upd_eq.
    - subst m1. apply hdr_at_upd_eq. }
  cbn [fst snd]. split; [reflexivity |]. split.
  - rewrite !hdr_at_upd_eq, H2. reflexivity.
  - intros a Ha1 Ha2. rewrite !hdr_at_upd_ne by congruence.
    subst m2. destruct (negb (nn =? 0)).
    + rewrite hdr_at_upd_ne by congruence. subst m1. apply hdr_at_upd_ne. congruence.
    + subst m1. apply hdr_at_upd_ne. congruence.
Qed.

(** The second half: a free previous neighbour absorbs the block. *)
Lemma coalesce_prev_effect (m : gmap Z block_header) (this : Z) :
  neighbour_free m (prev_physical (hdr_at m this)) = true ->
  prev_physical (hdr_at m this) <> this ->
  next_physical (hdr_at m this) <> this ->
  prev_physical (hdr_at m this) <> next_physical (hdr_at m this) ->
  (coalesce_prev m this).2 = true /\
  hdr_at (coalesce_prev m this).1 this = hdr_at m this /\
  hdr_at (coalesce_prev m this).1 (prev_physical (hdr_at m this))
    = header.set_coalesced true
        (header.encode
           (header.size (hdr_at m this)
            + header.size (hdr_at m (prev_physical (hdr_at m this)))
            + sizeof_block_header)
           (header.size_class (hdr_at m (prev_physical (hdr_at m this)))) true
           (set_next_physical (next_physical (hdr_at m this))
              (hdr_at m (prev_physical (hdr_at m this))))).
Proof.
  intros Hfree Hp Hn Hpn. unfold coalesce_prev.
  unfold neighbour_free in Hfree. rewrite Hfree. cbv zeta.
  remember (prev_physical (hdr_at m this)) as prv eqn:Eprv.
  remember (next_physical (hdr_at m this)) as nxt eqn:Enxt.
  pose proof (header_size_range (hdr_at m this)) as Hs1.
  pose proof (header_size_range (hdr_at m prv)) as Hs2.
  unfold sizeof_block_header.
  rewrite (wrap64_small (header.size (hdr_at m this) + header.size (hdr_at m prv) + 64))
    by lia.
  remember (header.size (hdr_at m this) + header.size (hdr_at m prv) + 64) as combined
    eqn:Ecomb.
  remember (hdr_upd prv (set_next_physical nxt) m) as m1 eqn:Em1.
  assert (H1 : hdr_at m1 this = hdr_at m this).
  { subst m1. apply hdr_at_upd_ne. congruence. }
  rewrite H1, <- Enxt, <- Eprv.
  remember (if negb (nxt =? 0) then hdr_upd nxt (set_prev_physical prv) m1 else m1)
    as m2 eqn:Em2.
  assert (H2 : hdr_at m2 this = hdr_at m this).
  { subst m2. destruct (negb (nxt =? 0)); [| exact H1].
    rewrite hdr_at_upd_ne by congruence. exact H1. }
  assert (H2p : hdr_at m2 prv = set_next_physical nxt (hdr_at m prv)).
  { subst m2. destruct (negb (nxt =? 0)).
    - rewrite hdr_at_upd_ne by congruence. subst m1. apply hdr_at_upd_eq.
    - subst m1. apply hdr_at_upd_eq. }
  rewrite H2, <- Eprv.
  remember (hdr_upd prv (fun h => header.encode combined (header.size_class h) true h) m2)
    as m3 eqn:Em3.
  assert (H3 : hdr_at m3 this = hdr_at m this).
  { subst m3. rewrite hdr_at_upd_ne by congruence. exact H2. }
  rewrite H3, <- Eprv. cbn [fst snd].
  split; [reflexivity |]. split.
  - rewrite hdr_at_upd_ne by congruence. exact H3.
  - rewrite hdr_at_upd_eq. subst m3. rewrite hdr_at_upd_eq, H2p. reflexivity.
Qed.

Lemma coalesce_prev_unchanged (m : gmap Z block_header) (this : Z) :
  neighbour_free m (prev_physical (hdr_at m this)) = false ->
  coalesce_prev m this = (m, false).
Proof.
  unfold coalesce_prev, neighbour_free. intros H. rewrite H. reflexivity.
Qed.

Lemma coalesce_next_none (m : gmap Z block_header) (this : Z) :
  neighbour_free m (next_physical (hdr_at m this)) = false ->
  coalesce_next m this = (m, false).
Proof.
  unfold coalesce_next, neighbour_free. intros H. rewrite H. reflexivity.
Qed.

Lemma neighbour_free_nonnull (m : gmap Z block_header) (a : Z) :
  neighbour_free m a = true -> a <> 0.
Proof.
  unfold neighbour_free. destruct (Z.eqb_spec a 0); [discriminate | intros _; assumption].
Qed.

(** Claim C6, amended.  On a proper chain [try_coalesce] merges the block
    with its next physical neighbour if and only if the block itself is
    neither memory-mapped nor of a tiny class and the next neighbour exists
    and is free: the block then takes the sum of the two sizes plus one
    header (kept to 48 bits), the neighbour's forward link and the
    coalesced flag, and otherwise its header is left as it is.  The previous
    neighbour absorbs the block under the same condition on the block itself
    when that neighbour exists and is free: it takes the sum of its size and
    the block's size at that point plus one header, the block's forward link
    and the coalesced flag, and otherwise its header is left as it is.  The
    size class and the memory-mapped flag of a neighbour are not looked at.
    The call returns [true] exactly when one of the two merges took
    place. *)
Theorem try_coalesce_merges_iff (m : gmap Z block_header) (this : Z) :
  proper_chain m this ->
  let h := hdr_at m this in
  let nxt := next_physical h in
  let prv := prev_physical h in
  let eligible :=
    negb (header.is_memory_mapped h || (header.size_class h <? TINY_CLASSES)) in
  let with_next := eligible && neighbour_free m nxt in
  let with_prev := eligible && neighbour_free m prv in
  let m' := (try_coalesce m this).1 in
  (try_coalesce m this).2 = with_next || with_prev /\
  (with_next = true ->
     header.size (hdr_at m' this)
       = (header.size h + header.size (hdr_at m nxt) + sizeof_block_header) mod 2 ^ 48 /\
     next_physical (hdr_at m' this) = next_physical (hdr_at m nxt) /\
     header.size_class (hdr_at m' this) = header.size_class h /\
     header.is_coalesced (hdr_at m' this) = true) /\
  (with_next = false -> hdr_at m' this = h) /\
  (with_prev = true ->
     header.size (hdr_at m' prv)
       = (header.size (hdr_at m' this) + header.size (hdr_at m prv)
          + sizeof_block_header) mod 2 ^ 48 /\
     next_physical (hdr_at m' prv) = next_physical (hdr_at m' this) /\
     header.size_class (hdr_at m' prv) = header.size_class (hdr_at m prv) /\
     header.is_coalesced (hdr_at m' prv) = true) /\
  (with_prev = false -> prv <> 0 -> hdr_at m' prv = hdr_at m prv).
Proof.
  intros (Hobj & Hthis & Hnx & Hpv). cbv zeta. unfold try_coalesce.
  destruct (header.is_memory_mapped (hdr_at m this)
            || (header.size_class (hdr_at m this) <? TINY_CLASSES)).
  { cbn [negb andb orb fst snd].
    split; [reflexivity |]. split; [discriminate |]. split; [reflexivity |].
    split; [discriminate | reflexivity]. }
  cbn [negb andb].
  remember (next_physical (hdr_at m this)) as nxt eqn:Enxt.
  remember (prev_physical (hdr_at m this)) as prv eqn:Eprv.
  destruct (neighbour_free m nxt) eqn:Fn.
  - (* the next neighbour is absorbed *)
    pose proof (neighbour_free_nonnull _ _ Fn) as Hn0.
    destruct (Hnx Hn0) as (_ & Hnt & Hnnt & _).
    rewrite Enxt in Fn, Hnnt.
    destruct (coalesce_next_effect m this Fn Hnnt) as (Hc1 & Hh1 & Hrest).
    rewrite <- Enxt in Hh1, Hrest, Fn, Hnnt.
    destruct (coalesce_next m this) as [m1 c1]. cbn [fst snd] in Hc1, Hh1, Hrest.
    subst c1.
    destruct (merged_header_fields
                (header.size (hdr_at m this) + header.size (hdr_at m nxt)
                 + sizeof_block_header)
                (hdr_at m this)
                (set_next_physical (next_physical (hdr_at m nxt)) (hdr_at m this)))
      as (Hf1 & Hf2 & Hf3 & Hf4 & Hf5).
    cbv zeta in Hf1, Hf2, Hf3, Hf4, Hf5. rewrite <- Hh1 in Hf1, Hf2, Hf3, Hf4, Hf5.
    cbn [next_physical prev_physical set_next_physical] in Hf4, Hf5.
    rewrite <- Eprv in Hf5.
    assert (Hprv1 : prv <> 0 -> hdr_at m1 prv = hdr_at m prv).
    { intros Hp0. destruct (Hpv Hp0) as (_ & Hpt & _ & Hpn).
      apply Hrest; [exact Hpt | exact (Hpn Hn0)]. }
    assert (Fp1 : neighbour_free m1 prv = neighbour_free m prv).
    { unfold neighbour_free. destruct (Z.eqb_spec prv 0); [reflexivity |].
      rewrite Hprv1 by assumption. reflexivity. }
    destruct (neighbour_free m prv) eqn:Fp.
    + pose proof (neighbour_free_nonnull _ _ Fp) as Hp0.
      destruct (Hpv Hp0) as (_ & Hpt & _ & Hpn). specialize (Hpn Hn0).
      assert (Fp1' : neighbour_free m1 (prev_physical (hdr_at m1 this)) = true)
        by (rewrite Hf5; exact Fp1).
      destruct (coalesce_prev_effect m1 this Fp1') as (Hc2 & Hh2 & Hp2).
      { rewrite Hf5. exact Hpt. }
      { rewrite Hf4. exact Hnnt. }
      { rewrite Hf5, Hf4. exact Hpn. }
      rewrite Hf5, Hf4 in Hp2. rewrite (Hprv1 Hp0) in Hp2.
      destruct (coalesce_prev m1 this) as [m2 c2]. cbn [fst snd] in Hc2, Hh2, Hp2 |- *.
      subst c2.
      destruct (merged_header_fields
                  (header.size (hdr_at m1 this) + header.size (hdr_at m prv)
                   + sizeof_block_header)
                  (hdr_at m prv)
                  (set_next_physical (next_physical (hdr_at m nxt)) (hdr_at m prv)))
        as (Hg1 & Hg2 & Hg3 & Hg4 & _).
      cbv zeta in Hg1, Hg2, Hg3, Hg4. rewrite <- Hp2 in Hg1, Hg2, Hg3, Hg4.
      cbn [next_physical set_next_physical] in Hg4.
      rewrite Hh2.
      split; [reflexivity |].
      split; [intros _; repeat split; assumption |].
      split; [discriminate |].
      split; [intros _; rewrite Hf4; repeat split; assumption | discriminate].
    + rewrite (coalesce_prev_unchanged m1 this) by (rewrite Hf5; exact Fp1).
      cbn [fst snd].
      split; [reflexivity |].
      split; [intros _; repeat split; assumption |].
      split; [discriminate |].
      split; [discriminate | intros _; exact Hprv1].
  - (* no merge with the next neighbour *)
    rewrite Enxt in Fn. rewrite (coalesce_next_none m this Fn). rewrite <- Enxt in Fn.
    destruct (neighbour_free m prv) eqn:Fp.
    + pose proof (neighbour_free_nonnull _ _ Fp) as Hp0.
      destruct (Hpv Hp0) as (_ & Hpt & Hpx & _).
      assert (Hnt : nxt <> this).
      { destruct (Z.eq_dec nxt 0) as [-> | Hn0]; [congruence |].
        destruct (Hnx Hn0) as (_ & Hnt & _). exact Hnt. }
      rewrite Eprv in Fp.
      destruct (coalesce_prev_effect m this Fp) as (Hc2 & Hh2 & Hp2).
      { rewrite <- Eprv. exact Hpt. }
      { rewrite <- Enxt. exact Hnt. }
      { rewrite <- Eprv, <- Enxt. exact Hpx. }
      rewrite <- Eprv, <- Enxt in Hp2.
      destruct (coalesce_prev m this) as [m2 c2]. cbn [fst snd] in Hc2, Hh2, Hp2 |- *.
      subst c2.
      destruct (merged_header_fields
                  (header.size (hdr_at m this) + header.size (hdr_at m prv)
                   + sizeof_block_header)
                  (hdr_at m prv)
                  (set_next_physical nxt (hdr_at m prv)))
        as (Hg1 & Hg2 & Hg3 & Hg4 & _).
      cbv zeta in Hg1, Hg2, Hg3, Hg4. rewrite <- Hp2 in Hg1, Hg2, Hg3, Hg4.
      cbn [next_physical set_next_physical] in Hg4.
      rewrite Hh2, <- Enxt.
      split; [reflexivity |].
      split; [discriminate |].
      split; [reflexivity |].
      split; [intros _; repeat split; assumption | discriminate].
    + rewrite Eprv in Fp. rewrite (coalesce_prev_unchanged m this Fp).
      cbn [fst snd].
      split; [reflexivity |]. split; [discriminate |]. split; [reflexivity |].
      split; [discriminate | reflexivity].
Qed.

Lemma example_chain3_proper : proper_chain example_chain3 0x5400.
Proof.
  unfold proper_chain.
  change (next_physical (hdr_at example_chain3 0x5400)) with 0x5800.
  change (prev_physical (hdr_at example_chain3 0x5400)) with 0x5000.
  change (next_physical (hdr_at example_chain3 0x5800)) with 0.
  split; [vm_compute; eexists; reflexivity |].
  split; [discriminate |].
  split; intros _.
  - split; [vm_compute; eexists; reflexivity |].
    split; [discriminate |]. split; [discriminate | intros H; contradiction].
  - split; [vm_compute; eexists; reflexivity |].
    split; [discriminate |]. split; [discriminate | intros _; discriminate].
Qed.

Lemma try_coalesce_merges_iff_witness :
  (try_coalesce example_chain3 0x5400).2 = true /\
  header.size (hdr_at (try_coalesce example_chain3 0x5400).1 0x5400) = 564 /\
  next_physical (hdr_at (try_coalesce example_chain3 0x5400).1 0x5400) = 0 /\
  header.size (hdr_at (try_coalesce example_chain3 0x5400).1 0x5000) = 1228 /\
  next_physical (hdr_at (try_coalesce example_chain3 0x5400).1 0x5000) = 0.
Proof.
  pose proof (try_coalesce_merges_iff example_chain3 0x5400 example_chain3_proper) as H.
  cbv zeta in H.
  change (prev_physical (hdr_at example_chain3 0x5400)) with 0x5000 in H.
  change (next_physical (hdr_at example_chain3 0x5400)) with 0x5800 in H.
  destruct H as (Hr & Hn & _ & Hp & _).
  specialize (Hn ltac:(vm_compute; reflexivity)).
  specialize (Hp ltac:(vm_compute; reflexivity)).
  destruct Hn as (Hn1 & Hn2 & _). destruct Hp as (Hp1 & Hp2 & _).
  split; [rewrite Hr; vm_compute; reflexivity |].
  split; [rewrite Hn1; vm_compute; reflexivity |].
  split; [rewrite Hn2; vm_compute; reflexivity |].
  split; [rewrite Hp1, Hn1; vm_compute; reflexivity |].
  rewrite Hp2, Hn2. vm_compute. reflexivity.
Defined.


(** ** Large-block cache *)

Lemma log2_size_bounds (size : Z) :
  MIN_CACHE_BLOCK < size <= MAX_CACHE_BLOCK -> 12 <= Z.log2 (size - 1) <= 23.
Proof.
  unfold MIN_CACHE_BLOCK, MAX_CACHE_BLOCK. intros H. split.
  - change 12 with (Z.log2 4096). apply Z.log2_le_mono. lia.
  - assert (Z.log2 (size - 1) < 24); [| lia]. apply Z.log2_lt_pow2; lia.
Qed.

Lemma get_bucket_index_x86_64_eq (size : Z) :
  MIN_CACHE_BLOCK <= size <= MAX_CACHE_BLOCK ->
  large_block_cache.get_bucket_index x86_64 size
  = if size =? MIN_CACHE_BLOCK then 1 else Z.log2 (size - 1) - 11.
Proof.
  intros H. unfold large_block_cache.get_bucket_index, clzll.
  destruct (Z.eqb_spec size MIN_CACHE_BLOCK) as [-> | Hne].
  - reflexivity.
  - destruct (Z.gtb_spec size MIN_CACHE_BLOCK); [| lia].
    pose proof (log2_size_bounds size ltac:(lia)).
    replace (63 - (63 - Z.log2 (size - 1)) - 11) with (Z.log2 (size - 1) - 11) by lia.
    apply wrap64_small. lia.
Qed.

(** Property X15.  The bucket index of the [x86_64] build: [log2(size - 1) - 11] (1
    for a block of exactly 4 KiB).  For the sizes the cache looks at it lies
    between 1 and 12, so bucket 0 is never used, and it names one of the 8
    buckets exactly when the size is at most 512 KiB. *)
Theorem get_bucket_index_x86_64 (size : Z) :
  MIN_CACHE_BLOCK <= size <= MAX_CACHE_BLOCK ->
  large_block_cache.get_bucket_index x86_64 size
    = (if size =? MIN_CACHE_BLOCK then 1 else Z.log2 (size - 1) - 11) /\
  1 <= large_block_cache.get_bucket_index x86_64 size <= 12 /\
  (large_block_cache.get_bucket_index x86_64 size < NUM_BUCKETS
   <-> size <= 512 * 1024).
Proof.
  intros H. rewrite get_bucket_index_x86_64_eq by exact H.
  split; [reflexivity |].
  unfold NUM_BUCKETS. destruct (Z.eqb_spec size MIN_CACHE_BLOCK) as [-> | Hne].
  - unfold MIN_CACHE_BLOCK. split; [lia |]. split; lia.
  - pose proof (log2_size_bounds size ltac:(lia)) as Hl.
    unfold MIN_CACHE_BLOCK, MAX_CACHE_BLOCK in *.
    split; [lia |]. split; intros Hlt.
    + assert (size - 1 < 2 ^ 19); [| lia].
      apply Z.log2_lt_pow2; lia.
    + assert (Z.log2 (size - 1) < 19); [| lia].
      apply Z.log2_lt_pow2; lia.
Qed.

Lemma get_bucket_index_x86_64_witness :
  large_block_cache.get_bucket_index x86_64 (8 * 1024 * 1024)
    = (if 8 * 1024 * 1024 =? MIN_CACHE_BLOCK
       then 1 else Z.log2 (8 * 1024 * 1024 - 1) - 11) /\
  1 <= large_block_cache.get_bucket_index x86_64 (8 * 1024 * 1024) <= 12 /\
  (large_block_cache.get_bucket_index x86_64 (8 * 1024 * 1024) < NUM_BUCKETS
   <-> 8 * 1024 * 1024 <= 512 * 1024).
Proof.
  apply get_bucket_index_x86_64. unfold MIN_CACHE_BLOCK, MAX_CACHE_BLOCK. lia.
Defined.

(** Property X16.  On the [x86_64] build a block of more than 512 KiB is never
    cached: [cache_block] refuses it and [get_cached_block] misses, both
    leaving the cache as it is. *)
Theorem large_cache_x86_64_above_512K (c : large_block_cache_t) (ptr size now : Z) :
  512 * 1024 < size ->
  large_block_cache.cache_block x86_64 c ptr size now = (c, false) /\
  large_block_cache.get_cached_block x86_64 c size = (c, 0).
Proof.
  intros H.
  assert (Hidx : (size <? MIN_CACHE_BLOCK) || (size >? MAX_CACHE_BLOCK) = false ->
                 (large_block_cache.get_bucket_index x86_64 size >=? NUM_BUCKETS) = true).
  { intros Hb. apply orb_false_iff in Hb as [Hlo Hhi].
    apply Z.ltb_ge in Hlo. rewrite Z.gtb_ltb in Hhi. apply Z.ltb_ge in Hhi.
    rewrite get_bucket_index_x86_64_eq by lia.
    unfold MIN_CACHE_BLOCK, MAX_CACHE_BLOCK, NUM_BUCKETS in *.
    destruct (Z.eqb_spec size (4 * 1024)); [lia |].
    apply Z.geb_le.
    assert (19 <= Z.log2 (size - 1)); [| lia].
    change 19 with (Z.log2 (2 ^ 19)). apply Z.log2_le_mono. lia. }
  unfold large_block_cache.cache_block, large_block_cache.get_cached_block.
  destruct ((size <? MIN_CACHE_BLOCK) || (size >? MAX_CACHE_BLOCK)); [split; reflexivity |].
  rewrite Hidx by reflexivity. split; reflexivity.
Qed.

Lemma large_cache_x86_64_above_512K_witness :
  large_block_cache.cache_block x86_64 empty_large_cache 0x1000040 (8 * 1024 * 1024) 1
    = (empty_large_cache, false) /\
  large_block_cache.get_cached_block x86_64 empty_large_cache (8 * 1024 * 1024)
    = (empty_large_cache, 0).
Proof. apply large_cache_x86_64_above_512K. lia. Defined.

Lemma bucket_loop_spec (fuel : nat) (size i : Z) :
  0 <= i <= 7 -> 7 - i < Z.of_nat fuel ->
  (0 < i -> MIN_CACHE_BLOCK * 2 ^ (i - 1) < size) ->
  i <= large_block_cache.bucket_loop fuel size (MIN_CACHE_BLOCK * 2 ^ i) i <= 7 /\
  (large_block_cache.bucket_loop fuel size (MIN_CACHE_BLOCK * 2 ^ i) i < 7 ->
   size <= MIN_CACHE_BLOCK
           * 2 ^ large_block_cache.bucket_loop fuel size (MIN_CACHE_BLOCK * 2 ^ i) i) /\
  (0 < large_block_cache.bucket_loop fuel size (MIN_CACHE_BLOCK * 2 ^ i) i ->
   MIN_CACHE_BLOCK
   * 2 ^ (large_block_cache.bucket_loop fuel size (MIN_CACHE_BLOCK * 2 ^ i) i - 1) < size).
Proof.
  revert i. induction fuel as [| f IH]; intros i Hi Hf Hlow; [lia |].
  cbn [large_block_cache.bucket_loop]. unfold NUM_BUCKETS.
  change (8 - 1) with 7.
  destruct (Z.ltb_spec (MIN_CACHE_BLOCK * 2 ^ i) size) as [Hth | Hth];
    destruct (Z.ltb_spec i 7) as [Hi7 | Hi7]; cbn [andb].
  - assert (Hnext : wrap64 (Z.shiftl (MIN_CACHE_BLOCK * 2 ^ i) 1)
                    = MIN_CACHE_BLOCK * 2 ^ (i + 1)).
    { rewrite Z.shiftl_mul_pow2 by lia. rewrite Z.pow_add_r by lia.
      change (2 ^ 1) with 2. rewrite Z.mul_assoc.
      apply wrap64_small. unfold MIN_CACHE_BLOCK.
      assert (0 < 2 ^ i <= 2 ^ 6).
      { split; [apply Z.pow_pos_nonneg; lia | apply Z.pow_le_mono_r; lia]. }
      change (2 ^ 6) with 64 in *. lia. }
    rewrite Hnext.
    destruct (IH (i + 1)) as (H1 & H2 & H3); [lia | lia | |].
    + intros _. replace (i + 1 - 1) with i by lia. exact Hth.
    + split; [lia |]. split; assumption.
  - split; [lia |]. split; [lia | exact Hlow].
  - split; [lia |]. split; [intros _; exact Hth | exact Hlow].
  - split; [lia |]. split; [lia | exact Hlow].
Qed.

(** Property X17.  The bucket index of the portable build: the smallest [i] with
    [size <= 4 KiB * 2^i], capped at 7.  So bucket [i] below 7 holds the
    sizes in [(4 KiB * 2^(i-1), 4 KiB * 2^i]], and bucket 7 everything above
    256 KiB. *)
Theorem get_bucket_index_portable (size : Z) :
  0 <= large_block_cache.get_bucket_index portable size <= 7 /\
  (large_block_cache.get_bucket_index portable size < 7 ->
   size <= MIN_CACHE_BLOCK * 2 ^ large_block_cache.get_bucket_index portable size) /\
  (0 < large_block_cache.get_bucket_index portable size ->
   MIN_CACHE_BLOCK * 2 ^ (large_block_cache.get_bucket_index portable size - 1) < size).
Proof.
  unfold large_block_cache.get_bucket_index.
  pose proof (bucket_loop_spec 8 size 0 ltac:(lia) ltac:(lia) ltac:(lia)) as H.
  change (MIN_CACHE_BLOCK * 2 ^ 0) with MIN_CACHE_BLOCK in H. exact H.
Qed.

(** Property X18.  Round trip through a vacant bucket: when the size belongs to one
    of the 8 buckets, that bucket is vacant and the budget of 64 MiB has
    room, [cache_block] stores the block and adds its size to the counter,
    and the next [get_cached_block] of the same size returns the block and
    brings the counter back. *)
Theorem large_cache_round_trip (t : target) (c : large_block_cache_t)
                               (ptr size now : Z) :
  length (buckets c) = 8%nat ->
  MIN_CACHE_BLOCK <= size <= MAX_CACHE_BLOCK -> ptr <> 0 ->
  large_block_cache.get_bucket_index t size < NUM_BUCKETS ->
  bucket_vacant (nth_def empty_bucket (buckets c)
                   (large_block_cache.get_bucket_index t size)) ->
  0 <= total_cached c -> total_cached c + size <= MAX_CACHE_SIZE ->
  exists c1 c2,
    large_block_cache.cache_block t c ptr size now = (c1, true) /\
    total_cached c1 = total_cached c + size /\
    large_block_cache.get_cached_block t c1 size = (c2, ptr) /\
    total_cached c2 = total_cached c.
Proof.
  intros Hlen Hsize Hptr Hidx (Hcnt & Hel & Hp0) Ht0 Ht1.
  pose proof (get_bucket_index_nonneg t size) as Hge.
  remember (large_block_cache.get_bucket_index t size) as idx eqn:Eidx.
  remember (nth_def empty_bucket (buckets c) idx) as b eqn:Eb.
  unfold NUM_BUCKETS in Hidx.
  assert (Hbnd : (size <? MIN_CACHE_BLOCK) || (size >? MAX_CACHE_BLOCK) = false).
  { apply orb_false_iff. split; [apply Z.ltb_ge; lia |].
    rewrite Z.gtb_ltb. apply Z.ltb_ge. lia. }
  assert (Hnb : (idx >=? NUM_BUCKETS) = false).
  { unfold NUM_BUCKETS. destruct (Z.geb_spec idx 8); [lia | reflexivity]. }
  unfold MIN_CACHE_BLOCK, MAX_CACHE_BLOCK, MAX_CACHE_SIZE in Hsize, Ht1.
  assert (Hw : wrap64 (total_cached c + size) = total_cached c + size)
    by (apply wrap64_small; lia).
  eexists _, _.
  assert (Hput : large_block_cache.cache_block t c ptr size now
                 = (large_block_cache.put_bucket c idx
                      {| sb_count := 1;
                         entries := set_nth (entries b) 0
                                      {| ce_ptr := ptr; ce_size := size;
                                         last_use := now |} |}
                      (total_cached c + size), true)).
  { unfold large_block_cache.cache_block. rewrite Hbnd, <- Eidx, Hnb, Hw, <- Eb, Hcnt, Hp0.
    unfold MAX_CACHE_SIZE. destruct (Z.gtb_spec (total_cached c + size) (64 * 1024 * 1024));
      [lia |].
    reflexivity. }
  split; [exact Hput |]. split; [reflexivity |].
  assert (Hb' : forall B T,
            nth_def empty_bucket (buckets (large_block_cache.put_bucket c idx B T)) idx = B).
  { intros B T. unfold large_block_cache.put_bucket; cbn [buckets].
    apply nth_def_set_nth_eq. lia. }
  unfold large_block_cache.get_cached_block. rewrite Hbnd, <- Eidx, Hnb.
  rewrite Hb'. cbn [sb_count].
  change (Z.to_nat 1) with 1%nat. cbn [large_block_cache.scan_entries entries].
  rewrite nth_def_set_nth_eq by (rewrite Hel; cbn; lia). cbn [ce_ptr ce_size].
  destruct (Z.eqb_spec ptr 0); [contradiction |].
  destruct (Z.leb_spec size size); [| lia].
  unfold within_ratio. destruct (Z.leb_spec (4 * size) (5 * size)); [| lia].
  cbn [negb andb ce_ptr ce_size].
  split; [reflexivity |].
  unfold large_block_cache.put_bucket; cbn [total_cached].
  replace (total_cached c + size - size) with (total_cached c) by lia.
  apply wrap64_small. lia.
Qed.

Lemma large_cache_round_trip_witness :
  exists c1 c2,
    large_block_cache.cache_block portable empty_large_cache 0x1000040 (8 * 1024 * 1024) 1
      = (c1, true) /\
    total_cached c1 = total_cached empty_large_cache + 8 * 1024 * 1024 /\
    large_block_cache.get_cached_block portable c1 (8 * 1024 * 1024) = (c2, 0x1000040) /\
    total_cached c2 = total_cached empty_large_cache.
Proof.
  apply large_cache_round_trip.
  - reflexivity.
  - unfold MIN_CACHE_BLOCK, MAX_CACHE_BLOCK. lia.
  - discriminate.
  - vm_compute. reflexivity.
  - vm_compute. repeat split.
  - vm_compute. discriminate.
  - vm_compute. discriminate.
Defined.

(** After [clear()] the cache holds nothing a caller can get: every
    [get_cached_block] misses and leaves the cache as it is. *)
Lemma large_cache_clear_get (t : target) (c : large_block_cache_t)
                              (o : os_state) (size : Z) :
  large_block_cache.get_cached_block t (large_block_cache.clear c o).1 size
  = ((large_block_cache.clear c o).1, 0).
Proof.
  unfold large_block_cache.get_cached_block.
  destruct (_ || _); [reflexivity |].
  destruct (_ >=? NUM_BUCKETS); [reflexivity |].
  assert (H : sb_count (nth_def empty_bucket
                          (buckets (large_block_cache.clear c o).1)
                          (large_block_cache.get_bucket_index t size)) = 0).
  { apply (nth_def_Forall (fun b => sb_count b = 0)); [| reflexivity].
    unfold large_block_cache.clear.
    pose proof (clear_buckets_counts (buckets c) o) as Hc.
    destruct (large_block_cache.clear_buckets (buckets c) o) as [bs o'].
    exact Hc. }
  rewrite H. reflexivity.
Qed.

(** ** [deallocate] *)

Lemma deallocate_keeps (t : target) (s s' : state) (p : Z) :
  deallocate t s p = Some s' ->
  hdrs s' = hdrs s /\ bytes s' = bytes s /\
  thread_cache_ s' = thread_cache_ s /\
  pool_manager_ s' = pool_manager_ s /\
  tiny_pools_ s' = tiny_pools_ s /\
  os_live (os s') = os_live (os s).
Proof.
  unfold deallocate.
  destruct (p =? 0); [intros H; injection H as <-; repeat split |].
  destruct (negb (header_readable (hdrs s) p)); [discriminate |].
  destruct (negb (is_aligned (hdrs s) p)); [intros H; injection H as <-; repeat split |].
  destruct (header.is_valid (hdr_at (hdrs s) (header_of p))) eqn:Hv;
    [| intros H; injection H as <-; repeat split].
  rewrite (valid_is_free _ Hv), (valid_not_memory_mapped _ Hv). cbn [negb].
  destruct (align_down p PG_SIZE =? 0); [intros H; injection H as <-; repeat split |].
  destruct (_ && _); [intros H; injection H as <-; repeat split |].
  destruct (_ <? TINY_CLASSES); [intros H; injection H as <-; repeat split |].
  destruct (_ =? 255); [| intros H; injection H as <-; repeat split].
  destruct (large_block_cache.cache_block _ _ _ _ _) as [c [|]]; [| discriminate].
  intros H; injection H as <-. repeat split.
Qed.

(** Property X20.  Whenever [deallocate] returns, whatever the pointer, it
    has changed at most the large-block cache and the time-stamp counter:
    the headers, the payload bytes, the thread cache, the pools of the pool
    manager, the tiny pools and the regions handed out by the environment
    are as before.  A header that passes [is_valid] reads as free and as not
    memory-mapped, so the tiny and the small/medium branches stop at their
    free-flag test and the class-255 branch never unmaps; no block ever
    goes back to a pool, into the thread cache or to the environment.  The
    call is undefined in two cases only, both on a pointer that is not null:
    the header read of [is_aligned] is undefined; or the pointer passes
    validation, lies outside page 0, its class is 255 and the large-block
    cache refuses the block, which then goes to [free]. *)
Theorem deallocate_touches_only_large_cache (t : target) (s : state) (p : Z) :
  (forall s', deallocate t s p = Some s' ->
     hdrs s' = hdrs s /\ bytes s' = bytes s /\
     thread_cache_ s' = thread_cache_ s /\
     pool_manager_ s' = pool_manager_ s /\
     tiny_pools_ s' = tiny_pools_ s /\
     os_live (os s') = os_live (os s)) /\
  (deallocate t s p = None <->
   p <> 0 /\
   (header_readable (hdrs s) p = false \/
    (is_aligned (hdrs s) p = true /\
     header.is_valid (hdr_at (hdrs s) (header_of p)) = true /\
     align_down p PG_SIZE <> 0 /\
     header.size_class (hdr_at (hdrs s) (header_of p)) = 255 /\
     (large_block_cache.cache_block t (large_block_cache_ s) p
        (header.size (hdr_at (hdrs s) (header_of p))) (os_clock (os s))).2 = false))).
Proof.
  split; [intros s' H; exact (deallocate_keeps t s s' p H) |].
  unfold deallocate.
  destruct (Z.eqb_spec p 0) as [-> | Hp].
  { split; [discriminate | intros [H _]; contradiction]. }
  destruct (header_readable (hdrs s) p) eqn:Hr; cbn [negb].
  2:{ split; [intros _; split; [exact Hp | left; reflexivity] | reflexivity]. }
  destruct (is_aligned (hdrs s) p) eqn:Ha; cbn [negb].
  2:{ split; [discriminate | intros (_ & [H | (H & _)]); discriminate]. }
  destruct (header.is_valid (hdr_at (hdrs s) (header_of p))) eqn:Hv; cbn [negb].
  2:{ split; [discriminate | intros (_ & [H | (_ & H & _)]); discriminate]. }
  rewrite (valid_is_free _ Hv), (valid_not_memory_mapped _ Hv).
  destruct (Z.eqb_spec (align_down p PG_SIZE) 0) as [Hz | Hz].
  { split; [discriminate |].
    intros (_ & [H | (_ & _ & H & _)]); [discriminate | contradiction]. }
  destruct (_ && _) eqn:Hcls.
  { split; [discriminate |].
    intros (_ & [H | (_ & _ & _ & H & _)]); [discriminate |].
    rewrite H in Hcls. vm_compute in Hcls. discriminate. }
  destruct (_ <? TINY_CLASSES) eqn:Ht.
  { split; [discriminate |].
    intros (_ & [H | (_ & _ & _ & H & _)]); [discriminate |].
    rewrite H in Ht. vm_compute in Ht. discriminate. }
  destruct (Z.eqb_spec (header.size_class (hdr_at (hdrs s) (header_of p))) 255)
    as [H255 | H255].
  2:{ split; [discriminate |].
      intros (_ & [H | (_ & _ & _ & H & _)]); [discriminate | contradiction]. }
  destruct (large_block_cache.cache_block _ _ _ _ _) as [c [|]]; cbn [snd].
  - split; [discriminate | intros (_ & [H | (_ & _ & _ & _ & H)]); discriminate].
  - split; [| reflexivity].
    intros _. split; [exact Hp |]. right. repeat split; assumption.
Qed.

(** The forged pointer [8192] enters the large-block cache and nothing else
    changes; in [second_page_state] the cache refuses the 100-byte block
    of class 255 and the call is undefined. *)
Lemma deallocate_touches_only_large_cache_witness :
  (exists s',
     deallocate x86_64 forged_state 8192 = Some s' /\
     cached_bytes s' = 4096 /\
     hdrs s' = hdrs forged_state /\ bytes s' = bytes forged_state /\
     thread_cache_ s' = thread_cache_ forged_state /\
     pool_manager_ s' = pool_manager_ forged_state /\
     tiny_pools_ s' = tiny_pools_ forged_state /\
     os_live (os s') = os_live (os forged_state)) /\
  deallocate x86_64 second_page_state 4224 = None.
Proof.
  split.
  - assert (Hc : cached_bytes <$> deallocate x86_64 forged_state 8192 = Some 4096)
      by (vm_compute; reflexivity).
    destruct (deallocate x86_64 forged_state 8192) as [s' |] eqn:E; [| discriminate].
    exists s'. split; [reflexivity |]. split.
    + injection Hc as Hc. exact Hc.
    + apply (proj1 (deallocate_touches_only_large_cache x86_64 forged_state 8192) s').
      exact E.
  - apply (proj2 (deallocate_touches_only_large_cache x86_64 second_page_state 4224)).
    split; [discriminate |]. right.
    repeat split; try (vm_compute; reflexivity). vm_compute. discriminate.
Defined.

(** ** An instance of the tiny tier *)

Lemma example_thread_cache_empty : thread_cache_empty example_state.
Proof.
  intros c. apply (nth_def_Forall (fun c => scc_count c = 0)); [| reflexivity].
  apply Forall_forall. intros x Hx.
  apply elem_of_replicate in Hx as [-> _]. reflexivity.
Qed.

Lemma allocate_48_result :
  allocate x86_64 example_state 48 = Some (after_allocate_48, 0x1000080).
Proof.
  unfold after_allocate_48.
  destruct (allocate x86_64 example_state 48) as [[s1 p] |] eqn:E;
    apply (f_equal (fmap snd)) in E; vm_compute in E;
    [injection E as <-; reflexivity | discriminate].
Qed.

Lemma allocate_100_result :
  allocate x86_64 example_state 100 = Some (after_allocate_100, 0x1000080).
Proof.
  unfold after_allocate_100.
  destruct (allocate x86_64 example_state 100) as [[s1 p] |] eqn:E;
    apply (f_equal (fmap snd)) in E; vm_compute in E;
    [injection E as <-; reflexivity | discriminate].
Qed.

Lemma allocate_large_result :
  allocate x86_64 example_state (8 * 1024 * 1024)
  = Some (after_allocate_large, 0x1000040).
Proof.
  unfold after_allocate_large.
  destruct (allocate x86_64 example_state (8 * 1024 * 1024)) as [[s1 p] |] eqn:E;
    apply (f_equal (fmap snd)) in E; vm_compute in E;
    [injection E as <-; reflexivity | discriminate].
Qed.

Lemma tiny_allocation_is_aligned_witness :
  is_base_aligned 0x1000080 = true /\
  is_aligned (hdrs after_allocate_48) 0x1000080 = true /\
  deallocate x86_64 after_allocate_48 0x1000080 = Some after_allocate_48.
Proof.
  apply (tiny_allocation_is_aligned x86_64 example_state after_allocate_48 48).
  - lia.
  - reflexivity.
  - intros tp H. apply elem_of_replicate in H as [H _]. discriminate.
  - intros base rest H. injection H as <- _. vm_compute. repeat split; discriminate.
  - exact allocate_48_result.
  - discriminate.
Defined.

(** ** [callocate] and [reallocate] *)

Lemma allocate_out_of_range (t : target) (s : state) (n : Z) :
  n = 0 \/ 2 ^ 47 < n -> allocate t s n = Some (s, 0).
Proof.
  intros H. unfold allocate. cbn [allocate_rec].
  destruct (Z.eqb_spec n 0); [reflexivity |].
  destruct (Z.gtb_spec n (2 ^ 47)); [reflexivity | lia].
Qed.

(** Property X24.  [callocate(num, size)] returns null and changes nothing whenever
    the product is 0 or larger than [2^47]; this covers every product that
    does not fit in [size_t], which the division test catches before the
    multiplication. *)
Theorem callocate_out_of_range (t : target) (s : state) (num size : Z) :
  0 <= num < 2 ^ 64 -> 0 <= size < 2 ^ 64 ->
  num * size = 0 \/ 2 ^ 47 < num * size ->
  callocate t s num size = Some (s, 0).
Proof.
  intros Hnum Hsize H. unfold callocate.
  destruct (Z.eqb_spec num 0) as [-> | Hn0]; [reflexivity |].
  destruct (Z.eqb_spec size 0) as [-> | Hs0]; [reflexivity |].
  cbn [orb].
  destruct (Z.gtb_spec num (SIZE_MAX / size)); [reflexivity |].
  rewrite allocate_out_of_range; [reflexivity |].
  right. destruct H as [H | H]; [nia | exact H].
Qed.

Lemma callocate_out_of_range_witness :
  callocate x86_64 example_state (2 ^ 40) (2 ^ 40) = Some (example_state, 0).
Proof. apply callocate_out_of_range; lia. Defined.

Lemma memcpy_at (dst src len : Z) (b : Z -> Z) (i : Z) :
  0 <= i < len -> memcpy dst src len b (dst + i) = b (src + i).
Proof.
  intros H. unfold memcpy. rewrite in_range_true by lia.
  f_equal. lia.
Qed.

Lemma copy_block_at (dst src n : Z) (b : Z -> Z) (i : Z) :
  0 <= i < n -> copy_block dst src n b (dst + i) = b (src + i).
Proof.
  intros H. unfold copy_block.
  destruct (n <=? 32); [apply memcpy_at; exact H |].
  destruct (n >=? 4096); [| apply memcpy_at; exact H].
  apply memcpy_at.
  pose proof (Z.div_mod (n + 7) 8 ltac:(lia)).
  pose proof (Z.mod_pos_bound (n + 7) 8 ltac:(lia)). lia.
Qed.

(** Property X25.  When [reallocate] moves a block, the new block is the one a plain
    [allocate(n)] returns, and it starts with the old contents: the first
    [min(old size, n)] bytes at the new pointer are the bytes found at the
    old pointer once the new block has been allocated. *)
Theorem reallocate_moves_contents (t : target) (s s' : state) (p n q : Z) :
  p <> 0 -> reallocate t s p n = Some (s', q) -> q <> 0 -> q <> p ->
  exists s1,
    allocate t s n = Some (s1, q) /\
    forall i, 0 <= i < Z.min (header.size (hdr_at (hdrs s) (header_of p))) n ->
      bytes s' (q + i) = bytes s1 (p + i).
Proof.
  intros Hp H Hq Hqp. unfold reallocate in H.
  destruct (Z.eqb_spec p 0); [contradiction |].
  destruct (negb (header_readable (hdrs s) p)); [discriminate |].
  destruct (negb (is_aligned (hdrs s) p)); [injection H as _ <-; contradiction |].
  destruct (n =? 0).
  { destruct (deallocate t s p); cbn [mbind option_bind] in H;
      [injection H as _ <-; contradiction | discriminate]. }
  destruct (header_of p =? 0); [injection H as _ <-; contradiction |].
  destruct (header.is_valid (hdr_at (hdrs s) (header_of p))) eqn:Hv; cbn [negb] in H;
    [| injection H as _ <-; contradiction].
  destruct (_ >? 2 ^ 47); [injection H as _ <-; contradiction |].
  destruct (_ && _); [injection H as _ <-; contradiction |].
  destruct (_ && _); [injection H as _ <-; contradiction |].
  rewrite (valid_not_memory_mapped _ Hv) in H.
  destruct (allocate t s n) as [[s1 new_ptr] |]; cbn [mbind option_bind] in H;
    [| discriminate].
  destruct (new_ptr =? 0); [injection H as _ <-; contradiction |].
  match type of H with
  | context [deallocate t ?s2 p] =>
      destruct (deallocate t s2 p) as [s3 |] eqn:Hd; cbn [mbind option_bind] in H;
        [| discriminate];
      destruct (deallocate_keeps t s2 s3 p Hd) as (_ & Hb & _)
  end.
  injection H as <- <-.
  exists s1. split; [reflexivity |].
  intros i Hi. rewrite Hb. cbn [bytes with_bytes].
  apply copy_block_at.
  destruct (Z.ltb_spec (header.size (hdr_at (hdrs s) (header_of p))) n); lia.
Qed.

Lemma reallocate_48_56_result :
  reallocate x86_64 after_allocate_48 0x1000080 56
  = Some (after_reallocate_48_56, 0x2000080).
Proof.
  unfold after_reallocate_48_56.
  destruct (reallocate x86_64 after_allocate_48 0x1000080 56) as [[s1 p] |] eqn:E;
    apply (f_equal (fmap snd)) in E; vm_compute in E;
    [injection E as <-; reflexivity | discriminate].
Qed.

Lemma reallocate_moves_contents_witness :
  exists s1,
    allocate x86_64 after_allocate_48 56 = Some (s1, 0x2000080) /\
    forall i,
      0 <= i < Z.min (header.size (hdr_at (hdrs after_allocate_48)
                                     (header_of 0x1000080))) 56 ->
      bytes after_reallocate_48_56 (0x2000080 + i) = bytes s1 (0x1000080 + i).
Proof.
  apply (reallocate_moves_contents x86_64 after_allocate_48).
  - discriminate.
  - exact reallocate_48_56_result.
  - discriminate.
  - discriminate.
Defined.

(** ** [cleanup] and the destructor of [pool_manager] *)

(** *** What [clear] does to the entries of a bucket *)








(** *** A second [cleanup], and the destructor *)

Lemma clear_entries_none (i : Z) (es : list cache_entry) (o : os_state) :
  large_block_cache.clear_entries 0 i es o = (es, o).
Proof. reflexivity. Qed.

Lemma clear_buckets_idle (bs : list size_bucket) (o : os_state) :
  Forall (fun b => sb_count b = 0) bs ->
  large_block_cache.clear_buckets bs o = (bs, o).
Proof.
  intros H. induction H as [| b bs Hb Hbs IH]; cbn [large_block_cache.clear_buckets];
    [reflexivity |].
  rewrite Hb. change (Z.to_nat 0) with 0%nat. rewrite clear_entries_none, IH.
  destruct b as [cnt es]. cbn [sb_count entries] in *. subst cnt. reflexivity.
Qed.

Lemma thread_cache_clear_idem (tc : thread_cache_t) :
  thread_cache.clear (thread_cache.clear tc) = thread_cache.clear tc.
Proof.
  unfold thread_cache.clear; cbn [caches]. f_equal.
  induction (caches tc) as [| a l IH]; cbn [map]; [reflexivity |].
  rewrite IH. reflexivity.
Qed.

Lemma map_none_idem (l : list (option tiny_pool)) :
  map (fun _ : option tiny_pool => @None tiny_pool) (map (fun _ => None) l)
  = map (fun _ => None) l.
Proof. induction l as [| a l IH]; cbn [map]; [reflexivity | rewrite IH; reflexivity]. Qed.

Lemma release_none (l : list (option tiny_pool)) (o : os_state) :
  release_tiny_pools (map (fun _ => None) l) o = o.
Proof.
  unfold release_tiny_pools.
  induction l as [| a l IH]; cbn [map fold_left]; [reflexivity | exact IH].
Qed.

Lemma clear_idle (c : large_block_cache_t) (o : os_state) :
  Forall (fun b => sb_count b = 0) (buckets c) -> total_cached c = 0 ->
  large_block_cache.clear c o = (c, o).
Proof.
  intros Hb Ht. unfold large_block_cache.clear.
  rewrite clear_buckets_idle by exact Hb.
  destruct c as [bs tot]. cbn [total_cached buckets] in *. subst tot. reflexivity.
Qed.

Lemma cleanup_fields (s : state) :
  tiny_pools_ (cleanup s) = map (fun _ => None) (tiny_pools_ s) /\
  thread_cache_ (cleanup s) = thread_cache.clear (thread_cache_ s) /\
  Forall (fun b => sb_count b = 0) (buckets (large_block_cache_ (cleanup s))) /\
  total_cached (large_block_cache_ (cleanup s)) = 0.
Proof.
  unfold cleanup, large_block_cache.clear.
  pose proof (clear_buckets_counts (buckets (large_block_cache_ s)) (os s)) as Hb.
  destruct (large_block_cache.clear_buckets (buckets (large_block_cache_ s)) (os s))
    as [bs o1].
  cbn [fst] in Hb. repeat split. exact Hb.
Qed.

(** Property X26.  [cleanup] is idempotent: a second call in a row finds the caches
    empty and the tiny pools gone, releases nothing and leaves the state as
    the first call left it. *)
Theorem cleanup_idempotent (s : state) : cleanup (cleanup s) = cleanup s.
Proof.
  destruct (cleanup_fields s) as (Htp & Htc & Hb & Ht).
  unfold cleanup at 1.
  rewrite (clear_idle _ _ Hb Ht).
  rewrite Htp, release_none, map_none_idem, Htc, thread_cache_clear_idem.
  rewrite <- Htp, <- Htc.
  destruct (cleanup s). reflexivity.
Qed.

Lemma release_class_preserves (base : Z) (es : list pool_entry) (count : Z)
                              (o : os_state) :
  released base o -> released base (pool_manager_ops.release_class es count o).
Proof.
  unfold pool_manager_ops.release_class.
  generalize (take (Z.to_nat count) es) as l. intros l. revert o.
  induction l as [| e l IH]; intros o H; cbn [fold_left]; [exact H |].
  apply IH. destruct (pe_p e); [apply released_os_release |]; exact H.
Qed.

Lemma release_class_releases (base : Z) (es : list pool_entry) (count : Z)
                             (o : os_state) :
  base ∈ omap (fun e => pool_base <$> pe_p e) (take (Z.to_nat count) es) ->
  released base (pool_manager_ops.release_class es count o).
Proof.
  unfold pool_manager_ops.release_class.
  generalize (take (Z.to_nat count) es) as l. intros l. revert o.
  induction l as [| e l IH]; intros o H; [inversion H |].
  cbn [fold_left]. cbn [omap list_omap] in H.
  assert (Hpres : forall o', released base o' ->
            released base
              (fold_left (fun o e => match pe_p e with
                                     | Some p => os_release (pool_base p) o
                                     | None => o
                                     end) l o')).
  { clear. induction l as [| e l IH]; intros o' H; cbn [fold_left]; [exact H |].
    apply IH. destruct (pe_p e); [apply released_os_release |]; exact H. }
  destruct (pe_p e) as [p |]; cbn [fmap option_fmap option_map] in H.
  - apply elem_of_cons in H as [-> | H].
    + apply Hpres. apply released_os_release_eq.
    + apply IH. exact H.
  - apply IH. exact H.
Qed.

Lemma destroy_fold (pm : pool_manager) (base : Z) (cs : list Z) (o : os_state) (c : Z) :
  (released base o \/
   (c ∈ cs /\
    base ∈ omap (fun e => pool_base <$> pe_p e)
             (take (Z.to_nat (nth_def 0 (pool_count pm) c))
                   (nth_def [] (pools pm) c)))) ->
  released base
    (fold_left (fun o sc => pool_manager_ops.release_class
                              (nth_def [] (pools pm) sc)
                              (nth_def 0 (pool_count pm) sc) o) cs o).
Proof.
  revert o. induction cs as [| a cs IH]; intros o H; cbn [fold_left].
  - destruct H as [H | [H _]]; [exact H | inversion H].
  - apply IH. destruct H as [H | [Hc Hb]].
    + left. apply release_class_preserves. exact H.
    + apply elem_of_cons in Hc as [<- | Hc].
      * left. apply release_class_releases. exact Hb.
      * right. split; assumption.
Qed.

(** Property X27.  The destructor of [pool_manager] releases every pool the manager
    holds: after it no page of a pool of any of the 32 classes is handed
    out any more. *)
Theorem destroy_releases_pools (s : state) (c base : Z) :
  0 <= c < SIZE_CLASSES ->
  base ∈ class_pool_bases s c ->
  released base (pool_manager_ops.destroy (pool_manager_ s) (os s)).
Proof.
  unfold SIZE_CLASSES. intros Hc Hb. unfold pool_manager_ops.destroy.
  apply (destroy_fold _ _ _ _ c). right. split; [| exact Hb].
  change (map Z.of_nat (seq 0 32)) with (Z.of_nat <$> seq 0 32).
  apply (list_elem_of_fmap_2' _ _ (Z.to_nat c)); [apply elem_of_seq; lia | lia].
Qed.

Lemma destroy_releases_pools_witness :
  released 0x2000000
    (pool_manager_ops.destroy (pool_manager_ example_pools_state)
                              (os example_pools_state)).
Proof.
  apply (destroy_releases_pools example_pools_state 9).
  - unfold SIZE_CLASSES. lia.
  - vm_compute. apply elem_of_cons. right. apply elem_of_cons. left. reflexivity.
Defined.

(** ** The large tier of [allocate] *)

Lemma set_memory_mapped_fields (b : bool) (h : block_header) :
  header.is_memory_mapped (header.set_memory_mapped b h) = b /\
  header.size (header.set_memory_mapped b h) = header.size h /\
  header.size_class (header.set_memory_mapped b h) = header.size_class h.
Proof.
  rewrite is_memory_mapped_bit, set_memory_mapped_bits by lia.
  change (62 =? 62) with true. cbv iota.
  destruct (low_bits_size_class h (header.set_memory_mapped b h)) as [? ?].
  { intros n Hn. rewrite set_memory_mapped_bits by lia.
    destruct (Z.eqb_spec n 62); [lia | reflexivity]. }
  repeat split; assumption.
Qed.

Lemma mapped_header_invalid (h : block_header) :
  header.is_valid (header.set_memory_mapped true h) = false.
Proof.
  destruct (header.is_valid (header.set_memory_mapped true h)) eqn:E; [| reflexivity].
  apply valid_nibble, nibble_bits in E. destruct E as (_ & E & _).
  rewrite set_memory_mapped_bits in E by lia. discriminate.
Qed.

Lemma allocate_large_unfold (t : target) (s : state) (n : Z) :
  PG_SIZE <= n <= 2 ^ 47 ->
  (large_block_cache.get_cached_block t (large_block_cache_ s) n).2 = 0 ->
  allocate t s n
  = map_large s n (PG_SIZE * ((n + sizeof_block_header + PG_SIZE - 1) / PG_SIZE)).
Proof.
  unfold PG_SIZE, sizeof_block_header. intros Hn Hmiss.
  unfold allocate. cbn [allocate_rec].
  destruct (Z.eqb_spec n 0); [lia |].
  destruct (Z.gtb_spec n (2 ^ 47)); [lia |]. cbn [orb].
  unfold TINY_LARGE_THRESHOLD.
  destruct (Z.leb_spec n 64); [lia |].
  unfold PG_SIZE at 1.
  destruct (Z.geb_spec n 4096); [| lia].
  unfold allocate_large.
  destruct (large_block_cache.get_cached_block t (large_block_cache_ s) n) as [c cached].
  cbn [snd] in Hmiss. subst cached. change (negb (0 =? 0)) with false. cbv iota.
  change (align_down (sizeof_block_header + CACHE_LINE_SIZE - 1) CACHE_LINE_SIZE) with 64.
  cbv zeta. unfold PG_SIZE.
  destruct (Z.leb_spec n (4096 - 64)); [lia |].
  rewrite (wrap64_small (n + 64 + 4096 - 1)) by lia.
  rewrite Z.shiftr_div_pow2, Z.shiftl_mul_pow2 by lia. change (2 ^ 12) with 4096.
  assert (0 <= (n + 64 + 4096 - 1) / 4096 <= 2 ^ 36).
  { split; [apply Z.div_pos; lia |]. apply Z.div_le_upper_bound; lia. }
  rewrite wrap64_small by lia.
  rewrite (Z.mul_comm ((n + 64 + 4096 - 1) / 4096) 4096). reflexivity.
Qed.

(** Property X28.  What a fresh large allocation leaves behind.  For a
    request of at least a page that misses the cache, [allocate] returns the
    address 64 bytes into the region the environment hands out; the region
    asked for is a whole number of pages that covers the header and the
    payload with less than a page to spare; from the returned pointer to
    the end of the region the memory reads as zero; the header at the start
    of the region records the requested size, class 255 and the
    memory-mapped flag, and fails [is_valid]. *)
Theorem large_allocation_region (t : target) (s s1 : state) (n p base : Z)
                                (rest : list (option Z)) :
  PG_SIZE <= n <= 2 ^ 47 ->
  (large_block_cache.get_cached_block t (large_block_cache_ s) n).2 = 0 ->
  os_answers (os s) = Some base :: rest -> base <> 0 ->
  allocate t s n = Some (s1, p) ->
  p = user_ptr base /\
  (exists len,
     os_live (os s1) = (base, len) :: os_live (os s) /\
     len mod PG_SIZE = 0 /\
     n + sizeof_block_header <= len < n + sizeof_block_header + PG_SIZE /\
     forall a, base + sizeof_block_header <= a < base + len -> bytes s1 a = 0) /\
  header.size (hdr_at (hdrs s1) base) = n /\
  header.size_class (hdr_at (hdrs s1) base) = 255 /\
  header.is_memory_mapped (hdr_at (hdrs s1) base) = true /\
  header.is_valid (hdr_at (hdrs s1) base) = false.
Proof.
  intros Hn Hmiss Ho Hb Ha.
  rewrite (allocate_large_unfold t s n Hn Hmiss) in Ha.
  unfold map_large, os_acquire in Ha. rewrite Ho in Ha.
  destruct (Z.eqb_spec base 0); [contradiction |]. injection Ha as <- <-.
  unfold PG_SIZE, sizeof_block_header in *.
  split; [reflexivity |]. split.
  - eexists. split; [reflexivity |].
    pose proof (Z.div_mod (n + 64 + 4096 - 1) 4096 ltac:(lia)) as Hd.
    pose proof (Z.mod_pos_bound (n + 64 + 4096 - 1) 4096 ltac:(lia)) as Hm.
    split; [rewrite Z.mul_comm; apply Z.mod_mul; lia |].
    split; [lia |].
    intros a Hr. cbn [bytes with_hdrs zero_fill with_bytes].
    apply memset0_in. lia.
  - cbn [hdrs with_hdrs]. rewrite hdr_at_insert.
    destruct (set_memory_mapped_fields true (header.init n 255 false 0 0 zero_header))
      as (Hmm & Hs & Hc).
    rewrite Hmm, Hs, Hc, size_init, size_class_init, mapped_header_invalid by lia.
    repeat split.
Qed.

Lemma large_allocation_region_witness :
  0x1000040 = user_ptr 0x1000000 /\
  (exists len,
     os_live (os after_allocate_large) = (0x1000000, len) :: os_live (os example_state) /\
     len mod PG_SIZE = 0 /\
     8 * 1024 * 1024 + sizeof_block_header <= len
       < 8 * 1024 * 1024 + sizeof_block_header + PG_SIZE /\
     forall a, 0x1000000 + sizeof_block_header <= a < 0x1000000 + len ->
               bytes after_allocate_large a = 0) /\
  header.size (hdr_at (hdrs after_allocate_large) 0x1000000) = 8 * 1024 * 1024 /\
  header.size_class (hdr_at (hdrs after_allocate_large) 0x1000000) = 255 /\
  header.is_memory_mapped (hdr_at (hdrs after_allocate_large) 0x1000000) = true /\
  header.is_valid (hdr_at (hdrs after_allocate_large) 0x1000000) = false.
Proof.
  apply (large_allocation_region x86_64 example_state after_allocate_large
           (8 * 1024 * 1024) 0x1000040 0x1000000
           [Some 0x2000000; Some 0x3000000; Some 0x4000000]).
  - unfold PG_SIZE. lia.
  - vm_compute. reflexivity.
  - reflexivity.
  - discriminate.
  - exact allocate_large_result.
Defined.

(** ** The tiny tier of [allocate] *)

Lemma placed_block_aligned (tp : tiny_pool) (index : Z) :
  tiny_pool_placed tp -> 0 <= index < 31 ->
  0 <= tp_base tp + 64 + index * 128 < 2 ^ 64 - 64 /\
  is_base_aligned (tp_base tp + 64 + index * 128) = true /\
  user_ptr (tp_base tp + 64 + index * 128) = tp_base tp + 128 + index * 128 /\
  is_base_aligned (user_ptr (tp_base tp + 64 + index * 128)) = true.
Proof.
  unfold tiny_pool_placed, PG_SIZE. intros (Hb0 & Hb1 & Hpage) Hi.
  assert (Hu : user_ptr (tp_base tp + 64 + index * 128) = tp_base tp + 128 + index * 128).
  { unfold user_ptr, sizeof_block_header. rewrite wrap64_small by lia. lia. }
  assert (Hdiv : tp_base tp = 4096 * (tp_base tp / 4096))
    by (pose proof (Z.div_mod (tp_base tp) 4096); lia).
  split; [lia |]. split; [| split; [exact Hu |]].
  - rewrite is_base_aligned_mod.
    replace (tp_base tp + 64 + index * 128)
      with ((64 * (tp_base tp / 4096) + 1 + 2 * index) * 64) by lia.
    rewrite Z.mod_mul by lia. reflexivity.
  - rewrite Hu, is_base_aligned_mod.
    replace (tp_base tp + 128 + index * 128)
      with ((64 * (tp_base tp / 4096) + 2 + 2 * index) * 64) by lia.
    rewrite Z.mod_mul by lia. reflexivity.
Qed.

(** One round of the two functions on a state that has the pool. *)
Lemma tiny_round (t : target) (f f' : nat) (s : state) (n : Z) (tp : tiny_pool) :
  1 <= n <= 64 ->
  nth_def None (tiny_pools_ s) (uint8 (Z.shiftr (n - 1) 3)) = Some tp ->
  tiny_pool_placed tp ->
  allocate_tiny_rec (S f) s n = allocate_rec t (S f') s n /\
  forall s1 p, allocate_rec t (S f') s n = Some (s1, p) -> p <> 0 ->
    exists index,
      0 <= index < 31 /\
      p = tp_base tp + 128 + index * 128 /\
      header_of p = tp_base tp + 64 + index * 128 /\
      (tiny_pool_ops.allocate_tiny tp (uint8 (Z.shiftr (n - 1) 3))).2
        = tp_base tp + 64 + index * 128 /\
      s1 = place_init (tp_base tp + 64 + index * 128) n
             (uint8 (Z.shiftr (n - 1) 3))
             (with_tiny_pools
                (set_nth (tiny_pools_ s) (uint8 (Z.shiftr (n - 1) 3))
                   (Some (tiny_pool_ops.allocate_tiny tp (uint8 (Z.shiftr (n - 1) 3))).1))
                s).
Proof.
  intros Hn Htp Hplaced.
  pose proof (tiny_class_of n Hn) as Hc.
  cbn [allocate_tiny_rec allocate_rec].
  destruct (Z.eqb_spec n 0); [lia |].
  destruct (Z.gtb_spec n (2 ^ 47)); [lia |]. cbn [orb].
  unfold TINY_LARGE_THRESHOLD, TINY_CLASSES.
  destruct (Z.leb_spec n 64); [| lia].
  destruct (Z.geb_spec (uint8 (Z.shiftr (n - 1) 3)) 8); [lia |].
  rewrite Htp.
  pose proof (allocate_tiny_block tp _ Hc) as Hblk.
  destruct (tiny_pool_ops.allocate_tiny tp _) as [tp' block]. cbn [snd] in Hblk.
  destruct (Z.eqb_spec block 0) as [Eb | Hb0]; cbn [negb].
  { split; [reflexivity |]. intros s1 p Hres Hp. injection Hres as _ <-. contradiction. }
  destruct Hblk as [? | (index & Hi & ->)]; [contradiction |].
  destruct (placed_block_aligned tp index Hplaced Hi) as (Hr & Ha1 & Hu & Ha2).
  rewrite Ha1, Ha2. cbn [negb].
  split; [reflexivity |].
  intros s1 p Hres Hp. injection Hres as <- <-.
  exists index. split; [exact Hi |]. split; [exact Hu |].
  split; [apply header_of_user_ptr; lia |]. split; reflexivity.
Qed.

Lemma tiny_call (t : target) (s : state) (n : Z) :
  1 <= n <= 64 ->
  length (tiny_pools_ s) = 8%nat ->
  (forall tp, Some tp ∈ tiny_pools_ s -> tiny_pool_placed tp) ->
  os_placed (os s) ->
  allocate_tiny s n = allocate t s n /\
  forall s1 p, allocate t s n = Some (s1, p) -> p <> 0 ->
    exists s0 tp index,
      tiny_pool_placed tp /\
      (nth_def None (tiny_pools_ s) (uint8 (Z.shiftr (n - 1) 3)) = Some tp \/
       tp_bitmap tp = fresh_bitmap) /\
      0 <= index < 31 /\
      p = tp_base tp + 128 + index * 128 /\
      header_of p = tp_base tp + 64 + index * 128 /\
      (tiny_pool_ops.allocate_tiny tp (uint8 (Z.shiftr (n - 1) 3))).2
        = tp_base tp + 64 + index * 128 /\
      length (tiny_pools_ s0) = 8%nat /\
      nth_def None (tiny_pools_ s0) (uint8 (Z.shiftr (n - 1) 3))
        = Some (tiny_pool_ops.allocate_tiny tp (uint8 (Z.shiftr (n - 1) 3))).1 /\
      s1 = place_init (tp_base tp + 64 + index * 128) n
             (uint8 (Z.shiftr (n - 1) 3)) s0.
Proof.
  intros Hn Hlen Hpools Hos.
  pose proof (tiny_class_of n Hn) as Hc.
  unfold allocate_tiny, allocate.
  destruct (nth_def None (tiny_pools_ s) (uint8 (Z.shiftr (n - 1) 3))) as [tp |] eqn:Htp.
  - assert (Hplaced : tiny_pool_placed tp).
    { apply Hpools. unfold nth_def in Htp.
      destruct (tiny_pools_ s !! _) as [o |] eqn:E; cbn [default from_option id] in Htp;
        [| discriminate].
      subst o. eapply list_elem_of_lookup_2. exact E. }
    destruct (tiny_round t 1 1 s n tp Hn Htp Hplaced) as [Heq Hshape].
    split; [exact Heq |].
    intros s1 p Hres Hp.
    destruct (Hshape s1 p Hres Hp) as (index & Hi & Hp' & Hh & Hblk & Hs1).
    exists (with_tiny_pools
              (set_nth (tiny_pools_ s) (uint8 (Z.shiftr (n - 1) 3))
                 (Some (tiny_pool_ops.allocate_tiny tp (uint8 (Z.shiftr (n - 1) 3))).1))
              s), tp, index.
    split; [exact Hplaced |]. split; [left; reflexivity |].
    split; [exact Hi |]. split; [exact Hp' |]. split; [exact Hh |].
    split; [exact Hblk |].
    cbn [tiny_pools_ with_tiny_pools]. rewrite length_set_nth.
    split; [exact Hlen |]. split; [| exact Hs1].
    apply nth_def_set_nth_eq. lia.
  - remember 1%nat as one eqn:Eone.
    cbn [allocate_tiny_rec allocate_rec].
    destruct (Z.eqb_spec n 0); [lia |].
    destruct (Z.gtb_spec n (2 ^ 47)); [lia |]. cbn [orb].
    unfold TINY_LARGE_THRESHOLD, TINY_CLASSES.
    destruct (Z.leb_spec n 64); [| lia].
    destruct (Z.geb_spec (uint8 (Z.shiftr (n - 1) 3)) 8); [lia |].
    rewrite Htp. unfold os_acquire.
    destruct (os_answers (os s)) as [| [base |] rest] eqn:Eo.
    + split; [reflexivity |]. intros s1 p Hres Hp. injection Hres as _ <-. contradiction.
    + subst one.
      assert (Hplaced : tiny_pool_placed {| tp_base := base; tp_bitmap := fresh_bitmap |}).
      { unfold tiny_pool_placed. cbn [tp_base]. eapply Hos. exact Eo. }
      match goal with
      | |- allocate_tiny_rec 1 ?s0 n = _ /\ _ => set (sN := s0)
      end.
      assert (Hnew : nth_def None (tiny_pools_ sN) (uint8 (Z.shiftr (n - 1) 3))
                     = Some {| tp_base := base; tp_bitmap := fresh_bitmap |});
        [| destruct (tiny_round t 0 0 sN n _ Hn Hnew Hplaced) as [Heq Hshape]].
      { subst sN. cbn [tiny_pools_ with_tiny_pools]. unfold nth_def, set_nth.
        rewrite list_lookup_insert_eq; [reflexivity |].
        cbn [tiny_pools_ zero_fill with_bytes with_hdrs with_os]. lia. }
      split; [exact Heq |].
      intros s1 p Hres Hp.
      destruct (Hshape s1 p Hres Hp) as (index & Hi & Hp' & Hh & Hblk & Hs1).
      exists (with_tiny_pools
                (set_nth (tiny_pools_ sN) (uint8 (Z.shiftr (n - 1) 3))
                   (Some (tiny_pool_ops.allocate_tiny
                            {| tp_base := base; tp_bitmap := fresh_bitmap |}
                            (uint8 (Z.shiftr (n - 1) 3))).1))
                sN), {| tp_base := base; tp_bitmap := fresh_bitmap |}, index.
      split; [exact Hplaced |]. split; [right; reflexivity |].
      split; [exact Hi |]. split; [exact Hp' |]. split; [exact Hh |].
      split; [exact Hblk |].
      assert (HlenN : length (tiny_pools_ sN) = 8%nat).
      { subst sN. cbn [tiny_pools_ with_tiny_pools zero_fill with_bytes with_hdrs with_os].
        rewrite length_set_nth. exact Hlen. }
      cbn [tiny_pools_ with_tiny_pools]. rewrite length_set_nth.
      split; [exact HlenN |]. split; [| exact Hs1].
      apply nth_def_set_nth_eq. lia.
    + split; [reflexivity |]. intros s1 p Hres Hp. injection Hres as _ <-. contradiction.
Qed.

(** Property X29.  On the tiny tier [allocate] records the request: the block lies
    in a 128-byte slot of a tiny pool, 128 bytes or more into the pool's
    page, and the header just below the returned pointer holds the
    requested size and the class [(n - 1) / 8] and passes [is_valid]. *)
Theorem tiny_allocation_header (t : target) (s s1 : state) (n p : Z) :
  1 <= n <= 64 ->
  length (tiny_pools_ s) = 8%nat ->
  (forall tp, Some tp ∈ tiny_pools_ s -> tiny_pool_placed tp) ->
  os_placed (os s) ->
  allocate t s n = Some (s1, p) -> p <> 0 ->
  (exists base k, base mod PG_SIZE = 0 /\ 0 <= k < 31 /\ p = base + 128 + 128 * k) /\
  header.size (hdr_at (hdrs s1) (header_of p)) = n /\
  header.size_class (hdr_at (hdrs s1) (header_of p)) = (n - 1) / 8 /\
  header.is_valid (hdr_at (hdrs s1) (header_of p)) = true.
Proof.
  intros Hn Hlen Hpools Hos Ha Hp.
  destruct (tiny_call t s n Hn Hlen Hpools Hos) as [_ Hshape].
  destruct (Hshape s1 p Ha Hp)
    as (s0 & tp & index & Hplaced & _ & Hi & -> & Hh & _ & _ & _ & ->).
  pose proof (tiny_class_of n Hn) as Hc.
  assert (Hcls : uint8 (Z.shiftr (n - 1) 3) = (n - 1) / 8).
  { rewrite Z.shiftr_div_pow2 by lia. change (2 ^ 3) with 8.
    apply uint8_small.
    assert (0 <= (n - 1) / 8 < 8)
      by (split; [apply Z.div_pos; lia | apply Z.div_lt_upper_bound; lia]).
    lia. }
  split.
  { exists (tp_base tp), index. destruct Hplaced as (_ & _ & Hpage).
    split; [exact Hpage |]. split; [exact Hi | lia]. }
  rewrite Hh. unfold place_init. cbn [hdrs with_hdrs]. rewrite hdr_at_insert.
  rewrite Hcls in *.
  destruct (init_size_class n ((n - 1) / 8) false 0 0 zero_header ltac:(lia)) as [Hs Hcl].
  destruct (init_marks n ((n - 1) / 8) false 0 0 zero_header ltac:(lia)) as [Hm Hnib].
  rewrite uint8_small in Hcl by lia.
  split; [exact Hs |]. split; [exact Hcl |].
  unfold header.is_valid. rewrite Hm, Hnib, Hs, Hcl.
  change (HEADER_MAGIC =? HEADER_MAGIC) with true.
  change (MAGIC_VALUE =? MAGIC_VALUE) with true. cbn [andb].
  destruct (Z.leb_spec n (2 ^ 47)); [| lia].
  unfold SIZE_CLASSES. destruct (Z.ltb_spec ((n - 1) / 8) 32); [reflexivity | lia].
Qed.

Lemma example_os_placed : os_placed (os example_state).
Proof.
  intros base rest H. injection H as <- _. vm_compute. repeat split; discriminate.
Qed.

Lemma example_no_tiny_pools (tp : tiny_pool) :
  Some tp ∈ tiny_pools_ example_state -> tiny_pool_placed tp.
Proof. intros H. apply elem_of_replicate in H as [H _]. discriminate. Qed.

Lemma tiny_allocation_header_witness :
  (exists base k, base mod PG_SIZE = 0 /\ 0 <= k < 31 /\ 0x1000080 = base + 128 + 128 * k) /\
  header.size (hdr_at (hdrs after_allocate_48) (header_of 0x1000080)) = 48 /\
  header.size_class (hdr_at (hdrs after_allocate_48) (header_of 0x1000080)) = (48 - 1) / 8 /\
  header.is_valid (hdr_at (hdrs after_allocate_48) (header_of 0x1000080)) = true.
Proof.
  apply (tiny_allocation_header x86_64 example_state after_allocate_48 48 0x1000080).
  - lia.
  - reflexivity.
  - exact example_no_tiny_pools.
  - exact example_os_placed.
  - exact allocate_48_result.
  - discriminate.
Defined.

(** Property X30.  The private [Jallocator::allocate_tiny] and the tiny branch of
    [allocate] agree on every request of 1 to 64 bytes: on page-aligned
    pools the two extra alignment tests of the private function always
    pass. *)
Theorem allocate_tiny_agrees (t : target) (s : state) (n : Z) :
  1 <= n <= 64 ->
  length (tiny_pools_ s) = 8%nat ->
  (forall tp, Some tp ∈ tiny_pools_ s -> tiny_pool_placed tp) ->
  os_placed (os s) ->
  allocate_tiny s n = allocate t s n.
Proof.
  intros Hn Hlen Hpools Hos.
  destruct (tiny_call t s n Hn Hlen Hpools Hos) as [Heq _]. exact Heq.
Qed.

Lemma allocate_tiny_agrees_witness :
  allocate_tiny example_state 48 = allocate x86_64 example_state 48.
Proof.
  apply allocate_tiny_agrees.
  - lia.
  - reflexivity.
  - exact example_no_tiny_pools.
  - exact example_os_placed.
Defined.

(** ** The small and medium tiers of [allocate] *)

Lemma pooled_block_header (s s' s1 : state) (n c ptr p : Z) :
  pool_manager_ops.allocate s c = Some (s', ptr) ->
  (if negb (ptr =? 0) then Some (place_encoded ptr n c s', user_ptr ptr)
   else Some (s', 0)) = Some (s1, p) ->
  p <> 0 ->
  hdr_at (hdrs s1) (header_of p) = header.encode n c false zero_header.
Proof.
  intros Hpm H Hp. apply pool_manager_allocate_range in Hpm.
  destruct (negb (ptr =? 0)); injection H as <- <-; [| contradiction].
  rewrite header_of_user_ptr by exact Hpm.
  unfold place_encoded. cbn [hdrs with_hdrs]. apply hdr_at_insert.
Qed.

Lemma medium_class (n : Z) :
  256 < n < 4096 -> uint8 (31 - clz (n - 1)) = Z.log2 (n - 1).
Proof.
  intros H. unfold clz. rewrite (Z.mod_small (n - 1)) by lia.
  replace (31 - (31 - Z.log2 (n - 1))) with (Z.log2 (n - 1)) by lia.
  apply uint8_small.
  assert (Z.log2 (n - 1) < 12) by (apply Z.log2_lt_pow2; lia).
  pose proof (Z.log2_nonneg (n - 1)). lia.
Qed.

Lemma small_class (n : Z) :
  64 < n <= 256 -> uint8 (Z.shiftr (n - 1) 3) = (n - 1) / 8.
Proof.
  intros H. rewrite Z.shiftr_div_pow2 by lia. change (2 ^ 3) with 8.
  apply uint8_small.
  assert (0 <= (n - 1) / 8 < 32)
    by (split; [apply Z.div_pos; lia | apply Z.div_lt_upper_bound; lia]).
  lia.
Qed.

Lemma pooled_allocation_block (t : target) (s s1 : state) (n p : Z) :
  64 < n < PG_SIZE -> thread_cache_empty s ->
  allocate t s n = Some (s1, p) -> p <> 0 ->
  hdr_at (hdrs s1) (header_of p)
  = header.encode n (if n <=? 256 then (n - 1) / 8 else Z.log2 (n - 1)) false zero_header.
Proof.
  unfold PG_SIZE. intros Hn Hempty Ha Hp.
  unfold allocate in Ha. cbn [allocate_rec] in Ha.
  destruct (Z.eqb_spec n 0); [lia |].
  destruct (Z.gtb_spec n (2 ^ 47)); [lia |]. cbn [orb] in Ha.
  unfold TINY_LARGE_THRESHOLD, PG_SIZE, SMALL_LARGE_THRESHOLD in Ha.
  destruct (Z.leb_spec n 64); [lia |].
  destruct (Z.geb_spec n 4096); [lia |].
  destruct (Z.leb_spec n 256).
  - rewrite thread_cache_get_empty in Ha by exact Hempty.
    change (negb (0 =? 0)) with false in Ha. cbv iota in Ha.
    rewrite with_thread_cache_same in Ha.
    unfold allocate_small in Ha.
    rewrite thread_cache_get_empty in Ha by exact Hempty.
    change (negb (0 =? 0)) with false in Ha. cbv iota in Ha.
    rewrite with_thread_cache_same in Ha.
    rewrite small_class in Ha by lia.
    destruct (pool_manager_ops.allocate s _) as [[s' ptr] |] eqn:Hpm;
      cbn [mbind option_bind] in Ha; [| discriminate].
    eapply pooled_block_header; eassumption.
  - unfold allocate_medium in Ha. rewrite medium_class in Ha by lia.
    rewrite thread_cache_get_empty in Ha by exact Hempty.
    change (negb (0 =? 0)) with false in Ha. cbv iota in Ha.
    rewrite with_thread_cache_same in Ha.
    destruct (pool_manager_ops.allocate s _) as [[s' ptr] |] eqn:Hpm;
      cbn [mbind option_bind] in Ha; [| discriminate].
    eapply pooled_block_header; eassumption.
Qed.

(** Property X22.  On the small and medium tiers, with nothing in the thread cache,
    the header just below the pointer that [allocate] returns holds the
    requested size and the class of the request, [(n - 1) / 8] up to 256
    bytes and [log2 (n - 1)] above; it is written by [encode] alone, so it
    has no magic number and fails [is_valid]. *)
Theorem pooled_allocation_header (t : target) (s s1 : state) (n p : Z) :
  64 < n < PG_SIZE -> thread_cache_empty s ->
  allocate t s n = Some (s1, p) -> p <> 0 ->
  header.size (hdr_at (hdrs s1) (header_of p)) = n /\
  header.size_class (hdr_at (hdrs s1) (header_of p))
    = (if n <=? 256 then (n - 1) / 8 else Z.log2 (n - 1)) /\
  magic (hdr_at (hdrs s1) (header_of p)) = 0 /\
  header.is_valid (hdr_at (hdrs s1) (header_of p)) = false.
Proof.
  intros Hn Hempty Ha Hp.
  rewrite (pooled_allocation_block t s s1 n p Hn Hempty Ha Hp).
  unfold PG_SIZE in Hn.
  rewrite size_encode, size_class_encode.
  split; [apply Z.mod_small; lia |]. split; [| split; reflexivity].
  apply uint8_small. destruct (Z.leb_spec n 256).
  - assert (0 <= (n - 1) / 8 < 32)
      by (split; [apply Z.div_pos; lia | apply Z.div_lt_upper_bound; lia]).
    lia.
  - assert (Z.log2 (n - 1) < 12) by (apply Z.log2_lt_pow2; lia).
    pose proof (Z.log2_nonneg (n - 1)). lia.
Qed.

Lemma pooled_allocation_header_witness :
  header.size (hdr_at (hdrs after_allocate_100) (header_of 0x1000080)) = 100 /\
  header.size_class (hdr_at (hdrs after_allocate_100) (header_of 0x1000080))
    = (if 100 <=? 256 then (100 - 1) / 8 else Z.log2 (100 - 1)) /\
  magic (hdr_at (hdrs after_allocate_100) (header_of 0x1000080)) = 0 /\
  header.is_valid (hdr_at (hdrs after_allocate_100) (header_of 0x1000080)) = false.
Proof.
  apply (pooled_allocation_header x86_64 example_state after_allocate_100 100).
  - unfold PG_SIZE. lia.
  - exact example_thread_cache_empty.
  - exact allocate_100_result.
  - discriminate.
Defined.

(** ** Tiny blocks are handed out once *)

Lemma allocate_tiny_base (tp : tiny_pool) (c : Z) :
  tp_base (tiny_pool_ops.allocate_tiny tp c).1 = tp_base tp.
Proof.
  unfold tiny_pool_ops.allocate_tiny.
  destruct (tiny_pool_ops.slot_size_of c) as [size slot].
  destruct (bitmap.find_free_block _ _) as [words index].
  destruct (_ && _); [destruct (_ <=? _) |]; reflexivity.
Qed.

Lemma allocate_tiny_bitmap (tp : tiny_pool) (c : Z) :
  0 <= c < 8 ->
  tp_bitmap (tiny_pool_ops.allocate_tiny tp c).1
  = (bitmap.find_free_block (tp_bitmap tp) (8 * (c + 1))).1.
Proof.
  intros Hc. unfold tiny_pool_ops.allocate_tiny. rewrite tiny_slot_size by exact Hc.
  destruct (bitmap.find_free_block _ _) as [words index].
  destruct (_ && _); [destruct (_ <=? _) |]; reflexivity.
Qed.

(** A block handed out by [tiny_pool::allocate_tiny] is the slot whose
    index the bitmap search returned. *)
Lemma allocate_tiny_find (tp : tiny_pool) (c index : Z) :
  0 <= c < 8 -> 0 <= tp_base tp -> 0 <= index ->
  (tiny_pool_ops.allocate_tiny tp c).2 = tp_base tp + 64 + index * 128 ->
  bitmap.find_free_block (tp_bitmap tp) (8 * (c + 1))
    = (tp_bitmap (tiny_pool_ops.allocate_tiny tp c).1, index) /\
  index <> SENTINEL.
Proof.
  intros Hc Hb Hi. unfold tiny_pool_ops.allocate_tiny.
  rewrite tiny_slot_size by exact Hc.
  destruct (bitmap.find_free_block _ _) as [words idx].
  unfold pool_memory. change sizeof_bitmap with 64.
  destruct (Z.eqb_spec idx SENTINEL) as [Es | Hs]; cbn [negb andb fst snd tp_bitmap];
    [intros H; lia |].
  destruct (_ <? _); cbn [fst snd tp_bitmap]; [| intros H; lia].
  destruct (_ <=? _); cbn [fst snd tp_bitmap]; intros H; [| lia].
  assert (idx = index) as -> by lia. split; [reflexivity | exact Hs].
Qed.

(** The search leaves the bitmap as it was or clears one bit of it. *)
Lemma find_free_from_cases (words : list Z) (mask : Z) (idxs : list nat)
                           (words' : list Z) (idx : Z) :
  bitmap.find_free_from words mask idxs = (words', idx) ->
  words' = words \/
  exists i w, words !! i = Some w /\
    words' = <[i := Z.land w (Z.lnot (Z.shiftl 1 (count_trailing_zeros w)))]> words.
Proof.
  induction idxs as [| i rest IH]; cbn [bitmap.find_free_from]; intros H.
  - injection H as <- _. left. reflexivity.
  - destruct (negb (Z.land (Z.of_nat i) mask =? 0)); [exact (IH H) |].
    destruct (words !! i) as [w |] eqn:Ew; cbn [default from_option id] in H.
    2:{ change (0 =? 0) with true in H. cbv iota in H. exact (IH H). }
    destruct (w =? 0); [exact (IH H) |].
    injection H as <- _. right. exists i, w. split; [exact Ew | reflexivity].
Qed.

Lemma find_free_block_keeps (words : list Z) (size k : Z) :
  bitmap_ok words -> slot_taken words k ->
  bitmap_ok (bitmap.find_free_block words size).1 /\
  slot_taken (bitmap.find_free_block words size).1 k.
Proof.
  intros [Hlen Hall] Htaken. unfold bitmap.find_free_block.
  destruct (bitmap.find_free_from _ _ _) as [words' idx] eqn:E. cbn [fst].
  apply find_free_from_cases in E as [-> | (i & w & Hw & ->)].
  { split; [split |]; assumption. }
  split.
  - split; [rewrite length_insert; exact Hlen |].
    apply Forall_insert; [exact Hall |].
    apply cleared_word_range; [| apply count_trailing_zeros_nonneg].
    rewrite Forall_forall in Hall. apply Hall. eapply list_elem_of_lookup_2. exact Hw.
  - intros j w' b Hj Hb Hk. destruct (Nat.eq_dec j i) as [-> | Hne].
    + rewrite list_lookup_insert_eq in Hj by (eapply lookup_lt_Some; exact Hw).
      injection Hj as <-. rewrite Z.land_spec, (Htaken i w b Hw Hb Hk). reflexivity.
    + rewrite list_lookup_insert_ne in Hj by congruence.
      exact (Htaken j w' b Hj Hb Hk).
Qed.

Lemma holds_slot_same_pools (s s' : state) (c base k : Z) :
  tiny_pools_ s' = tiny_pools_ s -> holds_slot s c base k -> holds_slot s' c base k.
Proof. unfold holds_slot. intros ->. exact id. Qed.

Lemma holds_slot_other_class (s : state) (c c' base k : Z) (o : option tiny_pool) :
  0 <= c -> 0 <= c' -> c' <> c ->
  holds_slot s c base k ->
  holds_slot (with_tiny_pools (set_nth (tiny_pools_ s) c' o) s) c base k.
Proof.
  intros Hc Hc' Hne (Hlen & tp & Htp & Hrest). split.
  - cbn [tiny_pools_ with_tiny_pools]. rewrite length_set_nth. exact Hlen.
  - exists tp. split; [| exact Hrest].
    cbn [tiny_pools_ with_tiny_pools]. rewrite nth_def_set_nth_ne by assumption.
    exact Htp.
Qed.

Lemma holds_slot_same_class (s : state) (c base k : Z) (tp : tiny_pool) :
  0 <= c < 8 ->
  holds_slot s c base k ->
  nth_def None (tiny_pools_ s) c = Some tp ->
  holds_slot (with_tiny_pools
                (set_nth (tiny_pools_ s) c (Some (tiny_pool_ops.allocate_tiny tp c).1)) s)
             c base k.
Proof.
  intros Hc (Hlen & tp0 & Htp0 & Hb & Hok & Htaken) Htp.
  rewrite Htp in Htp0. injection Htp0 as <-. split.
  - cbn [tiny_pools_ with_tiny_pools]. rewrite length_set_nth. exact Hlen.
  - exists (tiny_pool_ops.allocate_tiny tp c).1.
    cbn [tiny_pools_ with_tiny_pools].
    split; [apply nth_def_set_nth_eq; lia |].
    split; [rewrite allocate_tiny_base; exact Hb |].
    rewrite allocate_tiny_bitmap by exact Hc.
    apply find_free_block_keeps; assumption.
Qed.

Lemma pool_manager_allocate_tiny_pools (s s' : state) (c ptr : Z) :
  pool_manager_ops.allocate s c = Some (s', ptr) -> tiny_pools_ s' = tiny_pools_ s.
Proof.
  unfold pool_manager_ops.allocate.
  destruct (pool_manager_ops.try_pools _ _ _ _) as [[es' p] |];
    cbn [mbind option_bind]; [| discriminate].
  destruct (negb (p =? 0)); [intros H; injection H as <- _; reflexivity |].
  destruct (_ <? MAX_POOLS); [| intros H; injection H as <- _; reflexivity].
  destruct (os_acquire _ _) as [[base |] o]; [| discriminate].
  destruct (pool_ops.allocate _ _) as [np ptr'].
  destruct (negb (ptr' =? 0)); intros H; injection H as <- _; reflexivity.
Qed.

Lemma allocate_large_tiny_pools (t : target) (s s' : state) (n r : Z) :
  allocate_large t s n = Some (s', r) -> tiny_pools_ s' = tiny_pools_ s.
Proof.
  unfold allocate_large.
  destruct (large_block_cache.get_cached_block _ _ _) as [c cached].
  destruct (negb (cached =? 0)); [intros H; injection H as <- _; reflexivity |].
  destruct (_ <=? _); unfold map_large;
    (destruct (os_acquire _ _) as [[ptr |] o]; [| discriminate]);
    destruct (ptr =? 0); intros H; injection H as <- _; reflexivity.
Qed.

Lemma pooled_tiny_pools (s s1 s' : state) (n c ptr r : Z) :
  pool_manager_ops.allocate s c = Some (s1, ptr) ->
  (if negb (ptr =? 0) then Some (place_encoded ptr n c s1, user_ptr ptr)
   else Some (s1, 0)) = Some (s', r) ->
  tiny_pools_ s' = tiny_pools_ s.
Proof.
  intros Hpm H. apply pool_manager_allocate_tiny_pools in Hpm.
  destruct (negb (ptr =? 0)); injection H as <- _; exact Hpm.
Qed.

Lemma allocate_small_tiny_pools (s s' : state) (n r : Z) :
  allocate_small s n = Some (s', r) -> tiny_pools_ s' = tiny_pools_ s.
Proof.
  unfold allocate_small.
  destruct (thread_cache.get _ _) as [tc cached].
  destruct (negb (cached =? 0)).
  { destruct (header.is_valid _); intros H; injection H as <- _; reflexivity. }
  destruct (pool_manager_ops.allocate _ _) as [[s1 ptr] |] eqn:Hpm;
    cbn [mbind option_bind]; [| discriminate].
  intros H. exact (pooled_tiny_pools _ _ _ _ _ _ _ Hpm H).
Qed.

Lemma allocate_medium_tiny_pools (s s' : state) (n c r : Z) :
  allocate_medium s n c = Some (s', r) -> tiny_pools_ s' = tiny_pools_ s.
Proof.
  unfold allocate_medium.
  destruct (thread_cache.get _ _) as [tc cached].
  destruct (negb (cached =? 0)); [intros H; injection H as <- _; reflexivity |].
  destruct (pool_manager_ops.allocate _ _) as [[s1 ptr] |] eqn:Hpm;
    cbn [mbind option_bind]; [| discriminate].
  intros H. exact (pooled_tiny_pools _ _ _ _ _ _ _ Hpm H).
Qed.

(** No call of [allocate], whatever its size, gives a taken slot back. *)
Lemma allocate_rec_holds_slot (t : target) (c base k n : Z) (s' : state) (r : Z) :
  0 <= c < 8 ->
  forall (fuel : nat) (s : state),
    holds_slot s c base k ->
    allocate_rec t fuel s n = Some (s', r) ->
    holds_slot s' c base k.
Proof.
  intros Hc. induction fuel as [| fuel IH]; intros s Hs H; cbn [allocate_rec] in H;
    [discriminate |].
  destruct ((n =? 0) || (n >? 2 ^ 47)); [injection H as <- _; exact Hs |].
  destruct (n <=? TINY_LARGE_THRESHOLD).
  - pose proof (Z.mod_pos_bound (Z.shiftr (n - 1) 3) (2 ^ 8) ltac:(lia)) as Hu.
    fold (uint8 (Z.shiftr (n - 1) 3)) in Hu.
    set (c' := uint8 (Z.shiftr (n - 1) 3)) in *.
    destruct (c' >=? TINY_CLASSES); [injection H as <- _; exact Hs |].
    destruct (Z.eq_dec c' c) as [-> | Hne].
    + destruct Hs as (Hlen & tp & Htp & Hrest). rewrite Htp in H.
      pose proof (holds_slot_same_class s c base k tp Hc
                    (conj Hlen (ex_intro _ tp (conj Htp Hrest))) Htp) as Hs'.
      destruct (tiny_pool_ops.allocate_tiny tp c) as [tp' ptr]. cbn [fst] in Hs'.
      destruct (negb (ptr =? 0)); injection H as <- _; exact Hs'.
    + destruct (nth_def None (tiny_pools_ s) c') as [tp0 |].
      * destruct (tiny_pool_ops.allocate_tiny tp0 c') as [tp' ptr].
        pose proof (holds_slot_other_class s c c' base k (Some tp')
                      ltac:(lia) ltac:(lia) Hne Hs) as Hs'.
        destruct (negb (ptr =? 0)); injection H as <- _; exact Hs'.
      * destruct (os_acquire PG_SIZE (os s)) as [[base0 |] o].
        -- eapply IH; [| exact H].
           apply holds_slot_other_class; [lia | lia | exact Hne |].
           eapply holds_slot_same_pools; [| exact Hs]. reflexivity.
        -- injection H as <- _. exact Hs.
  - destruct (n >=? PG_SIZE).
    { eapply holds_slot_same_pools; [eapply allocate_large_tiny_pools; exact H | exact Hs]. }
    destruct (n <=? SMALL_LARGE_THRESHOLD).
    + destruct (thread_cache.get _ _) as [tc cached].
      destruct (negb (cached =? 0)); [injection H as <- _; exact Hs |].
      eapply holds_slot_same_pools; [eapply allocate_small_tiny_pools; exact H | exact Hs].
    + eapply holds_slot_same_pools; [eapply allocate_medium_tiny_pools; exact H | exact Hs].
Qed.

Lemma run_calls_holds_slot (t : target) (c base k : Z) (calls : list call)
                           (s s' : state) :
  0 <= c < 8 ->
  holds_slot s c base k -> run_calls t s calls = Some s' -> holds_slot s' c base k.
Proof.
  intros Hc. revert s. induction calls as [| [n | p] rest IH]; intros s Hs H;
    cbn [run_calls] in H.
  - injection H as <-. exact Hs.
  - destruct (allocate t s n) as [[s0 r] |] eqn:Ha; cbn [mbind option_bind] in H;
      [| discriminate].
    apply (IH s0); [| exact H].
    exact (allocate_rec_holds_slot t c base k n s0 r Hc 2 s Hs Ha).
  - destruct (deallocate t s p) as [s0 |] eqn:Hd; cbn [mbind option_bind] in H;
      [| discriminate].
    destruct (deallocate_keeps t s s0 p Hd) as (_ & _ & _ & _ & Htp & _).
    apply (IH s0); [| exact H].
    eapply holds_slot_same_pools; [exact Htp | exact Hs].
Qed.

Lemma fresh_bitmap_ok : bitmap_ok fresh_bitmap.
Proof.
  split; [reflexivity |]. apply Forall_forall. intros w Hw.
  apply elem_of_replicate in Hw as [-> _]. unfold SIZE_MAX. lia.
Qed.

Lemma tiny_class_eq (n m : Z) :
  1 <= n -> 1 <= m -> (n - 1) / 8 = (m - 1) / 8 ->
  uint8 (Z.shiftr (m - 1) 3) = uint8 (Z.shiftr (n - 1) 3).
Proof.
  intros Hn Hm E. rewrite !Z.shiftr_div_pow2 by lia. change (2 ^ 3) with 8.
  rewrite E. reflexivity.
Qed.

(** Property X9.  A tiny block is handed out once.  Let [allocate] return [p] for a
    request of 1 to 64 bytes.  After any run of [allocate] and [deallocate]
    calls, of any sizes and any pointers, [p] included, a successful
    [allocate] of the same class returns a block whose header and payload
    lie entirely outside the header and payload of [p]. *)
Theorem tiny_block_handed_out_once (t : target) (s s1 s2 s3 : state)
                                   (n m p q : Z) (calls : list call) :
  1 <= n <= 64 -> 1 <= m <= 64 -> (n - 1) / 8 = (m - 1) / 8 ->
  length (tiny_pools_ s) = 8%nat ->
  (forall tp, Some tp ∈ tiny_pools_ s ->
     tiny_pool_placed tp /\ bitmap_ok (tp_bitmap tp)) ->
  os_placed (os s) ->
  allocate t s n = Some (s1, p) -> p <> 0 ->
  run_calls t s1 calls = Some s2 ->
  allocate t s2 m = Some (s3, q) -> q <> 0 ->
  p + n <= q - sizeof_block_header \/ q + m <= p - sizeof_block_header.
Proof.
  intros Hn Hm Hcls Hlen Hpools Hos Ha Hp Hrun Ha2 Hq.
  pose proof (tiny_class_of n Hn) as Hc.
  destruct (tiny_call t s n Hn Hlen (fun tp H => proj1 (Hpools tp H)) Hos) as [_ Hshape].
  destruct (Hshape s1 p Ha Hp)
    as (s0 & tp & index & Hplaced & Horigin & Hi & Hp' & _ & Hblk & Hlen0 & Hnth & Hs1).
  assert (Hok : bitmap_ok (tp_bitmap tp)).
  { destruct Horigin as [Htp | ->]; [| exact fresh_bitmap_ok].
    apply Hpools. unfold nth_def in Htp.
    destruct (tiny_pools_ s !! _) as [o |] eqn:E; cbn [default from_option id] in Htp;
      [| discriminate].
    subst o. eapply list_elem_of_lookup_2. exact E. }
  set (c := uint8 (Z.shiftr (n - 1) 3)) in *.
  pose proof Hplaced as (Hb0 & _ & _).
  destruct (allocate_tiny_find tp c index Hc Hb0 ltac:(lia) Hblk) as [Hf1 Hsent].
  assert (Hheld : holds_slot s1 c (tp_base tp) index).
  { split; [rewrite Hs1; exact Hlen0 |].
    exists (tiny_pool_ops.allocate_tiny tp c).1.
    split; [rewrite Hs1; exact Hnth |].
    split; [apply allocate_tiny_base |].
    split; [exact (find_free_block_keeps_ok _ _ _ _ Hok Hf1 Hsent) |].
    destruct (find_free_block_found _ _ _ _ Hok Hf1 Hsent)
      as (i & w & b & _ & Hw & Hb & _ & Ei & Ew).
    intros j w' b' Hj Hb' Hk. rewrite Ew in Hj.
    assert (j = i /\ b' = b) as [-> ->] by lia.
    rewrite list_lookup_insert_eq in Hj by (eapply lookup_lt_Some; exact Hw).
    injection Hj as <-. apply cleared_bit. lia. }
  destruct (run_calls_holds_slot t c _ index calls s1 s2 Hc Hheld Hrun)
    as (_ & tp2 & Hnth2 & Hbase2 & Hok2 & Htaken2).
  assert (Hplaced2 : tiny_pool_placed tp2).
  { unfold tiny_pool_placed. rewrite Hbase2. exact Hplaced. }
  assert (Hcm : uint8 (Z.shiftr (m - 1) 3) = c) by (apply tiny_class_eq; lia).
  rewrite <- Hcm in Hnth2.
  destruct (tiny_round t 0 1 s2 m tp2 Hm Hnth2 Hplaced2) as [_ Hshape2].
  destruct (Hshape2 s3 q Ha2 Hq) as (index2 & Hi2 & Hq' & _ & Hblk2 & _).
  rewrite Hcm in Hblk2.
  destruct (allocate_tiny_find tp2 c index2 Hc ltac:(lia) ltac:(lia) Hblk2) as [Hf2 Hsent2].
  destruct (find_free_block_found _ _ _ _ Hok2 Hf2 Hsent2)
    as (j & w2 & b2 & _ & Hw2 & Hb2 & Hbit2 & Ej & _).
  assert (Hne : index <> index2).
  { intros E. rewrite (Htaken2 j w2 b2 Hw2 Hb2 ltac:(lia)) in Hbit2. discriminate. }
  unfold sizeof_block_header. lia.
Qed.

Lemma example_calls_result :
  run_calls x86_64 after_allocate_48 example_calls = Some after_example_calls.
Proof.
  unfold after_example_calls.
  destruct (run_calls x86_64 after_allocate_48 example_calls) as [s |] eqn:E;
    [reflexivity |].
  apply (f_equal (fmap (fun _ => tt))) in E. vm_compute in E. discriminate.
Qed.

Lemma allocate_48_again_result :
  allocate x86_64 after_example_calls 48 = Some (after_allocate_48_again, 0x1000100).
Proof.
  unfold after_allocate_48_again.
  destruct (allocate x86_64 after_example_calls 48) as [[s1 p] |] eqn:E;
    apply (f_equal (fmap snd)) in E; vm_compute in E;
    [injection E as <-; reflexivity | discriminate].
Qed.

Lemma example_pools_ok (tp : tiny_pool) :
  Some tp ∈ tiny_pools_ example_state ->
  tiny_pool_placed tp /\ bitmap_ok (tp_bitmap tp).
Proof. intros H. apply elem_of_replicate in H as [H _]. discriminate. Qed.

Lemma tiny_block_handed_out_once_witness :
  0x1000080 + 48 <= 0x1000100 - sizeof_block_header \/
  0x1000100 + 48 <= 0x1000080 - sizeof_block_header.
Proof.
  apply (tiny_block_handed_out_once x86_64 example_state after_allocate_48
           after_example_calls after_allocate_48_again 48 48 0x1000080 0x1000100
           example_calls).
  - lia.
  - lia.
  - reflexivity.
  - reflexivity.
  - exact example_pools_ok.
  - exact example_os_placed.
  - exact allocate_48_result.
  - discriminate.
  - exact example_calls_result.
  - exact allocate_48_again_result.
  - discriminate.
Defined.

(** ** [callocate] of several elements *)

Lemma callocate_as_one (t : target) (s : state) (k n : Z) :
  0 < k -> 0 < n -> k * n < 2 ^ 64 ->
  callocate t s k n = callocate t s 1 (k * n).
Proof.
  intros Hk Hn Hkn. unfold callocate.
  destruct (Z.eqb_spec k 0); [lia |]. destruct (Z.eqb_spec n 0); [lia |].
  destruct (Z.eqb_spec (k * n) 0); [lia |].
  change (1 =? 0) with false. cbn [orb]. rewrite Z.mul_1_l.
  assert (H1 : (k >? SIZE_MAX / n) = false).
  { rewrite Z.gtb_ltb. apply Z.ltb_ge.
    apply Z.div_le_lower_bound; unfold SIZE_MAX; lia. }
  assert (H2 : (1 >? SIZE_MAX / (k * n)) = false).
  { rewrite Z.gtb_ltb. apply Z.ltb_ge.
    apply Z.div_le_lower_bound; unfold SIZE_MAX; lia. }
  rewrite H1, H2. reflexivity.
Qed.

(** Property X19.  [callocate(k, n)] with a product that fits [size_t] returns the
    pointer that [allocate(k * n)] returns, and each of the [k * n] bytes
    from it on is zero, whichever of the zeroing paths was taken. *)
Theorem callocate_zeroed (t : target) (s s' : state) (k n p : Z) :
  0 < k -> 0 < n -> k * n < 2 ^ 64 ->
  callocate t s k n = Some (s', p) -> 0 < p -> p + k * n <= 2 ^ 64 ->
  (exists s1, allocate t s (k * n) = Some (s1, p)) /\
  forall i, 0 <= i < k * n -> bytes s' (p + i) = 0.
Proof.
  intros Hk Hn Hkn Hc Hp Hpn.
  rewrite callocate_as_one in Hc by assumption.
  assert (HN : 0 < k * n < 2 ^ 64) by lia.
  destruct (allocate t s (k * n)) as [[s1 ptr] |] eqn:Ha.
  2:{ rewrite (callocate_one_unfold t s _ HN), Ha in Hc. discriminate. }
  destruct (Z.eq_dec ptr 0) as [-> | Hp0].
  { rewrite (callocate_one_unfold t s _ HN), Ha in Hc.
    change (0 =? 0) with true in Hc. cbv iota in Hc. injection Hc as _ <-. lia. }
  destruct (callocate_same_pointer t s s1 _ ptr HN Ha Hp0) as [s2 Hc2].
  rewrite Hc2 in Hc. injection Hc as <- <-.
  destruct (callocate_zeroes_region t s s1 _ ptr HN Ha Hp Hpn) as (s'' & Hc' & Hz).
  rewrite Hc2 in Hc'. injection Hc' as <-.
  split; [exists s1; reflexivity | exact Hz].
Qed.

Lemma callocate_zeroed_witness :
  exists s', callocate x86_64 example_state 4 50 = Some (s', 0x1000080) /\
    forall i, 0 <= i < 4 * 50 -> bytes s' (0x1000080 + i) = 0.
Proof.
  destruct (callocate x86_64 example_state 4 50) as [[s' p] |] eqn:Hc.
  - assert (Hp : p = 0x1000080).
    { apply (f_equal (fmap snd)) in Hc. vm_compute in Hc. congruence. }
    subst p. exists s'. split; [reflexivity |].
    apply (callocate_zeroed x86_64 example_state s' 4 50 0x1000080); [lia .. | exact Hc | lia | lia].
  - apply (f_equal (fmap snd)) in Hc. vm_compute in Hc. discriminate.
Defined.
